(** * PISO: a one-dimensional pressure-velocity-temperature solver

    Shallow embedding of the solver sources (the SIMPLEC and PISO programs of
    [PISO.cpp] and the earlier PISO program) and the properties of its
    specification.

    Numbers: a C++ [double] is embedded as a real number of the Standard
    Library, so every statement below is about exact arithmetic, but for
    the module [SIMPLEC_binary64], which runs the momentum predictor of the
    SIMPLEC program with the operations of binary64 to show what rounding
    does to a boundary row.  Division is
    the total division of [R]; statements that depend on a quotient carry the
    hypothesis that the divisor is not zero, which is where the embedding and
    the IEEE program agree.

    Arrays: a [std::vector<double>] is a [list R]; [get] reads a cell and
    [upd] writes one.  Reading or writing past the end is undefined in the
    source; here [get] yields [0] and [upd] leaves the list alone, and the
    statements stay inside the bounds. *)

From Stdlib Require Import Reals Lra Lia List Arith ZArith QArith Qround Bool.
From Stdlib Require PrimFloat.

#[local] Set Warnings "-abstract-large-number".
#[local] Set Warnings "-inexact-float".
Import ListNotations.

Open Scope R_scope.

(** ** Vectors *)

Definition get (l : list R) (i : nat) : R := nth i l 0.

Fixpoint upd (l : list R) (i : nat) (v : R) : list R :=
  match l, i with
  | [], _ => []
  | _ :: t, O => v :: t
  | h :: t, S j => h :: upd t j v
  end.

(** [std::vector<double> v(n, x)] *)
Definition vec (n : nat) (x : R) : list R := repeat x n.

(** The index range of [for (int i = lo; i < hi; i++)]. *)
Definition range (lo hi : nat) : list nat := seq lo (hi - lo).

(** The index range of [for (int i = hi; i >= 0; i--)] with [hi = m - 1]. *)
Definition down_from (m : nat) : list nat := rev (seq 0 m).

(** ** The tridiagonal solver (Thomas algorithm) *)

(** One pass of the body of the forward loop, at index [i]. *)
Definition forward_step (a b c d : list R) (st : list R * list R) (i : nat)
  : list R * list R :=
  let '(c_star, d_star) := st in
  let m := get b i - get a i * get c_star (i - 1) in
  (upd c_star i (get c i / m),
   upd d_star i ((get d i - get a i * get d_star (i - 1)) / m)).

(** The forward elimination: the two assignments at index 0, then the loop
    [for (int i = 1; i < n; i++)]. *)
Definition forward_sweep (a b c d : list R) : list R * list R :=
  let n := length b in
  let c_star := upd (vec n 0) 0 (get c 0 / get b 0) in
  let d_star := upd (vec n 0) 0 (get d 0 / get b 0) in
  fold_left (forward_step a b c d) (range 1 n) (c_star, d_star).

(** One pass of the body of the backward loop, at index [i]. *)
Definition backward_step (c_star d_star : list R) (x : list R) (i : nat)
  : list R :=
  upd x i (get d_star i - get c_star i * get x (i + 1)).

(** The back substitution: [x[n-1] = d_star[n-1]], then the loop
    [for (int i = n - 2; i >= 0; i--)]. *)
Definition back_substitution (n : nat) (c_star d_star : list R) : list R :=
  let x := upd (vec n 0) (n - 1) (get d_star (n - 1)) in
  fold_left (backward_step c_star d_star) (down_from (n - 1)) x.

Definition solveTridiagonal (a b c d : list R) : list R :=
  let n := length b in
  let '(c_star, d_star) := forward_sweep a b c d in
  back_substitution n c_star d_star.

(** The pivot the forward loop divides by at index [i]. *)
Definition pivot (a b c d : list R) (i : nat) : R :=
  get b i - get a i * get (fst (forward_sweep a b c d)) (i - 1).

(** The precondition of the solver: no divisor is zero. *)
Definition pivots_nonzero (a b c d : list R) : Prop :=
  get b 0 <> 0 /\
  forall i, (1 <= i < length b)%nat -> pivot a b c d i <> 0.

(** Row [i] of the system [A x = d]: the term of a neighbour that does not
    exist is left out. *)
Definition row_holds (a b c d x : list R) (i : nat) : Prop :=
  (if (i =? 0)%nat then 0 else get a i * get x (i - 1))
  + get b i * get x i
  + (if (i =? length b - 1)%nat then 0 else get c i * get x (i + 1))
  = get d i.

(** ** Diagnostics on the standard output *)

(** The one text the property functions print:
    "Warning, temperature T is below solidification temperature!". *)
Inductive diag : Type :=
| BelowSolidification (T : R).

(** A property function yields its value and what it printed. *)
Definition reading : Type := (R * list diag)%type.

Definition value (r : reading) : R := fst r.
Definition printed (r : reading) : list diag := snd r.

(** ** The SIMPLEC program (first program of PISO.cpp) *)

Module SIMPLEC.

Definition T_Na_crit : R := 2509.46.

Definition rho_Na_l (T : R) : reading :=
  let Tc := T_Na_crit in
  (219.0 + 275.32 * (1.0 - T / Tc) + 511.58 * sqrt (1.0 - T / Tc), []).

Definition k_Na_l (T : R) : reading :=
  (124.67 - 0.11381 * T + 5.5226e-5 * T * T - 1.1842e-8 * T * T * T, []).

Definition Cp_Na_l (T : R) : reading :=
  let dT := T - 273.15 in
  (1436.72 - 0.58 * dT + 4.627e-4 * dT * dT, []).

Definition mu_Na (T : R) : reading :=
  (exp (-6.4406 - 0.3958 * ln T + 556.835 / T), []).

(** The constants of [main] that the momentum predictor reads. *)
Record Config : Type := {
  Nx : nat;
  dx : R;
  dt : R;
  K : R;
  CF : R;
  u_inlet : R
}.

(** The four vectors [a, b, c, d] of the momentum system. *)
Definition system : Type := (list R * list R * list R * list R)%type.

(** Body of the loop [for (int ix = 1; ix < Nx - 1; ix++)] of step 1.
    The vector [b_SIMPLEC] is written there too; the solve does not read
    it. *)
Definition momentum_cell (cfg : Config) (u p T : list R)
           (sys : system) (ix : nat) : system :=
  let '(a, b, c, d) := sys in
  let rho_node := value (rho_Na_l (get T ix)) in
  let mu_node := value (mu_Na (get T ix)) in
  let a := upd a ix (- mu_node / (dx cfg * dx cfg)) in
  let c := upd c ix (- mu_node / (dx cfg * dx cfg)) in
  let b := upd b ix
    (rho_node / dt cfg + 2 * mu_node / (dx cfg * dx cfg)
     + rho_node * (get u ix - get u (ix - 1)) / dx cfg
     + mu_node / K cfg
     + CF cfg * rho_node / sqrt (K cfg) * Rabs (get u ix)) in
  let d := upd d ix
    (rho_node * get u ix / dt cfg
     - (get p (ix + 1) - get p (ix - 1)) / (2 * dx cfg)) in
  (a, b, c, d).

(** The boundary rows: velocity fixed on the left, zero gradient on the
    right. *)
Definition momentum_bc (cfg : Config) (sys : system) : system :=
  let '(a, b, c, d) := sys in
  let b := upd b 0 1 in
  let c := upd c 0 0 in
  let d := upd d 0 (u_inlet cfg) in
  let a := upd a (Nx cfg - 1) (-1) in
  let b := upd b (Nx cfg - 1) 1 in
  let d := upd d (Nx cfg - 1) 0 in
  (a, b, c, d).

Definition momentum_system (cfg : Config) (u p T : list R) : system :=
  let z := vec (Nx cfg) 0 in
  momentum_bc cfg
    (fold_left (momentum_cell cfg u p T) (range 1 (Nx cfg - 1)) (z, z, z, z)).

(** [u = solveTridiagonal(a, b, c, d)] *)
Definition momentum_predictor (cfg : Config) (u p T : list R) : list R :=
  let '(a, b, c, d) := momentum_system cfg u p T in
  solveTridiagonal a b c d.

(** *** The rest of [main]: state, SIMPLE pass, energy equation, output *)

(** The other constants of [main]; [t_iter] is [t_max / dt] cut to an
    [int]. *)
Record Numerics : Type := {
  t_iter : nat;
  SIMPLE_iter : nat;
  tol : R;
  p_outlet : R;
  T_inlet : R;
  T_outlet : R;
  rhiechow_coeff : R;
  p_relax : R;
  v_relax : R
}.

(** What is written to the output file: a number, the text [", "], or the
    text ["\n"]. *)
Inductive token : Type :=
| Num (x : R)
| Comma
| Newline.

(** The variables of [main] that outlive a statement. *)
Record State : Type := {
  u : list R;
  p : list R;
  T : list R;
  p_prime : list R;
  iter : nat;
  maxErr : R;
  fout : list token
}.

(** **** 1. Momentum predictor, with the SIMPLEC diagonal *)

(** The body of the loop of step 1 with its last line,
    [b_SIMPLEC[ix] = b[ix] - (c[ix] + a[ix])]. *)
Definition momentum_cell_SIMPLEC (cfg : Config) (u p T : list R)
           (st : system * list R) (ix : nat) : system * list R :=
  let '(sys, b_SIMPLEC) := st in
  let '(a, b, c, d) := momentum_cell cfg u p T sys ix in
  (a, b, c, d, upd b_SIMPLEC ix (get b ix - (get c ix + get a ix))).

(** The diagonal entries kept for the Rhie and Chow terms of the second
    and of the second-to-last node; [abs(u[0])] is read as the absolute
    value of the double. *)
Definition b_0_RC (cfg : Config) (u T : list R) : R :=
  value (rho_Na_l (get T 0)) / dt cfg
  + 2 * value (mu_Na (get T 0)) / (dx cfg * dx cfg)
  + value (mu_Na (get T 0)) / K cfg
  + CF cfg * value (rho_Na_l (get T 0)) / sqrt (K cfg) * Rabs (get u 0).

Definition b_Nx_1_RC (cfg : Config) (u T : list R) : R :=
  value (rho_Na_l (get T (Nx cfg - 1))) / dt cfg
  + 3 * value (mu_Na (get T (Nx cfg - 1))) / (dx cfg * dx cfg)
  + value (mu_Na (get T (Nx cfg - 1))) / K cfg
  + CF cfg * value (rho_Na_l (get T (Nx cfg - 1))) / sqrt (K cfg)
    * Rabs (get u (Nx cfg - 1)).

(** The boundary rows, and the two boundary cells of [b_SIMPLEC], which
    get the expressions of [b_0_RC] and [b_Nx_1_RC]. *)
Definition momentum_bc_SIMPLEC (cfg : Config) (u T : list R)
           (st : system * list R) : system * list R :=
  let '(sys, b_SIMPLEC) := st in
  let b_SIMPLEC := upd b_SIMPLEC 0 (b_0_RC cfg u T) in
  let b_SIMPLEC := upd b_SIMPLEC (Nx cfg - 1) (b_Nx_1_RC cfg u T) in
  (momentum_bc cfg sys, b_SIMPLEC).

(** The five vectors [a, b, c, d, b_SIMPLEC] when the solver is called. *)
Definition momentum_vectors (cfg : Config) (u p T : list R)
  : system * list R :=
  let z := vec (Nx cfg) 0 in
  momentum_bc_SIMPLEC cfg u T
    (fold_left (momentum_cell_SIMPLEC cfg u p T) (range 1 (Nx cfg - 1))
               (z, z, z, z, z)).

(** **** 2. Pressure correction equation *)

Definition rhiechow (cfg : Config) (b p : list R) (ix : nat) : R :=
  -1 / (8 * dx cfg) * (1 / get b (ix + 1) - 1 / get b (ix - 1))
  * (- get p (ix - 2) + 4 * get p (ix - 1) - 6 * get p ix
     + 4 * get p (ix + 1) - get p (ix + 2)).

(** Body of the loop [for (int ix = 2; ix < Nx - 2; ix++)]; [b] is the
    main diagonal of the momentum system and [u] the predicted velocity. *)
Definition pressure_cell (cfg : Config) (num : Numerics) (b u p T : list R)
           (sys : system) (ix : nat) : system :=
  let '(aP, bP, cP, dP) := sys in
  let dudx := (get u (ix + 1) - get u (ix - 1)) / (2 * dx cfg)
              + rhiechow_coeff num * rhiechow cfg b p ix in
  let aP := upd aP ix (1.0 / dx cfg / dx cfg) in
  let cP := upd cP ix (1.0 / dx cfg / dx cfg) in
  let bP := upd bP ix (-2.0 / dx cfg / dx cfg) in
  let dP := upd dP ix (value (rho_Na_l (get T ix)) / dt cfg * dudx) in
  (aP, bP, cP, dP).

Definition rhiechow1 (cfg : Config) (b p : list R) (b_0 : R) : R :=
  -1 / (8 * dx cfg) * (1 / get b 2 - 1 / b_0)
  * (-3 * get p 0 + 4 * get p 2 - get p 3).

Definition rhiechow2 (cfg : Config) (b p : list R) (b_Nx_1 : R) : R :=
  -1 / (8 * dx cfg) * (1 / b_Nx_1 - 1 / get b (Nx cfg - 3))
  * (- get p (Nx cfg - 4) + 4 * get p (Nx cfg - 3) - 6 * get p (Nx cfg - 2)).

(** The rows written after the loop, in the order of the source: last
    node, first node, second node, second-to-last node. *)
Definition pressure_bc (cfg : Config) (num : Numerics) (b_0 b_Nx_1 : R)
           (b u p T : list R) (sys : system) : system :=
  let '(aP, bP, cP, dP) := sys in
  let n := Nx cfg in
  let aP := upd aP (n - 1) 0 in
  let bP := upd bP (n - 1) 1 in
  let dP := upd dP (n - 1) 0 in
  let cP := upd cP 0 (-1) in
  let bP := upd bP 0 1 in
  let dP := upd dP 0 0 in
  let aP := upd aP 1 (1.0 / (dx cfg * dx cfg)) in
  let cP := upd cP 1 (1.0 / (dx cfg * dx cfg)) in
  let bP := upd bP 1 (-2.0 / (dx cfg * dx cfg)) in
  let dP := upd dP 1
    (value (rho_Na_l (get T 1)) / dt cfg
     * ((get u 2 - get u 0) / (2 * dx cfg)
        + rhiechow_coeff num * rhiechow1 cfg b p b_0)) in
  let aP := upd aP (n - 2) (1.0 / dx cfg / dx cfg) in
  let cP := upd cP (n - 2) (1.0 / dx cfg / dx cfg) in
  let bP := upd bP (n - 2) (-2.0 / dx cfg / dx cfg) in
  let dP := upd dP (n - 2)
    (value (rho_Na_l (get T (n - 2))) / dt cfg
     * ((get u (n - 1) - get u (n - 3)) / (2 * dx cfg)
        + rhiechow_coeff num * rhiechow2 cfg b p b_Nx_1)) in
  (aP, bP, cP, dP).

Definition pressure_system (cfg : Config) (num : Numerics) (b_0 b_Nx_1 : R)
           (b u p T : list R) : system :=
  let z := vec (Nx cfg) 0 in
  pressure_bc cfg num b_0 b_Nx_1 b u p T
    (fold_left (pressure_cell cfg num b u p T) (range 2 (Nx cfg - 2))
               (z, z, z, z)).

(** **** 3. Pressure correction loop *)

(** [p[ix] += p_relax * p_prime[ix]] *)
Definition pressure_update_cell (num : Numerics) (p_prime p : list R)
           (ix : nat) : list R :=
  upd p ix (get p ix + p_relax num * get p_prime ix).

Definition pressure_update (cfg : Config) (num : Numerics)
           (p_prime p : list R) : list R :=
  fold_left (pressure_update_cell num p_prime) (range 0 (Nx cfg)) p.

(** **** 4. Velocity correction loop *)

(** Body of the loop: the cell is corrected and [maxErr] takes the
    change in. *)
Definition velocity_cell (cfg : Config) (num : Numerics)
           (b_SIMPLEC p_prime : list R) (st : list R * R) (ix : nat)
  : list R * R :=
  let '(u, maxErr) := st in
  let u_old := get u ix in
  let u := upd u ix
    (get u ix
     - v_relax num / get b_SIMPLEC ix
       * (get p_prime (ix + 1) - get p_prime (ix - 1)) / (2 * dx cfg)) in
  (u, Rmax maxErr (Rabs (get u ix - u_old))).

(** [maxErr = 0.0] and the loop [for (int ix = 1; ix < Nx - 1; ix++)]. *)
Definition velocity_correction (cfg : Config) (num : Numerics)
           (b_SIMPLEC p_prime u : list R) : list R * R :=
  fold_left (velocity_cell cfg num b_SIMPLEC p_prime)
            (range 1 (Nx cfg - 1)) (u, 0.0).

(** **** The SIMPLE loop *)

(** Body of the [while] loop: steps 1 to 4, the zero gradient written
    into the last velocity, and [iter++]. *)
Definition SIMPLE_pass (cfg : Config) (num : Numerics) (s : State) : State :=
  let '(a, b, c, d, b_SIMPLEC) := momentum_vectors cfg (u s) (p s) (T s) in
  let b_0 := b_0_RC cfg (u s) (T s) in
  let b_Nx_1 := b_Nx_1_RC cfg (u s) (T s) in
  let u_star := solveTridiagonal a b c d in
  let '(aP, bP, cP, dP) :=
    pressure_system cfg num b_0 b_Nx_1 b u_star (p s) (T s) in
  let p_prime := solveTridiagonal aP bP cP dP in
  let p := pressure_update cfg num p_prime (p s) in
  let '(u, maxErr) := velocity_correction cfg num b_SIMPLEC p_prime u_star in
  let u := upd u (Nx cfg - 1) (get u (Nx cfg - 2)) in
  {| u := u; p := p; T := T s; p_prime := p_prime;
     iter := S (iter s); maxErr := maxErr; fout := fout s |}.

(** [iter < SIMPLE_iter && maxErr > tol] *)
Definition SIMPLE_guard (num : Numerics) (s : State) : bool :=
  (iter s <? SIMPLE_iter num)%nat
  && (if Rgt_dec (maxErr s) (tol num) then true else false).

(** The [while] loop, with a bound on the passes still allowed. *)
Fixpoint SIMPLE_while (cfg : Config) (num : Numerics) (fuel : nat)
         (s : State) : State :=
  match fuel with
  | O => s
  | S fuel' =>
      if SIMPLE_guard num s
      then SIMPLE_while cfg num fuel' (SIMPLE_pass cfg num s)
      else s
  end.

(** The loop as [main] runs it: each pass adds one to [iter], and the
    guard fails once [iter] reaches [SIMPLE_iter]. *)
Definition SIMPLE_loop (cfg : Config) (num : Numerics) (s : State) : State :=
  SIMPLE_while cfg num (SIMPLE_iter num - iter s) s.

(** **** 5. Temperature loop *)

Definition temperature_cell (cfg : Config) (u T : list R)
           (sys : system) (ix : nat) : system :=
  let '(aT, bT, cT, dT) := sys in
  let alpha_node :=
    value (k_Na_l (get T ix))
    / (value (rho_Na_l (get T ix)) * value (Cp_Na_l (get T ix))) in
  let aT := upd aT ix (- alpha_node / (dx cfg * dx cfg) - get u ix / dx cfg) in
  let cT := upd cT ix (- alpha_node / (dx cfg * dx cfg)) in
  let bT := upd bT ix
    (1 / dt cfg + get u ix / dx cfg + 2 * alpha_node / (dx cfg * dx cfg)) in
  let dT := upd dT ix (get T ix / dt cfg) in
  (aT, bT, cT, dT).

(** Fixed temperature on the left and on the right. *)
Definition temperature_bc (cfg : Config) (num : Numerics) (sys : system)
  : system :=
  let '(aT, bT, cT, dT) := sys in
  let bT := upd bT 0 1 in
  let cT := upd cT 0 0 in
  let dT := upd dT 0 (T_inlet num) in
  let aT := upd aT (Nx cfg - 1) 0 in
  let bT := upd bT (Nx cfg - 1) 1 in
  let dT := upd dT (Nx cfg - 1) (T_outlet num) in
  (aT, bT, cT, dT).

Definition temperature_system (cfg : Config) (num : Numerics)
           (u T : list R) : system :=
  let z := vec (Nx cfg) 0 in
  temperature_bc cfg num
    (fold_left (temperature_cell cfg u T) (range 1 (Nx cfg - 1))
               (z, z, z, z)).

(** [T = solveTridiagonal(aT, bT, cT, dT)] *)
Definition temperature_loop (cfg : Config) (num : Numerics) (s : State)
  : State :=
  let '(aT, bT, cT, dT) := temperature_system cfg num (u s) (T s) in
  {| u := u s; p := p s; T := solveTridiagonal aT bT cT dT;
     p_prime := p_prime s; iter := iter s; maxErr := maxErr s;
     fout := fout s |}.

(** **** Output *)

(** [for (int ix = 0; ix < Nx; ix++) fout << p[ix] << ", ";] *)
Definition profile (cfg : Config) (v : list R) : list token :=
  flat_map (fun ix => [Num (get v ix); Comma]) (range 0 (Nx cfg)).

(** [it == (t_iter - 1)] *)
Definition last_step (num : Numerics) (it : nat) : bool :=
  (Z.of_nat it =? Z.of_nat (t_iter num) - 1)%Z.

(** The pressure profile and a line end, at the last timestep only. *)
Definition output (cfg : Config) (num : Numerics) (it : nat) (s : State)
  : State :=
  if last_step num it
  then {| u := u s; p := p s; T := T s; p_prime := p_prime s;
          iter := iter s; maxErr := maxErr s;
          fout := fout s ++ profile cfg (p s) ++ [Newline] |}
  else s.

(** **** The time loop *)

(** [int iter = 0; double maxErr = 1.0;] *)
Definition begin_timestep (s : State) : State :=
  {| u := u s; p := p s; T := T s; p_prime := p_prime s;
     iter := 0; maxErr := 1.0; fout := fout s |}.

(** Body of [for (double it = 0; it < t_iter; it++)].  The progress line
    goes to the standard output, which is not part of [State]. *)
Definition timestep (cfg : Config) (num : Numerics) (s : State) (it : nat)
  : State :=
  output cfg num it
    (temperature_loop cfg num (SIMPLE_loop cfg num (begin_timestep s))).

Definition time_loop (cfg : Config) (num : Numerics) (s : State) : State :=
  fold_left (timestep cfg num) (range 0 (t_iter num)) s.

(** **** Initial values *)

(** The vectors as [main] declares them and the boundary values written
    into them before the time loop. *)
Definition initial_state (cfg : Config) (num : Numerics) : State :=
  let n := Nx cfg in
  let u := vec n 0.0 in
  let p := vec n 0.0 in
  let T := vec n 300.0 in
  let u := upd u 0 (u_inlet cfg) in
  let u := upd u (n - 1) (get u (n - 2)) in
  let p := upd p (n - 1) (p_outlet num) in
  let p := upd p 0 (get p 1) in
  let T := upd T 0 (T_inlet num) in
  let T := upd T (n - 1) (T_outlet num) in
  {| u := u; p := p; T := T; p_prime := vec n 0.0;
     iter := 0; maxErr := 1.0; fout := [] |}.

(** The constants as [main] declares them. *)
Definition main_config : Config :=
  {| Nx := 500;
     dx := 0.01 / (500 - 1);
     dt := 0.0001;
     K := 1e-6;
     CF := 0.0;
     u_inlet := 0.01 |}.

Definition main_numerics : Numerics :=
  {| t_iter := 5000;
     SIMPLE_iter := 1000;
     tol := 1e-8;
     p_outlet := 0.0;
     T_inlet := 1000.0;
     T_outlet := 500.0;
     rhiechow_coeff := 1.0;
     p_relax := 0.5;
     v_relax := 1.0 |}.

Definition main : State :=
  time_loop main_config main_numerics
            (initial_state main_config main_numerics).

End SIMPLEC.
(** ** The momentum predictor of the SIMPLEC program in binary64

    The same statements of the source once more, with the operations of
    IEEE 754 binary64 in the order in which the expressions of the source
    apply them, each operation rounded on its own (no fused multiply-add);
    a decimal constant is the double nearest to it.  This is the
    arithmetic the program runs in; it is used to show where the
    statements about exact arithmetic stop. *)

Module SIMPLEC_binary64.

Import PrimFloat.

Definition get (l : list float) (i : nat) : float := nth i l 0%float.

Fixpoint upd (l : list float) (i : nat) (v : float) : list float :=
  match l, i with
  | [], _ => []
  | _ :: t, O => v :: t
  | h :: t, S j => h :: upd t j v
  end.

Definition vec (n : nat) (x : float) : list float := repeat x n.

(** *** [solveTridiagonal] *)

Definition forward_step (a b c d : list float)
           (st : list float * list float) (i : nat)
  : list float * list float :=
  let '(c_star, d_star) := st in
  let m := (get b i - get a i * get c_star (i - 1))%float in
  (upd c_star i (get c i / m)%float,
   upd d_star i ((get d i - get a i * get d_star (i - 1)) / m)%float).

Definition forward_sweep (a b c d : list float)
  : list float * list float :=
  let n := length b in
  let c_star := upd (vec n 0%float) 0 (get c 0 / get b 0)%float in
  let d_star := upd (vec n 0%float) 0 (get d 0 / get b 0)%float in
  fold_left (forward_step a b c d) (range 1 n) (c_star, d_star).

Definition backward_step (c_star d_star : list float) (x : list float)
           (i : nat) : list float :=
  upd x i (get d_star i - get c_star i * get x (i + 1))%float.

Definition back_substitution (n : nat) (c_star d_star : list float)
  : list float :=
  let x := upd (vec n 0%float) (n - 1) (get d_star (n - 1)) in
  fold_left (backward_step c_star d_star) (down_from (n - 1)) x.

Definition solveTridiagonal (a b c d : list float) : list float :=
  let n := length b in
  let '(c_star, d_star) := forward_sweep a b c d in
  back_substitution n c_star d_star.

(** *** Step 1 of the SIMPLE loop *)

Record Config : Type := {
  Nx : nat;
  dx : float;
  dt : float;
  K : float;
  CF : float;
  u_inlet : float
}.

Definition system : Type :=
  (list float * list float * list float * list float)%type.

Section Correlations.

(** [rho_Na_l] and [mu_Na] call [pow], [exp] and [log] of the C library,
    whose last bit binary64 does not fix; the two functions are parameters
    of the model. *)
Variables rho_Na_l mu_Na : float -> float.

(** Body of the loop [for (int ix = 1; ix < Nx - 1; ix++)]; [abs(u[ix])]
    is read as the absolute value of the double. *)
Definition momentum_cell (cfg : Config) (u p T : list float)
           (sys : system) (ix : nat) : system :=
  let '(a, b, c, d) := sys in
  let rho_node := rho_Na_l (get T ix) in
  let mu_node := mu_Na (get T ix) in
  let a := upd a ix (- mu_node / (dx cfg * dx cfg))%float in
  let c := upd c ix (- mu_node / (dx cfg * dx cfg))%float in
  let b := upd b ix
    (rho_node / dt cfg + 2 * mu_node / (dx cfg * dx cfg)
     + rho_node * (get u ix - get u (ix - 1)) / dx cfg
     + mu_node / K cfg
     + CF cfg * rho_node / sqrt (K cfg) * abs (get u ix))%float in
  let d := upd d ix
    (rho_node * get u ix / dt cfg
     - (get p (ix + 1) - get p (ix - 1)) / (2 * dx cfg))%float in
  (a, b, c, d).

Definition momentum_bc (cfg : Config) (sys : system) : system :=
  let '(a, b, c, d) := sys in
  let b := upd b 0 1%float in
  let c := upd c 0 0%float in
  let d := upd d 0 (u_inlet cfg) in
  let a := upd a (Nx cfg - 1) (-1)%float in
  let b := upd b (Nx cfg - 1) 1%float in
  let d := upd d (Nx cfg - 1) 0%float in
  (a, b, c, d).

Definition momentum_system (cfg : Config) (u p T : list float) : system :=
  let z := vec (Nx cfg) 0%float in
  momentum_bc cfg
    (fold_left (momentum_cell cfg u p T) (range 1 (Nx cfg - 1)) (z, z, z, z)).

(** [u = solveTridiagonal(a, b, c, d)] *)
Definition momentum_predictor (cfg : Config) (u p T : list float)
  : list float :=
  let '(a, b, c, d) := momentum_system cfg u p T in
  solveTridiagonal a b c d.

End Correlations.

(** *** The values before the first pass *)

(** The vectors as [main] declares them and the boundary values written
    into them, with [p_outlet = 0.0], [T_inlet = 1000.0] and
    [T_outlet = 500.0]. *)
Definition initial_u (cfg : Config) : list float :=
  let u := vec (Nx cfg) 0%float in
  let u := upd u 0 (u_inlet cfg) in
  upd u (Nx cfg - 1) (get u (Nx cfg - 2)).

Definition initial_p (cfg : Config) : list float :=
  let p := vec (Nx cfg) 0%float in
  let p := upd p (Nx cfg - 1) 0%float in
  upd p 0 (get p 1).

Definition initial_T (cfg : Config) : list float :=
  let T := vec (Nx cfg) 300%float in
  let T := upd T 0 1000%float in
  upd T (Nx cfg - 1) 500%float.

(** The constants of [main] on a grid of four nodes:
    [dx = L / (Nx - 1)] with [L = 0.01]. *)
Definition four_node_config : Config :=
  {| Nx := 4;
     dx := (0.01 / 3)%float;
     dt := 0.0001%float;
     K := 1e-6%float;
     CF := 0%float;
     u_inlet := 0.01%float |}.

(** What [rho_Na_l(300.0)] and [mu_Na(300.0)] return with the GNU C
    library. *)
Definition rho_Na_l_300 : float := 0x1.d6b78f33cac0ep+9%float.
Definition mu_Na_300 : float := 0x1.17f30aca76f3cp-10%float.

(** The doubles up to [k] units in the last place away from [x]. *)
Fixpoint steps_up (k : nat) (x : float) : float :=
  match k with
  | O => x
  | S k' => next_up (steps_up k' x)
  end.

Fixpoint steps_down (k : nat) (x : float) : float :=
  match k with
  | O => x
  | S k' => next_down (steps_down k' x)
  end.

Definition neighbours (k : nat) (x : float) : list float :=
  map (fun j => steps_down j x) (seq 1 k) ++ x
  :: map (fun j => steps_up j x) (seq 1 k).

(** The first momentum solve of the four-node grid, for given values of
    the two correlations at 300 K, the temperature of its two interior
    nodes. *)
Definition first_solve (rho mu : float) : list float :=
  momentum_predictor (fun _ => rho) (fun _ => mu) four_node_config
                     (initial_u four_node_config)
                     (initial_p four_node_config)
                     (initial_T four_node_config).

End SIMPLEC_binary64.

(** ** The PISO program (second program of PISO.cpp) *)

Module PISO.

(** *** Thermophysical properties of liquid sodium *)

Module liquid_sodium.

Definition Tcrit : R := 2509.46.

(** Solidification temperature, gives warning if below. *)
Definition Tsolid : R := 370.87.

Definition rho (T : R) : reading :=
  (219.0 + 275.32 * (1.0 - T / Tcrit) + 511.58 * sqrt (1.0 - T / Tcrit),
   if Rlt_dec T Tsolid then [BelowSolidification T] else []).

Definition k (T : R) : reading :=
  (124.67 - 0.11381 * T + 5.5226e-5 * T * T - 1.1842e-8 * T * T * T,
   if Rlt_dec T Tsolid then [BelowSolidification T] else []).

Definition cp (T : R) : reading :=
  let dXT := T - 273.15 in
  (1436.72 - 0.58 * dXT + 4.627e-4 * dXT * dXT,
   if Rlt_dec T Tsolid then [BelowSolidification T] else []).

Definition mu (T : R) : reading :=
  (exp (-6.4406 - 0.3958 * ln T + 556.835 / T),
   if Rlt_dec T Tsolid then [BelowSolidification T] else []).

End liquid_sodium.

(** *** Constants and variables of [main] *)

(** The constants of [main].  The three source vectors are filled once,
    before the time loop, and only read afterwards. *)
Record Config : Type := {
  N : nat;
  dz : R;
  dt : R;
  K : R;
  CF : R;
  t_iter : nat;
  tot_iter : nat;
  corr_iter : nat;
  tol : R;
  u_inlet : R;
  u_outlet : R;
  p_outlet : R;
  rhie_chow_on_off : R;
  Sm : list R;
  Su : list R;
  St : list R
}.

(** The stages of a timestep, as they are entered. *)
Inductive Event : Type :=
| AssembleMomentum
| SolveMomentum
| AssembleContinuity
| SolveContinuity
| UpdatePressure
| CorrectVelocity
| AssembleEnergy
| SolveEnergy.

(** What [fout << ...] sends to the output file: a number, the text
    [", "], or the text of two line feeds. *)
Inductive token : Type :=
| Num (x : R)
| Comma
| Blank.

(** The variables of [main] that change during the run.  [p_storage] has
    [N + 2] cells and [p_padded] points at its second cell.  [log] is not
    in the source: it records the stages entered, in order. *)
Record State : Type := {
  u : list R;
  p : list R;
  T : list R;
  p_storage : list R;
  T_old : list R;
  p_old : list R;
  p_prime : list R;
  aU : list R;
  bU : list R;
  cU : list R;
  dU : list R;
  iter : nat;
  maxErr : R;
  fout : list token;
  log : list Event
}.

Definition set_u (v : list R) (s : State) : State :=
  {| u := v; p := p s; T := T s; p_storage := p_storage s;
     T_old := T_old s; p_old := p_old s; p_prime := p_prime s;
     aU := aU s; bU := bU s; cU := cU s; dU := dU s;
     iter := iter s; maxErr := maxErr s; fout := fout s; log := log s |}.

Definition set_p (v : list R) (s : State) : State :=
  {| u := u s; p := v; T := T s; p_storage := p_storage s;
     T_old := T_old s; p_old := p_old s; p_prime := p_prime s;
     aU := aU s; bU := bU s; cU := cU s; dU := dU s;
     iter := iter s; maxErr := maxErr s; fout := fout s; log := log s |}.

Definition set_T (v : list R) (s : State) : State :=
  {| u := u s; p := p s; T := v; p_storage := p_storage s;
     T_old := T_old s; p_old := p_old s; p_prime := p_prime s;
     aU := aU s; bU := bU s; cU := cU s; dU := dU s;
     iter := iter s; maxErr := maxErr s; fout := fout s; log := log s |}.

Definition set_p_storage (v : list R) (s : State) : State :=
  {| u := u s; p := p s; T := T s; p_storage := v;
     T_old := T_old s; p_old := p_old s; p_prime := p_prime s;
     aU := aU s; bU := bU s; cU := cU s; dU := dU s;
     iter := iter s; maxErr := maxErr s; fout := fout s; log := log s |}.

Definition set_p_prime (v : list R) (s : State) : State :=
  {| u := u s; p := p s; T := T s; p_storage := p_storage s;
     T_old := T_old s; p_old := p_old s; p_prime := v;
     aU := aU s; bU := bU s; cU := cU s; dU := dU s;
     iter := iter s; maxErr := maxErr s; fout := fout s; log := log s |}.

Definition set_aU (v : list R) (s : State) : State :=
  {| u := u s; p := p s; T := T s; p_storage := p_storage s;
     T_old := T_old s; p_old := p_old s; p_prime := p_prime s;
     aU := v; bU := bU s; cU := cU s; dU := dU s;
     iter := iter s; maxErr := maxErr s; fout := fout s; log := log s |}.

Definition set_bU (v : list R) (s : State) : State :=
  {| u := u s; p := p s; T := T s; p_storage := p_storage s;
     T_old := T_old s; p_old := p_old s; p_prime := p_prime s;
     aU := aU s; bU := v; cU := cU s; dU := dU s;
     iter := iter s; maxErr := maxErr s; fout := fout s; log := log s |}.

Definition set_cU (v : list R) (s : State) : State :=
  {| u := u s; p := p s; T := T s; p_storage := p_storage s;
     T_old := T_old s; p_old := p_old s; p_prime := p_prime s;
     aU := aU s; bU := bU s; cU := v; dU := dU s;
     iter := iter s; maxErr := maxErr s; fout := fout s; log := log s |}.

Definition set_dU (v : list R) (s : State) : State :=
  {| u := u s; p := p s; T := T s; p_storage := p_storage s;
     T_old := T_old s; p_old := p_old s; p_prime := p_prime s;
     aU := aU s; bU := bU s; cU := cU s; dU := v;
     iter := iter s; maxErr := maxErr s; fout := fout s; log := log s |}.

Definition set_iter (v : nat) (s : State) : State :=
  {| u := u s; p := p s; T := T s; p_storage := p_storage s;
     T_old := T_old s; p_old := p_old s; p_prime := p_prime s;
     aU := aU s; bU := bU s; cU := cU s; dU := dU s;
     iter := v; maxErr := maxErr s; fout := fout s; log := log s |}.

Definition set_maxErr (v : R) (s : State) : State :=
  {| u := u s; p := p s; T := T s; p_storage := p_storage s;
     T_old := T_old s; p_old := p_old s; p_prime := p_prime s;
     aU := aU s; bU := bU s; cU := cU s; dU := dU s;
     iter := iter s; maxErr := v; fout := fout s; log := log s |}.

Definition set_backup (t_old p_old' : list R) (s : State) : State :=
  {| u := u s; p := p s; T := T s; p_storage := p_storage s;
     T_old := t_old; p_old := p_old'; p_prime := p_prime s;
     aU := aU s; bU := bU s; cU := cU s; dU := dU s;
     iter := iter s; maxErr := maxErr s; fout := fout s; log := log s |}.

(** [fout << ...] *)
Definition write (ts : list token) (s : State) : State :=
  {| u := u s; p := p s; T := T s; p_storage := p_storage s;
     T_old := T_old s; p_old := p_old s; p_prime := p_prime s;
     aU := aU s; bU := bU s; cU := cU s; dU := dU s;
     iter := iter s; maxErr := maxErr s; fout := fout s ++ ts;
     log := log s |}.

Definition emit (e : Event) (s : State) : State :=
  {| u := u s; p := p s; T := T s; p_storage := p_storage s;
     T_old := T_old s; p_old := p_old s; p_prime := p_prime s;
     aU := aU s; bU := bU s; cU := cU s; dU := dU s;
     iter := iter s; maxErr := maxErr s; fout := fout s;
     log := log s ++ [e] |}.

(** [p_padded[j]] with [double* p_padded = &p_storage[1]]; [j] starts at
    [-1]. *)
Definition p_padded (s : State) (j : Z) : R :=
  get (p_storage s) (Z.to_nat (j + 1)).

(** *** Face velocities with the Rhie and Chow correction *)

Definition rho_at (s : State) (i : nat) : R :=
  value (liquid_sodium.rho (get (T s) i)).

Definition mu_at (s : State) (i : nat) : R :=
  value (liquid_sodium.mu (get (T s) i)).

Definition k_at (s : State) (i : nat) : R :=
  value (liquid_sodium.k (get (T s) i)).

Definition cp_at (s : State) (i : nat) : R :=
  value (liquid_sodium.cp (get (T s) i)).

Definition rhie_chow_l (cfg : Config) (s : State) (i : nat) : R :=
  let j := Z.of_nat i in
  - (1.0 / get (bU s) (i - 1) + 1.0 / get (bU s) i) / (8 * dz cfg)
  * (p_padded s (j - 2) - 3 * p_padded s (j - 1)
     + 3 * p_padded s j - p_padded s (j + 1)).

Definition rhie_chow_r (cfg : Config) (s : State) (i : nat) : R :=
  let j := Z.of_nat i in
  - (1.0 / get (bU s) (i + 1) + 1.0 / get (bU s) i) / (8 * dz cfg)
  * (p_padded s (j - 1) - 3 * p_padded s j
     + 3 * p_padded s (j + 1) - p_padded s (j + 2)).

Definition u_l_face (cfg : Config) (s : State) (i : nat) : R :=
  0.5 * (get (u s) (i - 1) + get (u s) i)
  + rhie_chow_on_off cfg * rhie_chow_l cfg s i.

Definition u_r_face (cfg : Config) (s : State) (i : nat) : R :=
  0.5 * (get (u s) i + get (u s) (i + 1))
  + rhie_chow_on_off cfg * rhie_chow_r cfg s i.

(** *** Momentum predictor *)

(** Diffusive conductances of the two faces of cell [i]. *)
Definition D_l (cfg : Config) (s : State) (i : nat) : R :=
  0.5 * (mu_at s i + mu_at s (i - 1)) / dz cfg.

Definition D_r (cfg : Config) (s : State) (i : nat) : R :=
  0.5 * (mu_at s i + mu_at s (i + 1)) / dz cfg.

(** Upwind mass fluxes of the two faces of cell [i]. *)
Definition F_l (cfg : Config) (s : State) (i : nat) : R :=
  let rho_l :=
    if Rge_dec (u_l_face cfg s i) 0 then rho_at s (i - 1) else rho_at s i in
  rho_l * u_l_face cfg s i.

Definition F_r (cfg : Config) (s : State) (i : nat) : R :=
  let rho_r :=
    if Rge_dec (u_r_face cfg s i) 0 then rho_at s i else rho_at s (i + 1) in
  rho_r * u_r_face cfg s i.

(** Body of the loop [for (int i = 1; i < N - 1; i++)] of the momentum
    predictor.  All reads come before the four writes; the loop runs in
    index order, so cell [i] sees [bU[i - 1]] already rewritten.
    [abs(u[i])] is read as the absolute value of the double. *)
Definition momentum_cell (cfg : Config) (s : State) (i : nat) : State :=
  let rho_P := rho_at s i in
  let mu_P := mu_at s i in
  let a_i := - Rmax (F_l cfg s i) 0.0 - D_l cfg s i in
  let c_i := Rmax (- F_r cfg s i) 0.0 - D_r cfg s i in
  let b_i :=
    (Rmax (F_r cfg s i) 0.0 - Rmax (- F_l cfg s i) 0.0)
    + rho_P * dz cfg / dt cfg + D_l cfg s i + D_r cfg s i
    + mu_P / K cfg * dz cfg
    + CF cfg * mu_P * dz cfg / sqrt (K cfg) * Rabs (get (u s) i) in
  let d_i :=
    -0.5 * (get (p s) (i + 1) - get (p s) (i - 1))
    + rho_P * get (u s) i * dz cfg / dt cfg + get (Su cfg) i * dz cfg in
  set_dU (upd (dU s) i d_i)
    (set_bU (upd (bU s) i b_i)
       (set_cU (upd (cU s) i c_i)
          (set_aU (upd (aU s) i a_i) s))).

(** Velocity boundary rows: Dirichlet at both ends. *)
Definition momentum_bc (cfg : Config) (s : State) : State :=
  let n := N cfg in
  let D_first := mu_at s 0 / dz cfg in
  let D_last := mu_at s (n - 1) / dz cfg in
  let first := rho_at s 0 * dz cfg / dt cfg + 2 * D_first in
  let last := rho_at s (n - 1) * dz cfg / dt cfg + 2 * D_last in
  let s := set_bU (upd (bU s) 0 first) s in
  let s := set_cU (upd (cU s) 0 0.0) s in
  let s := set_dU (upd (dU s) 0 (first * u_inlet cfg)) s in
  let s := set_aU (upd (aU s) (n - 1) 0.0) s in
  let s := set_bU (upd (bU s) (n - 1) last) s in
  set_dU (upd (dU s) (n - 1) (last * u_outlet cfg)) s.

Definition assemble_momentum (cfg : Config) (s : State) : State :=
  momentum_bc cfg
    (fold_left (momentum_cell cfg) (range 1 (N cfg - 1))
       (emit AssembleMomentum s)).

(** [u = solveTridiagonal(aU, bU, cU, dU)] *)
Definition solve_momentum (s : State) : State :=
  let s := emit SolveMomentum s in
  set_u (solveTridiagonal (aU s) (bU s) (cU s) (dU s)) s.

Definition momentum_predictor (cfg : Config) (s : State) : State :=
  solve_momentum (assemble_momentum cfg s).

(** *** Continuity satisfactor (pressure-correction equation) *)

Definition system : Type := (list R * list R * list R * list R)%type.

Definition continuity_cell (cfg : Config) (s : State)
           (sys : system) (i : nat) : system :=
  let '(aP, bP, cP, dP) := sys in
  let rho_P := rho_at s i in
  let rho_L := rho_at s (i - 1) in
  let rho_R := rho_at s (i + 1) in
  let rho_l := 0.5 * (rho_L + rho_P) in
  let d_l_face := 0.5 * (1.0 / get (bU s) (i - 1) + 1.0 / get (bU s) i) in
  let E_l := rho_l * d_l_face / dz cfg in
  let rho_r := 0.5 * (rho_P + rho_R) in
  let d_r_face := 0.5 * (1.0 / get (bU s) i + 1.0 / get (bU s) (i + 1)) in
  let E_r := rho_r * d_r_face / dz cfg in
  let u_l_star := u_l_face cfg s i in
  let mdot_l_star :=
    if Rgt_dec u_l_star 0.0 then rho_L * u_l_star else rho_P * u_l_star in
  let u_r_star := u_r_face cfg s i in
  let mdot_r_star :=
    if Rgt_dec u_r_star 0.0 then rho_P * u_r_star else rho_R * u_r_star in
  let mass_imbalance := mdot_r_star - mdot_l_star in
  let aP := upd aP i (- E_l) in
  let cP := upd cP i (- E_r) in
  let bP := upd bP i (E_l + E_r) in
  let dP := upd dP i (get (Sm cfg) i * dz cfg - mass_imbalance) in
  (aP, bP, cP, dP).

(** Boundary rows for [p']: zero gradient at the inlet, zero correction
    at the outlet. *)
Definition continuity_bc (cfg : Config) (sys : system) : system :=
  let '(aP, bP, cP, dP) := sys in
  let n := N cfg in
  let bP := upd bP 0 1.0 in
  let cP := upd cP 0 (-1.0) in
  let dP := upd dP 0 0.0 in
  let bP := upd bP (n - 1) 1.0 in
  let aP := upd aP (n - 1) 0.0 in
  let dP := upd dP (n - 1) 0.0 in
  (aP, bP, cP, dP).

Definition continuity_system (cfg : Config) (s : State) : system :=
  let z := vec (N cfg) 0.0 in
  continuity_bc cfg
    (fold_left (continuity_cell cfg s) (range 1 (N cfg - 1)) (z, z, z, z)).

Definition continuity_satisfactor (cfg : Config) (s : State) : State :=
  let s := emit AssembleContinuity s in
  let '(aP, bP, cP, dP) := continuity_system cfg s in
  let s := emit SolveContinuity s in
  set_p_prime (solveTridiagonal aP bP cP dP) s.

(** *** Pressure corrector *)

(** Body of [for (int i = 0; i < N; i++)]. *)
Definition pressure_cell (s : State) (i : nat) : State :=
  let s := set_p (upd (p s) i (get (p s) i + get (p_prime s) i)) s in
  set_p_storage (upd (p_storage s) (i + 1) (get (p s) i)) s.

Definition pressure_corrector (cfg : Config) (s : State) : State :=
  let s := emit UpdatePressure s in
  let s := fold_left pressure_cell (range 0 (N cfg)) s in
  let s := set_p_storage (upd (p_storage s) 0 (get (p_storage s) 1)) s in
  set_p_storage (upd (p_storage s) (N cfg + 1) (p_outlet cfg)) s.

(** *** Velocity corrector *)

(** Body of [for (int i = 1; i < N - 1; i++)]. *)
Definition velocity_cell (cfg : Config) (s : State) (i : nat) : State :=
  let u_prev := get (u s) i in
  let s :=
    set_u (upd (u s) i
             (get (u s) i
              - (get (p_prime s) (i + 1) - get (p_prime s) (i - 1))
                / (2.0 * dz cfg * get (bU s) i))) s in
  set_maxErr (Rmax (maxErr s) (Rabs (get (u s) i - u_prev))) s.

Definition velocity_corrector (cfg : Config) (s : State) : State :=
  let s := emit CorrectVelocity s in
  let s := set_maxErr 0.0 s in
  fold_left (velocity_cell cfg) (range 1 (N cfg - 1)) s.

(** *** The PISO iterations *)

(** Body of [for (int piso = 0; piso < corr_iter; piso++)]. *)
Definition corrector_round (cfg : Config) (s : State) : State :=
  velocity_corrector cfg
    (pressure_corrector cfg (continuity_satisfactor cfg s)).

(** Body of the [while] loop. *)
Definition piso_body (cfg : Config) (s : State) : State :=
  let s := momentum_predictor cfg s in
  let s := Nat.iter (corr_iter cfg) (corrector_round cfg) s in
  set_iter (S (iter s)) s.

(** [iter < tot_iter && maxErr > tol] *)
Definition piso_guard (cfg : Config) (s : State) : bool :=
  (iter s <? tot_iter cfg)%nat
  && (if Rgt_dec (maxErr s) (tol cfg) then true else false).

(** The [while] loop, with a bound on the passes still allowed. *)
Fixpoint piso_while (cfg : Config) (fuel : nat) (s : State) : State :=
  match fuel with
  | O => s
  | S fuel' =>
      if piso_guard cfg s then piso_while cfg fuel' (piso_body cfg s)
      else s
  end.

(** The loop as [main] runs it.  Each pass adds one to [iter] and the
    guard fails once [iter] reaches [tot_iter], so [tot_iter - iter]
    passes are all the loop can make. *)
Definition piso_loop (cfg : Config) (s : State) : State :=
  piso_while cfg (tot_iter cfg - iter s) s.

(** *** Temperature calculator *)

Definition temperature_cell (cfg : Config) (s : State)
           (sys : system) (i : nat) : system :=
  let '(aXT, bXT, cXT, dXT) := sys in
  let rho_P := rho_at s i in
  let rho_L := rho_at s (i - 1) in
  let rho_R := rho_at s (i + 1) in
  let k_cond_P := k_at s i in
  let k_cond_L := k_at s (i - 1) in
  let k_cond_R := k_at s (i + 1) in
  let cp_P := cp_at s i in
  let cp_L := cp_at s (i - 1) in
  let cp_R := cp_at s (i + 1) in
  let rhoCp_dzdt := rho_P * cp_P * dz cfg / dt cfg in
  let D_l := 0.5 * (k_cond_P + k_cond_L) / dz cfg in
  let D_r := 0.5 * (k_cond_P + k_cond_R) / dz cfg in
  let u_l_face := u_l_face cfg s i in
  let u_r_face := u_r_face cfg s i in
  let rho_l := if Rge_dec u_l_face 0 then rho_L else rho_P in
  let rho_r := if Rge_dec u_r_face 0 then rho_P else rho_R in
  let cp_l := if Rge_dec u_l_face 0 then cp_L else cp_P in
  let cp_r := if Rge_dec u_r_face 0 then cp_P else cp_R in
  let Fl := rho_l * u_l_face in
  let Fr := rho_r * u_r_face in
  let C_l := Fl * cp_l in
  let C_r := Fr * cp_r in
  let aXT := upd aXT i (- D_l - Rmax C_l 0.0) in
  let cXT := upd cXT i (- D_r + Rmax (- C_r) 0.0) in
  let bXT :=
    upd bXT i ((Rmax C_r 0.0 - Rmax (- C_l) 0.0) + D_l + D_r + rhoCp_dzdt) in
  let dXT :=
    upd dXT i (rhoCp_dzdt * get (T_old s) i + get (St cfg) i * dz cfg) in
  (aXT, bXT, cXT, dXT).

(** Temperature boundary rows. *)
Definition temperature_bc (cfg : Config) (sys : system) : system :=
  let '(aXT, bXT, cXT, dXT) := sys in
  let n := N cfg in
  let bXT := upd bXT 0 1.0 in
  let cXT := upd cXT 0 (-1.0) in
  let dXT := upd dXT 0 0.0 in
  let aXT := upd aXT (n - 1) (-1.0) in
  let bXT := upd bXT (n - 1) 1.0 in
  let dXT := upd dXT (n - 1) 0.0 in
  (aXT, bXT, cXT, dXT).

Definition temperature_system (cfg : Config) (s : State) : system :=
  let z := vec (N cfg) 0.0 in
  temperature_bc cfg
    (fold_left (temperature_cell cfg s) (range 1 (N cfg - 1)) (z, z, z, z)).

Definition temperature_calculator (cfg : Config) (s : State) : State :=
  let s := emit AssembleEnergy s in
  let '(aXT, bXT, cXT, dXT) := temperature_system cfg s in
  let s := emit SolveEnergy s in
  set_T (solveTridiagonal aXT bXT cXT dXT) s.

(** *** Output *)

(** [for (int i = 0; i < N; i++) fout << v[i] << ", ";] *)
Definition profile (cfg : Config) (v : list R) : list token :=
  flat_map (fun i => [Num (get v i); Comma]) (range 0 (N cfg)).

(** [it == (t_iter - 1)] *)
Definition last_step (cfg : Config) (it : nat) : bool :=
  (Z.of_nat it =? Z.of_nat (t_iter cfg) - 1)%Z.

(** The output region of the time loop, statement by statement. *)
Definition output (cfg : Config) (it : nat) (s : State) : State :=
  let s := if last_step cfg it then write (profile cfg (u s)) s else s in
  let s := write [Blank] s in
  let s := if last_step cfg it then write (profile cfg (p s)) s else s in
  let s := write [Blank] s in
  if last_step cfg it then write (profile cfg (T s)) s else s.

(** *** The time loop *)

(** Backup of the variables, then [int iter = 0; double maxErr = 1.0]. *)
Definition begin_timestep (s : State) : State :=
  set_maxErr 1.0 (set_iter 0 (set_backup (T s) (p s) s)).

(** Body of [for (double it = 0; it < t_iter; it++)].  The progress line
    goes to the standard output, which is not part of [State]. *)
Definition timestep (cfg : Config) (s : State) (it : nat) : State :=
  output cfg it
    (temperature_calculator cfg (piso_loop cfg (begin_timestep s))).

Definition time_loop (cfg : Config) (s : State) : State :=
  fold_left (timestep cfg) (range 0 (t_iter cfg)) s.

(** *** Initial values *)

Definition mass_source_zone : Q := 0.2.
Definition mass_sink_zone : Q := 0.2.

(** [std::floor(N * mass_source_zone)].  The double nearest to [0.2] lies
    above [1/5] by less than [2e-17], and for the node counts used the
    rounded product has the same integer part as the exact one. *)
Definition mass_source_nodes (n : nat) : Z :=
  Qfloor (inject_Z (Z.of_nat n) * mass_source_zone).

Definition mass_sink_nodes (n : nat) : Z :=
  Qfloor (inject_Z (Z.of_nat n) * mass_sink_zone).

(** Body of the loop that fills [Sm]. *)
Definition Sm_cell (n : nat) (Sm : list R) (i : nat) : list R :=
  if ((0 <? i)%nat && (Z.of_nat i <=? mass_source_nodes n)%Z)%bool
  then upd Sm i 1.0
  else if ((Z.of_nat n - mass_sink_nodes n <=? Z.of_nat i)%Z
           && (i <? n - 1)%nat)%bool
       then upd Sm i (-1.0)
       else Sm.

(** [std::vector<double> Sm(N, 0.0)] and the loop
    [for (int i = 1; i < N - 1; ++i)]. *)
Definition init_Sm (n : nat) : list R :=
  fold_left (Sm_cell n) (range 1 (n - 1)) (vec n 0.0).

Definition energy_source_zone : Q := 0.2.
Definition energy_sink_zone : Q := 0.2.

Definition energy_source_nodes (n : nat) : Z :=
  Qfloor (inject_Z (Z.of_nat n) * energy_source_zone).

Definition energy_sink_nodes (n : nat) : Z :=
  Qfloor (inject_Z (Z.of_nat n) * energy_sink_zone).

Definition St_cell (n : nat) (St : list R) (i : nat) : list R :=
  if ((0 <? i)%nat && (Z.of_nat i <=? energy_source_nodes n)%Z)%bool
  then upd St i 1000000.0
  else if ((Z.of_nat n - energy_sink_nodes n <=? Z.of_nat i)%Z
           && (i <? n - 1)%nat)%bool
       then upd St i (-1000000.0)
       else St.

Definition init_St (n : nat) : list R :=
  fold_left (St_cell n) (range 1 (n - 1)) (vec n 0.0).

(** The constants as [main] declares them; [t_iter] is
    [round(t_max / dt)] with [t_max = 1000.0]. *)
Definition main_config : Config :=
  {| N := 1000;
     dz := 1.0 / (1000 - 1);
     dt := 0.1;
     K := 1e-6;
     CF := 0.0;
     t_iter := 10000;
     tot_iter := 200;
     corr_iter := 2;
     tol := 1e-8;
     u_inlet := 0.0;
     u_outlet := 0.0;
     p_outlet := 50000.0;
     rhie_chow_on_off := 1;
     Sm := init_Sm 1000;
     Su := vec 1000 0.0;
     St := init_St 1000 |}.

Definition T_init : R := 600.

(** The variables as [main] declares them. *)
Definition initial_state (cfg : Config) : State :=
  let n := N cfg in
  {| u := vec n 0.001;
     p := vec n 50000.0;
     T := vec n T_init;
     p_storage := vec (n + 2) 50000.0;
     T_old := vec n T_init;
     p_old := vec n 50000.0;
     p_prime := vec n 0.0;
     aU := vec n 0.0;
     bU := vec n (value (liquid_sodium.rho T_init) * dz cfg / dt cfg
                  + 2 * value (liquid_sodium.mu T_init) / dz cfg);
     cU := vec n 0.0;
     dU := vec n 0.0;
     iter := 0;
     maxErr := 1.0;
     fout := [];
     log := [] |}.

Definition main : State := time_loop main_config (initial_state main_config).

End PISO.

(** ** The earlier PISO program *)

(** The program with [N = 100].  Its variables are those of [PISO.State]
    less the two backups, and its loops are those of the program above; the
    parts that differ and that the properties below look at are given here:
    the property functions and the momentum coefficients. *)
Module PISO_early.

Module liquid_sodium.

Definition Tcrit : R := 2509.46.

Definition rho (T : R) : reading :=
  (219.0 + 275.32 * (1.0 - T / Tcrit) + 511.58 * sqrt (1.0 - T / Tcrit),
   []).

Definition k (T : R) : reading :=
  (124.67 - 0.11381 * T + 5.5226e-5 * T * T - 1.1842e-8 * T * T * T, []).

Definition cp (T : R) : reading :=
  let dT := T - 273.15 in
  (1436.72 - 0.58 * dT + 4.627e-4 * dT * dT, []).

Definition mu (T : R) : reading :=
  (exp (-6.4406 - 0.3958 * ln T + 556.835 / T), []).

End liquid_sodium.

Import PISO.

Definition rho_at (s : State) (i : nat) : R :=
  value (liquid_sodium.rho (get (T s) i)).

Definition mu_at (s : State) (i : nat) : R :=
  value (liquid_sodium.mu (get (T s) i)).

Definition D_l (cfg : Config) (s : State) (i : nat) : R :=
  0.5 * (rho_at s i + rho_at s (i - 1)) / dz cfg.

Definition D_r (cfg : Config) (s : State) (i : nat) : R :=
  0.5 * (rho_at s i + rho_at s (i + 1)) / dz cfg.

Definition F_l (cfg : Config) (s : State) (i : nat) : R :=
  let rho_l :=
    if Rge_dec (u_l_face cfg s i) 0 then rho_at s (i - 1) else rho_at s i in
  rho_l * u_l_face cfg s i.

Definition F_r (cfg : Config) (s : State) (i : nat) : R :=
  let rho_r :=
    if Rge_dec (u_r_face cfg s i) 0 then rho_at s i else rho_at s (i + 1) in
  rho_r * u_r_face cfg s i.

(** Body of the loop of the momentum predictor. *)
Definition momentum_cell (cfg : Config) (s : State) (i : nat) : State :=
  let rho_P := rho_at s i in
  let mu_P := mu_at s i in
  let a_i := - Rmax (F_l cfg s i) 0.0 - D_l cfg s i in
  let c_i := Rmax (- F_r cfg s i) 0.0 - D_r cfg s i in
  let b_i :=
    (Rmax (F_r cfg s i) 0.0 - Rmax (- F_l cfg s i) 0.0)
    + rho_P * dz cfg / dt cfg + D_l cfg s i + D_r cfg s i
    + mu_P / K cfg * dz cfg
    + CF cfg * mu_P * dz cfg / sqrt (K cfg) * Rabs (get (u s) i) in
  let d_i :=
    -0.5 * (get (p s) (i + 1) - get (p s) (i - 1))
    + rho_P * get (u s) i * dz cfg / dt cfg + get (Su cfg) i * dz cfg in
  set_dU (upd (dU s) i d_i)
    (set_bU (upd (bU s) i b_i)
       (set_cU (upd (cU s) i c_i)
          (set_aU (upd (aU s) i a_i) s))).

(** Velocity boundary rows: Dirichlet at both ends. *)
Definition momentum_bc (cfg : Config) (s : State) : State :=
  let n := N cfg in
  let D_first := mu_at s 0 / dz cfg in
  let D_last := mu_at s (n - 1) / dz cfg in
  let first := rho_at s 0 * dz cfg / dt cfg + 2 * D_first in
  let last := rho_at s (n - 1) * dz cfg / dt cfg + 2 * D_last in
  let s := set_bU (upd (bU s) 0 first) s in
  let s := set_cU (upd (cU s) 0 0.0) s in
  let s := set_dU (upd (dU s) 0 (first * u_inlet cfg)) s in
  let s := set_aU (upd (aU s) (n - 1) 0.0) s in
  let s := set_bU (upd (bU s) (n - 1) last) s in
  set_dU (upd (dU s) (n - 1) (last * u_outlet cfg)) s.

Definition assemble_momentum (cfg : Config) (s : State) : State :=
  momentum_bc cfg
    (fold_left (momentum_cell cfg) (range 1 (N cfg - 1))
       (emit AssembleMomentum s)).

Definition solve_momentum (s : State) : State :=
  let s := emit SolveMomentum s in
  set_u (solveTridiagonal (aU s) (bU s) (cU s) (dU s)) s.

Definition momentum_predictor (cfg : Config) (s : State) : State :=
  solve_momentum (assemble_momentum cfg s).

Definition St_cell (n : nat) (St : list R) (i : nat) : list R :=
  if ((0 <? i)%nat && (Z.of_nat i <=? energy_source_nodes n)%Z)%bool
  then upd St i 1.0
  else if ((Z.of_nat n - energy_sink_nodes n <=? Z.of_nat i)%Z
           && (i <? n - 1)%nat)%bool
       then upd St i (-1.0)
       else St.

Definition init_St (n : nat) : list R :=
  fold_left (St_cell n) (range 1 (n - 1)) (vec n 0.0).

(** The constants as this program declares them; [t_iter] is
    [round(t_max / dt)] with [t_max = 1.0]. *)
Definition main_config : Config :=
  {| N := 100;
     dz := 1.0 / (100 - 1);
     dt := 0.001;
     K := 1e-6;
     CF := 0.0;
     t_iter := 1000;
     tot_iter := 200;
     corr_iter := 2;
     tol := 1e-8;
     u_inlet := 0.0;
     u_outlet := 0.0;
     p_outlet := 50000.0;
     rhie_chow_on_off := 1;
     Sm := init_Sm 100;
     Su := vec 100 0.0;
     St := init_St 100 |}.

Definition T_init : R := 200.

(** The variables as this program declares them; it has no backups, and
    the two backup fields are given the initial fields. *)
Definition initial_state (cfg : Config) : State :=
  let n := N cfg in
  {| u := vec n 0.001;
     p := vec n 50000.0;
     T := vec n T_init;
     p_storage := vec (n + 2) 50000.0;
     T_old := vec n T_init;
     p_old := vec n 50000.0;
     p_prime := vec n 0.0;
     aU := vec n 0.0;
     bU := vec n (value (liquid_sodium.rho T_init) * dz cfg / dt cfg
                  + 2 * value (liquid_sodium.mu T_init) / dz cfg);
     cU := vec n 0.0;
     dU := vec n 0.0;
     iter := 0;
     maxErr := 1.0;
     fout := [];
     log := [] |}.

(** *** The other stages of the earlier program *)

Definition k_at (s : State) (i : nat) : R :=
  value (liquid_sodium.k (get (T s) i)).

Definition cp_at (s : State) (i : nat) : R :=
  value (liquid_sodium.cp (get (T s) i)).

Definition T_inlet : R := 300.0.
Definition T_outlet : R := 100.0.

(** **** Pressure corrector: the system for [p'] *)

(** Body of the loop of the region [pressure_corrector].  The source also
    computes [dudz] there and does not read it. *)
Definition pressure_corrector_cell (cfg : Config) (s : State)
           (sys : system) (i : nat) : system :=
  let '(aP, bP, cP, dP) := sys in
  let rho_i := rho_at s i in
  let rho_w := 0.5 * (rho_at s (i - 1) + rho_i) in
  let d_w_face := 0.5 * (1.0 / get (bU s) (i - 1) + 1.0 / get (bU s) i) in
  let E_w := rho_w * d_w_face / (dz cfg * dz cfg) in
  let rho_e := 0.5 * (rho_i + rho_at s (i + 1)) in
  let d_e_face := 0.5 * (1.0 / get (bU s) i + 1.0 / get (bU s) (i + 1)) in
  let E_e := rho_e * d_e_face / (dz cfg * dz cfg) in
  let u_w_star := u_l_face cfg s i in
  let mdot_w_star :=
    if Rgt_dec u_w_star 0.0 then rho_at s (i - 1) * u_w_star
    else rho_i * u_w_star in
  let u_e_star := u_r_face cfg s i in
  let mdot_e_star :=
    if Rgt_dec u_e_star 0.0 then rho_i * u_e_star
    else rho_at s (i + 1) * u_e_star in
  let mass_imbalance := (mdot_e_star - mdot_w_star) / dz cfg in
  let aP := upd aP i (- E_w) in
  let cP := upd cP i (- E_e) in
  let bP := upd bP i (E_w + E_e) in
  let dP := upd dP i (get (Sm cfg) i - mass_imbalance) in
  (aP, bP, cP, dP).

(** Zero correction on the right side, zero gradient on the left side. *)
Definition pressure_corrector_bc (cfg : Config) (sys : system) : system :=
  let '(aP, bP, cP, dP) := sys in
  let n := N cfg in
  let aP := upd aP (n - 1) 0 in
  let bP := upd bP (n - 1) 1 in
  let dP := upd dP (n - 1) 0 in
  let cP := upd cP 0 (-1) in
  let bP := upd bP 0 1 in
  let dP := upd dP 0 0 in
  (aP, bP, cP, dP).

Definition pressure_corrector_system (cfg : Config) (s : State) : system :=
  let z := vec (N cfg) 0.0 in
  pressure_corrector_bc cfg
    (fold_left (pressure_corrector_cell cfg s) (range 1 (N cfg - 1))
               (z, z, z, z)).

Definition pressure_corrector (cfg : Config) (s : State) : State :=
  let s := emit AssembleContinuity s in
  let '(aP, bP, cP, dP) := pressure_corrector_system cfg s in
  let s := emit SolveContinuity s in
  set_p_prime (solveTridiagonal aP bP cP dP) s.

(** **** Temperature calculator *)

Definition temperature_cell (cfg : Config) (s : State)
           (sys : system) (i : nat) : system :=
  let '(aT, bT, cT, dT) := sys in
  let k := k_at s i in
  let cp := cp_at s i in
  let rho_i := rho_at s i in
  let rhoCp_dt := rho_i * cp / dt cfg in
  let D_w := k / (dz cfg * dz cfg) in
  let D_e := k / (dz cfg * dz cfg) in
  let Fw := F_l cfg s i in
  let Fe := F_r cfg s i in
  let C_w_dx := (Fw * cp) / dz cfg in
  let C_e_dx := (Fe * cp) / dz cfg in
  let A_w := D_w + Rmax C_w_dx 0.0 in
  let A_e := D_e + Rmax (- C_e_dx) 0.0 in
  let aT := upd aT i (- A_w) in
  let cT := upd cT i (- A_e) in
  let bT := upd bT i (A_w + A_e + rhoCp_dt) in
  let dT := upd dT i (rhoCp_dt * get (T s) i + get (St cfg) i) in
  (aT, bT, cT, dT).

(** Temperature boundary rows: fixed values at both ends. *)
Definition temperature_bc (cfg : Config) (sys : system) : system :=
  let '(aT, bT, cT, dT) := sys in
  let n := N cfg in
  let bT := upd bT 0 1.0 in
  let cT := upd cT 0 0.0 in
  let dT := upd dT 0 T_inlet in
  let aT := upd aT (n - 1) 0.0 in
  let bT := upd bT (n - 1) 1.0 in
  let dT := upd dT (n - 1) T_outlet in
  (aT, bT, cT, dT).

Definition temperature_system (cfg : Config) (s : State) : system :=
  let z := vec (N cfg) 0.0 in
  temperature_bc cfg
    (fold_left (temperature_cell cfg s) (range 1 (N cfg - 1)) (z, z, z, z)).

Definition temperature_calculator (cfg : Config) (s : State) : State :=
  let s := emit AssembleEnergy s in
  let '(aT, bT, cT, dT) := temperature_system cfg s in
  let s := emit SolveEnergy s in
  set_T (solveTridiagonal aT bT cT dT) s.

End PISO_early.
(** ** Notions used to state the properties *)

Definition Event_eq_dec (x y : PISO.Event) : {x = y} + {x <> y}.
Proof. decide equality. Defined.

(** How often stage [e] was entered in a log. *)
Definition entered (e : PISO.Event) (l : list PISO.Event) : nat :=
  count_occ Event_eq_dec l e.

(** The stages of one corrector round, and of one pass of the [while]
    loop with [k] corrector rounds. *)
Definition round_stages : list PISO.Event :=
  [PISO.AssembleContinuity; PISO.SolveContinuity;
   PISO.UpdatePressure; PISO.CorrectVelocity].

Definition pass_stages (k : nat) : list PISO.Event :=
  [PISO.AssembleMomentum; PISO.SolveMomentum]
  ++ concat (repeat round_stages k).

(** Sum of a vector. *)
Definition sum (l : list R) : R := fold_right Rplus 0 l.

(** Two states agree on row [j] of the momentum system. *)
Definition same_row (j : nat) (s s' : PISO.State) : Prop :=
  get (PISO.aU s') j = get (PISO.aU s) j /\
  get (PISO.bU s') j = get (PISO.bU s) j /\
  get (PISO.cU s') j = get (PISO.cU s) j /\
  get (PISO.dU s') j = get (PISO.dU s) j.

(** Two states have momentum vectors of the same lengths. *)
Definition same_size (s s' : PISO.State) : Prop :=
  length (PISO.aU s') = length (PISO.aU s) /\
  length (PISO.bU s') = length (PISO.bU s) /\
  length (PISO.cU s') = length (PISO.cU s) /\
  length (PISO.dU s') = length (PISO.dU s).

(** Two states agree on the fields and on the pressure buffer. *)
Definition same_fields (s s' : PISO.State) : Prop :=
  PISO.u s' = PISO.u s /\ PISO.p s' = PISO.p s /\ PISO.T s' = PISO.T s /\
  PISO.p_storage s' = PISO.p_storage s.

(** The momentum vectors all have [n] cells. *)
Definition momentum_sized (n : nat) (s : PISO.State) : Prop :=
  length (PISO.aU s) = n /\ length (PISO.bU s) = n /\
  length (PISO.cU s) = n /\ length (PISO.dU s) = n.

(** The four vectors of a system all have [n] cells. *)
Definition system_sized (n : nat) (sys : PISO.system) : Prop :=
  let '(a, b, c, d) := sys in
  length a = n /\ length b = n /\ length c = n /\ length d = n.

(** [solveTridiagonal] applied to the four vectors of a system. *)
Definition solution (sys : PISO.system) : list R :=
  let '(a, b, c, d) := sys in solveTridiagonal a b c d.

(** A property function printed the warning. *)
Definition warns (r : reading) : Prop := printed r <> [].

(** A three-cell grid with the other constants of [main]. *)
Definition small_config : PISO.Config :=
  {| PISO.N := 3;
     PISO.dz := 1.0 / (3 - 1);
     PISO.dt := 0.1;
     PISO.K := 1e-6;
     PISO.CF := 0.0;
     PISO.t_iter := 2;
     PISO.tot_iter := 200;
     PISO.corr_iter := 2;
     PISO.tol := 1e-8;
     PISO.u_inlet := 0.0;
     PISO.u_outlet := 0.0;
     PISO.p_outlet := 50000.0;
     PISO.rhie_chow_on_off := 1;
     PISO.Sm := PISO.init_Sm 3;
     PISO.Su := vec 3 0.0;
     PISO.St := PISO.init_St 3 |}.

(** The value the initialisation gives to [Sm[i]] on a grid of [n] cells
    with [f] source nodes: [+1] on [1 .. f], [-1] on [n - f .. n - 2], and
    [0] elsewhere. *)
Definition Sm_value (n f i : nat) : R :=
  if ((1 <=? i) && (i <=? f))%nat then 1
  else if ((n - f <=? i) && (i <=? n - 2))%nat then -1
  else 0.

(** Every row of the system is strictly diagonally dominant. *)
Definition diagonally_dominant (a b c : list R) : Prop :=
  forall i, (i < length b)%nat ->
    Rabs (get a i) + Rabs (get c i) < Rabs (get b i).

(** Row [j] of a system held in four vectors. *)
Definition system_row (sys : PISO.system) (j : nat) : R * R * R * R :=
  let '(a, b, c, d) := sys in (get a j, get b j, get c j, get d j).

(** Every vector of the state has the size the grid asks for. *)
Definition state_sized (cfg : PISO.Config) (s : PISO.State) : Prop :=
  length (PISO.u s) = PISO.N cfg /\
  length (PISO.p s) = PISO.N cfg /\
  length (PISO.T s) = PISO.N cfg /\
  length (PISO.p_storage s) = (PISO.N cfg + 2)%nat /\
  length (PISO.T_old s) = PISO.N cfg /\
  length (PISO.p_old s) = PISO.N cfg /\
  length (PISO.p_prime s) = PISO.N cfg /\
  momentum_sized (PISO.N cfg) s.

(** No pivot of a system held in four vectors is zero. *)
Definition system_pivots_nonzero (sys : PISO.system) : Prop :=
  let '(a, b, c, d) := sys in pivots_nonzero a b c d.

(** The four vectors of a system. *)
Definition sub_diagonal (sys : PISO.system) : list R :=
  let '(a, _, _, _) := sys in a.

Definition main_diagonal (sys : PISO.system) : list R :=
  let '(_, b, _, _) := sys in b.

Definition super_diagonal (sys : PISO.system) : list R :=
  let '(_, _, c, _) := sys in c.

Definition right_side (sys : PISO.system) : list R :=
  let '(_, _, _, d) := sys in d.

(** The three-cell grid with no corrector round in a pass. *)
Definition no_round_config : PISO.Config :=
  {| PISO.N := 3;
     PISO.dz := 1.0 / (3 - 1);
     PISO.dt := 0.1;
     PISO.K := 1e-6;
     PISO.CF := 0.0;
     PISO.t_iter := 2;
     PISO.tot_iter := 200;
     PISO.corr_iter := 0;
     PISO.tol := 1e-8;
     PISO.u_inlet := 0.0;
     PISO.u_outlet := 0.0;
     PISO.p_outlet := 50000.0;
     PISO.rhie_chow_on_off := 1;
     PISO.Sm := PISO.init_Sm 3;
     PISO.Su := vec 3 0.0;
     PISO.St := PISO.init_St 3 |}.

(** ** Notions used in the statements about the SIMPLEC program *)

(** Every vector of the state has one cell for each node. *)
Definition simplec_sized (cfg : SIMPLEC.Config) (s : SIMPLEC.State) : Prop :=
  length (SIMPLEC.u s) = SIMPLEC.Nx cfg /\
  length (SIMPLEC.p s) = SIMPLEC.Nx cfg /\
  length (SIMPLEC.T s) = SIMPLEC.Nx cfg.

(** The predicted velocity of a pass that starts in [s]. *)
Definition simplec_u_star (cfg : SIMPLEC.Config) (s : SIMPLEC.State)
  : list R :=
  SIMPLEC.momentum_predictor cfg (SIMPLEC.u s) (SIMPLEC.p s) (SIMPLEC.T s).

(** The pressure-correction system of a pass that starts in [s]. *)
Definition simplec_pressure_system (cfg : SIMPLEC.Config)
           (num : SIMPLEC.Numerics) (s : SIMPLEC.State) : SIMPLEC.system :=
  SIMPLEC.pressure_system cfg num
    (SIMPLEC.b_0_RC cfg (SIMPLEC.u s) (SIMPLEC.T s))
    (SIMPLEC.b_Nx_1_RC cfg (SIMPLEC.u s) (SIMPLEC.T s))
    (main_diagonal (SIMPLEC.momentum_system cfg (SIMPLEC.u s) (SIMPLEC.p s)
                                            (SIMPLEC.T s)))
    (simplec_u_star cfg s) (SIMPLEC.p s) (SIMPLEC.T s).

(** The diagonal the velocity correction divides by. *)
Definition simplec_b_SIMPLEC (cfg : SIMPLEC.Config) (s : SIMPLEC.State)
  : list R :=
  snd (SIMPLEC.momentum_vectors cfg (SIMPLEC.u s) (SIMPLEC.p s)
                                (SIMPLEC.T s)).

(** A small grid for the SIMPLEC program, with the constants of [main]
    otherwise. *)
Definition simplec_small_config : SIMPLEC.Config :=
  {| SIMPLEC.Nx := 4;
     SIMPLEC.dx := 0.01 / (4 - 1);
     SIMPLEC.dt := 0.0001;
     SIMPLEC.K := 1e-6;
     SIMPLEC.CF := 0.0;
     SIMPLEC.u_inlet := 0.01 |}.

Definition simplec_small_numerics : SIMPLEC.Numerics :=
  {| SIMPLEC.t_iter := 2;
     SIMPLEC.SIMPLE_iter := 1000;
     SIMPLEC.tol := 1e-8;
     SIMPLEC.p_outlet := 0.0;
     SIMPLEC.T_inlet := 1000.0;
     SIMPLEC.T_outlet := 500.0;
     SIMPLEC.rhiechow_coeff := 1.0;
     SIMPLEC.p_relax := 0.5;
     SIMPLEC.v_relax := 1.0 |}.

(** The boundary values the program is meant to keep: the outlet pressure,
    a zero pressure gradient at the inlet, a zero velocity gradient at the
    outlet. *)
Definition simplec_boundaries (cfg : SIMPLEC.Config)
           (num : SIMPLEC.Numerics) (s : SIMPLEC.State) : Prop :=
  get (SIMPLEC.p s) (SIMPLEC.Nx cfg - 1) = SIMPLEC.p_outlet num /\
  get (SIMPLEC.p s) 0 = get (SIMPLEC.p s) 1 /\
  get (SIMPLEC.u s) (SIMPLEC.Nx cfg - 1)
  = get (SIMPLEC.u s) (SIMPLEC.Nx cfg - 2).

(** The thermal diffusivity [alpha_node] of the temperature loop. *)
Definition simplec_alpha (T : list R) (ix : nat) : R :=
  value (SIMPLEC.k_Na_l (get T ix))
  / (value (SIMPLEC.rho_Na_l (get T ix))
     * value (SIMPLEC.Cp_Na_l (get T ix))).

(** The state in which the SIMPLE loop of a timestep ends. *)
Definition simplec_loop_end (cfg : SIMPLEC.Config) (num : SIMPLEC.Numerics)
           (s : SIMPLEC.State) : SIMPLEC.State :=
  SIMPLEC.SIMPLE_loop cfg num (SIMPLEC.begin_timestep s).

(** ** Notions used in the statements about the pressure correction *)

(** Every entry of the momentum diagonal is positive and no temperature is
    above the critical one, where the density correlation ends. *)
Definition positive_coefficients (cfg : PISO.Config) (s : PISO.State)
  : Prop :=
  forall i, (i < PISO.N cfg)%nat ->
    0 < get (PISO.bU s) i /\ get (PISO.T s) i <= 2509.46.

(** ** A three-cell grid with a flow through it *)

(** The three-cell grid with an inlet and an outlet velocity that are not
    zero. *)
Definition flow_config : PISO.Config :=
  {| PISO.N := 3;
     PISO.dz := 1.0 / (3 - 1);
     PISO.dt := 0.1;
     PISO.K := 1e-6;
     PISO.CF := 0.0;
     PISO.t_iter := 2;
     PISO.tot_iter := 200;
     PISO.corr_iter := 2;
     PISO.tol := 1e-8;
     PISO.u_inlet := 0.02;
     PISO.u_outlet := 0.01;
     PISO.p_outlet := 50000.0;
     PISO.rhie_chow_on_off := 1;
     PISO.Sm := PISO.init_Sm 3;
     PISO.Su := vec 3 0.0;
     PISO.St := PISO.init_St 3 |}.

(** ** Facts about vectors *)

Lemma length_upd (l : list R) i v : length (upd l i v) = length l.
Proof.
  revert i; induction l as [|h t IH]; intros [|j]; simpl; auto.
Qed.

Lemma get_upd_same (l : list R) i v :
  (i < length l)%nat -> get (upd l i v) i = v.
Proof.
  unfold get; revert i; induction l as [|h t IH]; intros [|j] H; simpl in *;
    try lia; auto.
  apply IH; lia.
Qed.

Lemma get_upd_other (l : list R) i j v :
  i <> j -> get (upd l i v) j = get l j.
Proof.
  unfold get; revert i j; induction l as [|h t IH]; intros [|i] [|j] H;
    simpl; auto; try congruence.
Qed.

Lemma length_vec n x : length (vec n x) = n.
Proof. apply repeat_length. Qed.

Lemma get_vec n x i : (i < n)%nat -> get (vec n x) i = x.
Proof.
  unfold get, vec; revert i; induction n as [|n IH]; intros [|i] H; simpl;
    try lia; auto.
  apply IH; lia.
Qed.

Lemma range_snoc lo hi : (lo <= hi)%nat -> range lo (S hi) = range lo hi ++ [hi].
Proof.
  intros H; unfold range.
  replace (S hi - lo)%nat with (S (hi - lo)) by lia.
  rewrite seq_S. do 2 f_equal. lia.
Qed.

Lemma down_from_S m : down_from (S m) = m :: down_from m.
Proof. unfold down_from. rewrite seq_S, rev_app_distr. reflexivity. Qed.


(** ** Facts about the tridiagonal solver *)

Section Thomas.

Variables a b c d : list R.

(** The forward loop over [1 .. k]: lengths are kept, cells above [k] and
    cell [0] are left alone, and every cell written obeys the recurrence. *)
Lemma forward_fold_inv k cs0 ds0 cs ds :
  fold_left (forward_step a b c d) (range 1 (S k)) (cs0, ds0) = (cs, ds) ->
  length cs = length cs0 /\ length ds = length ds0 /\
  (forall j, (k < j)%nat -> get cs j = get cs0 j /\ get ds j = get ds0 j) /\
  (get cs 0 = get cs0 0 /\ get ds 0 = get ds0 0) /\
  (forall i, (1 <= i <= k)%nat ->
             (i < length cs0)%nat -> (i < length ds0)%nat ->
     let m := get b i - get a i * get cs (i - 1) in
     get cs i = get c i / m /\
     get ds i = (get d i - get a i * get ds (i - 1)) / m).
Proof.
  revert cs ds; induction k as [|k IH]; intros cs ds H.
  - unfold range in H; simpl in H. inversion H; subst.
    repeat split; auto; intros; lia.
  - rewrite range_snoc, fold_left_app in H by lia.
    destruct (fold_left (forward_step a b c d) (range 1 (S k)) (cs0, ds0))
      as [cs1 ds1] eqn:E.
    destruct (IH cs1 ds1 eq_refl) as (L1 & L2 & Hup & [H0c H0d] & Hrec).
    cbn [fold_left] in H. unfold forward_step in H.
    inversion H; subst cs ds; clear H.
    rewrite !length_upd.
    split; [exact L1|]. split; [exact L2|].
    split; [|split].
    + intros j Hj. rewrite !get_upd_other by lia. apply Hup; lia.
    + rewrite !get_upd_other by lia. split; assumption.
    + intros i Hi Hc Hd.
      destruct (Nat.eq_dec i (S k)) as [->|Hne].
      * replace (S k - 1)%nat with k by lia.
        rewrite !get_upd_same by lia.
        rewrite !(get_upd_other _ (S k) k) by lia.
        rewrite ?Nat.sub_0_r. split; reflexivity.
      * rewrite !(get_upd_other _ (S k) i) by lia.
        rewrite !(get_upd_other _ (S k) (i - 1)) by lia.
        apply Hrec; lia.
Qed.

(** What the forward elimination leaves in [c_star] and [d_star]. *)
Lemma forward_sweep_spec cs ds :
  (1 <= length b)%nat ->
  forward_sweep a b c d = (cs, ds) ->
  length cs = length b /\ length ds = length b /\
  get cs 0 = get c 0 / get b 0 /\
  get ds 0 = get d 0 / get b 0 /\
  (forall i, (1 <= i < length b)%nat ->
     let m := get b i - get a i * get cs (i - 1) in
     get cs i = get c i / m /\
     get ds i = (get d i - get a i * get ds (i - 1)) / m).
Proof.
  intros Hn H. unfold forward_sweep in H.
  destruct (length b) as [|k] eqn:En; [lia|].
  apply forward_fold_inv in H.
  rewrite !length_upd, !length_vec in H.
  destruct H as (L1 & L2 & _ & [H0c H0d] & Hrec).
  rewrite get_upd_same in H0c, H0d by (rewrite length_vec; lia).
  repeat split; auto; apply Hrec; lia.
Qed.

(** The backward loop over [m - 1 .. 0]. *)
Lemma backward_fold_inv cs ds m : forall x,
  (m < length x)%nat ->
  let x' := fold_left (backward_step cs ds) (down_from m) x in
  length x' = length x /\
  (forall j, (m <= j)%nat -> get x' j = get x j) /\
  (forall i, (i < m)%nat ->
     get x' i = get ds i - get cs i * get x' (i + 1)).
Proof.
  induction m as [|m IH]; intros x Hm; simpl.
  - repeat split; auto; intros; lia.
  - rewrite down_from_S; simpl.
    set (x1 := backward_step cs ds x m).
    assert (L1 : length x1 = length x) by apply length_upd.
    destruct (IH x1 ltac:(lia)) as (L & Hup & Hrec).
    split; [lia|]. split.
    + intros j Hj. rewrite Hup by lia.
      unfold x1, backward_step. apply get_upd_other; lia.
    + intros i Hi. destruct (Nat.eq_dec i m) as [->|Hne].
      * rewrite !Hup by lia. unfold x1, backward_step.
        rewrite get_upd_same by lia.
        rewrite get_upd_other by lia. reflexivity.
      * apply Hrec; lia.
Qed.

(** What the back substitution returns. *)
Lemma back_substitution_spec n cs ds :
  (1 <= n)%nat ->
  let x := back_substitution n cs ds in
  length x = n /\
  get x (n - 1) = get ds (n - 1) /\
  (forall i, (i < n - 1)%nat ->
     get x i = get ds i - get cs i * get x (i + 1)).
Proof.
  intros Hn x. unfold x, back_substitution.
  set (x0 := upd (vec n 0) (n - 1) (get ds (n - 1))).
  assert (L0 : length x0 = n) by (unfold x0; now rewrite length_upd, length_vec).
  destruct (backward_fold_inv cs ds (n - 1) x0 ltac:(lia)) as (L & Hup & Hrec).
  split; [lia|]. split; [|exact Hrec].
  rewrite Hup by lia. unfold x0.
  apply get_upd_same. rewrite length_vec; lia.
Qed.

Lemma length_solveTridiagonal :
  (1 <= length b)%nat -> length (solveTridiagonal a b c d) = length b.
Proof.
  intros Hn. unfold solveTridiagonal.
  destruct (forward_sweep a b c d) as [cs ds].
  apply back_substitution_spec; assumption.
Qed.

(** The solver, unfolded into its two passes. *)
Lemma solveTridiagonal_passes :
  solveTridiagonal a b c d =
  back_substitution (length b) (fst (forward_sweep a b c d))
                    (snd (forward_sweep a b c d)).
Proof.
  unfold solveTridiagonal. now destruct (forward_sweep a b c d).
Qed.

Lemma solveTridiagonal_rows :
  (1 <= length b)%nat ->
  pivots_nonzero a b c d ->
  forall i, (i < length b)%nat ->
             row_holds a b c d (solveTridiagonal a b c d) i.
Proof.
  intros Hn [Hb0 Hpiv] i Hi.
  rewrite solveTridiagonal_passes.
  unfold pivot in Hpiv.
  destruct (forward_sweep a b c d) as [cs ds] eqn:E; simpl in *.
  destruct (forward_sweep_spec cs ds Hn E) as (Lc & Ld & Hc0 & Hd0 & Hfw).
  destruct (back_substitution_spec (length b) cs ds Hn) as (Lx & Hlast & Hbw).
  set (x := back_substitution (length b) cs ds) in *.
  unfold row_holds.
  destruct (Nat.eqb_spec i 0) as [Hi0|Hi0];
    destruct (Nat.eqb_spec i (length b - 1)) as [Hil|Hil].
  - (* the only row *)
    subst i. rewrite <- Hil in Hlast. rewrite Hlast, Hd0. field. exact Hb0.
  - (* first row *)
    subst i. rewrite (Hbw 0%nat) by lia. rewrite Hc0, Hd0. simpl.
    field. exact Hb0.
  - (* last row *)
    subst i. specialize (Hpiv (length b - 1)%nat ltac:(lia)).
    destruct (Hfw (length b - 1)%nat ltac:(lia)) as [_ Hd].
    rewrite (Hbw (length b - 1 - 1)%nat) by lia.
    replace (length b - 1 - 1 + 1)%nat with (length b - 1)%nat by lia.
    rewrite Hlast, Hd. field. exact Hpiv.
  - (* interior row *)
    specialize (Hpiv i ltac:(lia)).
    destruct (Hfw i ltac:(lia)) as [Hc Hd].
    rewrite (Hbw (i - 1)%nat) by lia.
    replace (i - 1 + 1)%nat with i by lia.
    rewrite (Hbw i) by lia.
    rewrite Hc, Hd. field. exact Hpiv.
Qed.

End Thomas.


(** ** Facts about the stages: what each one leaves alone *)

Lemma fold_left_keeps {S I A : Type} (proj : S -> A) (f : S -> I -> S) :
  (forall s i, proj (f s i) = proj s) ->
  forall l s, proj (fold_left f l s) = proj s.
Proof.
  intros H l; induction l as [|i l IH]; intros s; simpl; auto.
  rewrite IH. apply H.
Qed.

Lemma concat_repeat_snoc {A : Type} (l : list A) n :
  concat (repeat l (S n)) = concat (repeat l n) ++ l.
Proof.
  induction n as [|n IH].
  - simpl. now rewrite app_nil_r.
  - change (concat (repeat l (S (S n))))
      with (l ++ concat (repeat l (S n))).
    rewrite IH. simpl in IH.
    now rewrite app_assoc, IH.
Qed.

Lemma iter_keeps {S A : Type} (proj : S -> A) (f : S -> S) :
  (forall s, proj (f s) = proj s) ->
  forall n s, proj (Nat.iter n f s) = proj s.
Proof.
  intros H n; induction n as [|n IH]; intros s; [reflexivity|].
  rewrite Nat.iter_succ, H. apply IH.
Qed.

(** Reduce the projections of an updated state, and nothing else. *)
Ltac state_simpl :=
  cbn [PISO.u PISO.p PISO.T PISO.p_storage PISO.T_old PISO.p_old
       PISO.p_prime PISO.aU PISO.bU PISO.cU PISO.dU PISO.iter PISO.maxErr
       PISO.fout PISO.log
       PISO.set_u PISO.set_p PISO.set_T PISO.set_p_storage PISO.set_p_prime
       PISO.set_aU PISO.set_bU PISO.set_cU PISO.set_dU PISO.set_iter
       PISO.set_maxErr PISO.set_backup PISO.write PISO.emit].

Tactic Notation "state_simpl" "in" hyp(H) :=
  cbn [PISO.u PISO.p PISO.T PISO.p_storage PISO.T_old PISO.p_old
       PISO.p_prime PISO.aU PISO.bU PISO.cU PISO.dU PISO.iter PISO.maxErr
       PISO.fout PISO.log
       PISO.set_u PISO.set_p PISO.set_T PISO.set_p_storage PISO.set_p_prime
       PISO.set_aU PISO.set_bU PISO.set_cU PISO.set_dU PISO.set_iter
       PISO.set_maxErr PISO.set_backup PISO.write PISO.emit] in H.

Section Stages.

Import PISO.
Variable cfg : Config.

(** *** The log *)

Lemma log_assemble_momentum s :
  log (assemble_momentum cfg s) = log s ++ [AssembleMomentum].
Proof.
  unfold assemble_momentum, momentum_bc; state_simpl.
  now rewrite (fold_left_keeps log (momentum_cell cfg)).
Qed.

Lemma log_momentum_predictor s :
  log (momentum_predictor cfg s)
  = log s ++ [AssembleMomentum; SolveMomentum].
Proof.
  unfold momentum_predictor, solve_momentum; state_simpl.
  rewrite log_assemble_momentum, <- app_assoc. reflexivity.
Qed.

Lemma log_continuity_satisfactor s :
  log (continuity_satisfactor cfg s)
  = log s ++ [AssembleContinuity; SolveContinuity].
Proof.
  unfold continuity_satisfactor.
  destruct (continuity_system cfg (emit AssembleContinuity s))
    as [[[aP bP] cP] dP]; state_simpl.
  now rewrite <- app_assoc.
Qed.

Lemma log_pressure_corrector s :
  log (pressure_corrector cfg s) = log s ++ [UpdatePressure].
Proof.
  unfold pressure_corrector; state_simpl.
  now rewrite (fold_left_keeps log pressure_cell).
Qed.

Lemma log_velocity_corrector s :
  log (velocity_corrector cfg s) = log s ++ [CorrectVelocity].
Proof.
  unfold velocity_corrector.
  now rewrite (fold_left_keeps log (velocity_cell cfg)).
Qed.

Lemma log_corrector_round s :
  log (corrector_round cfg s) = log s ++ round_stages.
Proof.
  unfold corrector_round.
  rewrite log_velocity_corrector, log_pressure_corrector,
    log_continuity_satisfactor.
  now rewrite <- !app_assoc.
Qed.

Lemma log_corrector_rounds n s :
  log (Nat.iter n (corrector_round cfg) s)
  = log s ++ concat (repeat round_stages n).
Proof.
  induction n as [|n IH].
  - simpl. now rewrite app_nil_r.
  - rewrite Nat.iter_succ, log_corrector_round, IH, <- app_assoc.
    now rewrite concat_repeat_snoc.
Qed.

Lemma log_piso_body s :
  log (piso_body cfg s) = log s ++ pass_stages (corr_iter cfg).
Proof.
  unfold piso_body; state_simpl.
  rewrite log_corrector_rounds, log_momentum_predictor.
  unfold pass_stages. now rewrite <- app_assoc.
Qed.

Lemma log_temperature_calculator s :
  log (temperature_calculator cfg s)
  = log s ++ [AssembleEnergy; SolveEnergy].
Proof.
  unfold temperature_calculator.
  destruct (temperature_system cfg (emit AssembleEnergy s))
    as [[[aXT bXT] cXT] dXT]; state_simpl.
  now rewrite <- app_assoc.
Qed.

Lemma log_output it s : log (output cfg it s) = log s.
Proof. unfold output. destruct (last_step cfg it); reflexivity. Qed.

(** *** The pass counter *)

Lemma iter_momentum_predictor s : iter (momentum_predictor cfg s) = iter s.
Proof.
  unfold momentum_predictor, solve_momentum, assemble_momentum, momentum_bc;
    state_simpl.
  now rewrite (fold_left_keeps iter (momentum_cell cfg)).
Qed.

Lemma iter_corrector_round s : iter (corrector_round cfg s) = iter s.
Proof.
  unfold corrector_round, velocity_corrector.
  rewrite (fold_left_keeps iter (velocity_cell cfg)) by reflexivity.
  state_simpl. unfold pressure_corrector; state_simpl.
  rewrite (fold_left_keeps iter pressure_cell) by reflexivity.
  state_simpl. unfold continuity_satisfactor.
  now destruct (continuity_system cfg (emit AssembleContinuity s))
    as [[[aP bP] cP] dP].
Qed.

Lemma iter_piso_body s : iter (piso_body cfg s) = S (iter s).
Proof.
  unfold piso_body; state_simpl.
  rewrite (iter_keeps iter _ iter_corrector_round).
  now rewrite iter_momentum_predictor.
Qed.

(** *** The output file *)

Lemma fout_momentum_predictor s : fout (momentum_predictor cfg s) = fout s.
Proof.
  unfold momentum_predictor, solve_momentum, assemble_momentum, momentum_bc;
    state_simpl.
  now rewrite (fold_left_keeps fout (momentum_cell cfg)).
Qed.

Lemma fout_corrector_round s : fout (corrector_round cfg s) = fout s.
Proof.
  unfold corrector_round, velocity_corrector.
  rewrite (fold_left_keeps fout (velocity_cell cfg)) by reflexivity.
  state_simpl. unfold pressure_corrector; state_simpl.
  rewrite (fold_left_keeps fout pressure_cell) by reflexivity.
  state_simpl. unfold continuity_satisfactor.
  now destruct (continuity_system cfg (emit AssembleContinuity s))
    as [[[aP bP] cP] dP].
Qed.

Lemma fout_piso_body s : fout (piso_body cfg s) = fout s.
Proof.
  unfold piso_body; state_simpl.
  rewrite (iter_keeps fout _ fout_corrector_round).
  apply fout_momentum_predictor.
Qed.

Lemma fout_temperature_calculator s :
  fout (temperature_calculator cfg s) = fout s.
Proof.
  unfold temperature_calculator.
  now destruct (temperature_system cfg (emit AssembleEnergy s))
    as [[[aXT bXT] cXT] dXT].
Qed.

(** *** The [while] loop *)

Lemma piso_guard_true s :
  piso_guard cfg s = true <->
  (iter s < tot_iter cfg)%nat /\ maxErr s > tol cfg.
Proof.
  unfold piso_guard. rewrite andb_true_iff, Nat.ltb_lt.
  destruct (Rgt_dec (maxErr s) (tol cfg)); intuition congruence.
Qed.

Lemma piso_guard_false s :
  piso_guard cfg s = false <->
  (tot_iter cfg <= iter s)%nat \/ maxErr s <= tol cfg.
Proof.
  unfold piso_guard. rewrite andb_false_iff, Nat.ltb_ge.
  destruct (Rgt_dec (maxErr s) (tol cfg)) as [Hg|Hg]; split;
    intros [H|H]; auto; try discriminate; try lra.
Qed.

(** A failed guard ends the loop, whatever the bound. *)
Lemma piso_while_stop fuel s :
  piso_guard cfg s = false -> piso_while cfg fuel s = s.
Proof. intros H; destruct fuel; simpl; [|rewrite H]; reflexivity. Qed.

(** The loop of [main], one pass unfolded. *)
Lemma piso_loop_unfold s :
  piso_loop cfg s =
  if piso_guard cfg s then piso_loop cfg (piso_body cfg s) else s.
Proof.
  unfold piso_loop. destruct (piso_guard cfg s) eqn:G.
  - pose proof G as G'. apply piso_guard_true in G'. destruct G' as [Hi _].
    rewrite iter_piso_body.
    replace (tot_iter cfg - iter s)%nat
      with (S (tot_iter cfg - S (iter s))) by lia.
    simpl. now rewrite G.
  - now apply piso_while_stop.
Qed.



(** The loop makes [iter' - iter] passes, each entering the stages of
    [pass_stages], and never counts past the budget. *)
Lemma piso_while_log fuel : forall s,
  let s' := piso_while cfg fuel s in
  (iter s <= iter s')%nat /\
  ((iter s <= tot_iter cfg)%nat -> (iter s' <= tot_iter cfg)%nat) /\
  fout s' = fout s /\
  log s' = log s
           ++ concat (repeat (pass_stages (corr_iter cfg))
                             (iter s' - iter s)).
Proof.
  induction fuel as [|fuel IH]; intros s; simpl.
  - rewrite Nat.sub_diag; simpl. rewrite app_nil_r. auto.
  - destruct (piso_guard cfg s) eqn:G.
    + apply piso_guard_true in G. destruct G as [Hi _].
      destruct (IH (piso_body cfg s)) as (H1 & H2 & H3 & H4).
      rewrite iter_piso_body in *. rewrite log_piso_body in H4.
      rewrite fout_piso_body in H3.
      split; [lia|]. split; [intros _; apply H2; lia|].
      split; [exact H3|].
      rewrite H4, <- app_assoc. f_equal.
      replace (iter (piso_while cfg fuel (piso_body cfg s)) - iter s)%nat
        with (S (iter (piso_while cfg fuel (piso_body cfg s))
                 - S (iter s))) by lia.
      reflexivity.
    + rewrite Nat.sub_diag; simpl. rewrite app_nil_r. auto.
Qed.

End Stages.

(** ** Facts about the momentum assembly *)

Lemma range_split lo i hi :
  (lo <= i < hi)%nat -> range lo hi = range lo i ++ i :: range (S i) hi.
Proof.
  intros H. unfold range.
  replace (hi - lo)%nat with ((i - lo) + S (hi - S i))%nat by lia.
  rewrite seq_app.
  replace (lo + (i - lo))%nat with i by lia. reflexivity.
Qed.

Lemma in_range lo hi i : In i (range lo hi) <-> (lo <= i < hi)%nat.
Proof. unfold range. rewrite in_seq. lia. Qed.

Lemma same_row_refl j s : same_row j s s.
Proof. repeat split. Qed.

Lemma same_row_trans j s1 s2 s3 :
  same_row j s1 s2 -> same_row j s2 s3 -> same_row j s1 s3.
Proof.
  intros (A1 & B1 & C1 & D1) (A2 & B2 & C2 & D2).
  repeat split; congruence.
Qed.

Lemma same_size_trans s1 s2 s3 :
  same_size s1 s2 -> same_size s2 s3 -> same_size s1 s3.
Proof.
  intros (A1 & B1 & C1 & D1) (A2 & B2 & C2 & D2).
  repeat split; congruence.
Qed.

Lemma same_fields_trans s1 s2 s3 :
  same_fields s1 s2 -> same_fields s2 s3 -> same_fields s1 s3.
Proof.
  intros (A1 & B1 & C1 & D1) (A2 & B2 & C2 & D2).
  repeat split; congruence.
Qed.

Lemma momentum_sized_same n s s' :
  same_size s s' -> momentum_sized n s -> momentum_sized n s'.
Proof.
  intros (A1 & B1 & C1 & D1) (A2 & B2 & C2 & D2).
  repeat split; congruence.
Qed.

(** A loop whose body at [i] writes row [i] only. *)
Section CellLoop.

Variable cell : PISO.State -> nat -> PISO.State.
Hypothesis cell_other : forall s i j, j <> i -> same_row j s (cell s i).
Hypothesis cell_size : forall s i, same_size s (cell s i).
Hypothesis cell_fields : forall s i, same_fields s (cell s i).

Lemma cells_frame l : forall s j,
  ~ In j l ->
  same_row j s (fold_left cell l s) /\
  same_size s (fold_left cell l s) /\
  same_fields s (fold_left cell l s).
Proof.
  induction l as [|i l IH]; intros s j Hj; simpl.
  - repeat split.
  - destruct (IH (cell s i) j) as (Hr & Hs & Hf).
    { intros Hin; apply Hj; now right. }
    split; [|split].
    + eapply same_row_trans; [apply cell_other|exact Hr].
      intros ->; apply Hj; now left.
    + eapply same_size_trans; [apply cell_size|exact Hs].
    + eapply same_fields_trans; [apply cell_fields|exact Hf].
Qed.

Lemma cells_size l s : same_size s (fold_left cell l s).
Proof.
  revert s; induction l as [|i l IH]; intros s; simpl.
  - repeat split.
  - eapply same_size_trans; [apply cell_size|apply IH].
Qed.

Lemma cells_fields l s : same_fields s (fold_left cell l s).
Proof.
  revert s; induction l as [|i l IH]; intros s; simpl.
  - repeat split.
  - eapply same_fields_trans; [apply cell_fields|apply IH].
Qed.

(** Row [i] at the end of the loop is the row its own pass wrote. *)
Lemma cells_row lo hi i s :
  (lo <= i < hi)%nat ->
  same_row i (cell (fold_left cell (range lo i) s) i)
           (fold_left cell (range lo hi) s).
Proof.
  intros Hi. rewrite (range_split lo i hi Hi), fold_left_app. simpl.
  apply cells_frame. rewrite in_range. lia.
Qed.

End CellLoop.

Section Momentum.

Import PISO.
Variable cfg : Config.

Lemma momentum_cell_other s i j :
  j <> i -> same_row j s (momentum_cell cfg s i).
Proof.
  intros H. unfold momentum_cell, same_row; state_simpl.
  rewrite !get_upd_other by congruence. repeat split.
Qed.

Lemma momentum_cell_size s i : same_size s (momentum_cell cfg s i).
Proof.
  unfold momentum_cell, same_size; state_simpl.
  rewrite !length_upd. repeat split.
Qed.

Lemma momentum_cell_fields s i : same_fields s (momentum_cell cfg s i).
Proof. repeat split. Qed.

Lemma momentum_bc_other s j :
  j <> 0%nat -> j <> (N cfg - 1)%nat -> same_row j s (momentum_bc cfg s).
Proof.
  intros H0 Hn. unfold momentum_bc, same_row; state_simpl.
  rewrite !get_upd_other by congruence. repeat split.
Qed.

Lemma momentum_bc_size s : same_size s (momentum_bc cfg s).
Proof.
  unfold momentum_bc, same_size; state_simpl.
  rewrite !length_upd. repeat split.
Qed.

Lemma momentum_bc_fields s : same_fields s (momentum_bc cfg s).
Proof. repeat split. Qed.

(** The state in which the loop of the momentum predictor enters cell
    [i]: rows [1 .. i - 1] are already rewritten. *)
Lemma assemble_momentum_size s :
  same_size s (assemble_momentum cfg s).
Proof.
  unfold assemble_momentum.
  eapply same_size_trans; [|apply momentum_bc_size].
  eapply same_size_trans;
    [|apply cells_size; apply momentum_cell_size].
  repeat split.
Qed.

Lemma assemble_momentum_fields s :
  same_fields s (assemble_momentum cfg s).
Proof.
  unfold assemble_momentum.
  eapply same_fields_trans; [|apply momentum_bc_fields].
  eapply same_fields_trans;
    [|apply cells_fields; apply momentum_cell_fields].
  repeat split.
Qed.

(** Row [i] of the assembled system is the one written when the loop
    was at cell [i]. *)
Lemma assemble_momentum_row s i :
  (0 < i < N cfg - 1)%nat ->
  same_row i
    (momentum_cell cfg
       (fold_left (momentum_cell cfg) (range 1 i)
                  (emit AssembleMomentum s)) i)
    (assemble_momentum cfg s).
Proof.
  intros Hi. unfold assemble_momentum.
  eapply same_row_trans; [|apply momentum_bc_other; lia].
  apply cells_row; [apply momentum_cell_other|apply momentum_cell_size
                   |apply momentum_cell_fields|lia].
Qed.

(** The state in which the loop enters cell [i] has the fields and the
    sizes of the state before the assembly. *)
Lemma momentum_entry s i :
  let s_i := fold_left (momentum_cell cfg) (range 1 i)
                       (emit AssembleMomentum s) in
  same_size s s_i /\ same_fields s s_i.
Proof.
  split.
  - eapply same_size_trans;
      [|apply cells_size; apply momentum_cell_size]. repeat split.
  - eapply same_fields_trans;
      [|apply cells_fields; apply momentum_cell_fields]. repeat split.
Qed.

(** The row a pass of the loop writes. *)
Lemma momentum_cell_written n s i :
  momentum_sized n s -> (i < n)%nat ->
  let s' := momentum_cell cfg s i in
  get (aU s') i = - Rmax (F_l cfg s i) 0 - D_l cfg s i /\
  get (cU s') i = Rmax (- F_r cfg s i) 0 - D_r cfg s i /\
  get (bU s') i =
    (Rmax (F_r cfg s i) 0 - Rmax (- F_l cfg s i) 0)
    + rho_at s i * dz cfg / dt cfg + D_l cfg s i + D_r cfg s i
    + mu_at s i / K cfg * dz cfg
    + CF cfg * mu_at s i * dz cfg / sqrt (K cfg) * Rabs (get (u s) i) /\
  get (dU s') i =
    -0.5 * (get (p s) (i + 1) - get (p s) (i - 1))
    + rho_at s i * get (u s) i * dz cfg / dt cfg + get (Su cfg) i * dz cfg.
Proof.
  intros (La & Lb & Lc & Ld) Hi. cbv zeta.
  unfold momentum_cell; state_simpl.
  rewrite !get_upd_same by lia.
  replace 0.0 with 0 by lra. repeat split.
Qed.

(** The two boundary rows of the assembled system. *)
Lemma assemble_momentum_bc_rows s :
  (2 <= N cfg)%nat ->
  momentum_sized (N cfg) s ->
  let s' := assemble_momentum cfg s in
  let first := rho_at s 0 * dz cfg / dt cfg + 2 * (mu_at s 0 / dz cfg) in
  let last := rho_at s (N cfg - 1) * dz cfg / dt cfg
              + 2 * (mu_at s (N cfg - 1) / dz cfg) in
  (get (bU s') 0 = first /\ get (cU s') 0 = 0 /\
   get (dU s') 0 = first * u_inlet cfg) /\
  (get (aU s') (N cfg - 1) = 0 /\ get (bU s') (N cfg - 1) = last /\
   get (dU s') (N cfg - 1) = last * u_outlet cfg).
Proof.
  intros HN Hsz. unfold assemble_momentum.
  set (s1 := fold_left (momentum_cell cfg) (range 1 (N cfg - 1))
                       (emit AssembleMomentum s)).
  destruct (momentum_entry s (N cfg - 1)) as [Hs Hf]. fold s1 in Hs, Hf.
  destruct (momentum_sized_same _ _ _ Hs Hsz) as (La & Lb & Lc & Ld).
  destruct Hf as (_ & _ & HT & _).
  unfold momentum_bc, rho_at, mu_at; state_simpl. rewrite HT.
  rewrite !get_upd_same by (rewrite ?length_upd; lia).
  rewrite !(get_upd_other _ (N cfg - 1) 0) by lia.
  rewrite !get_upd_same by (rewrite ?length_upd; lia).
  repeat split; lra.
Qed.

End Momentum.

Section MomentumEarly.

Import PISO.
Variable cfg : Config.

Lemma early_momentum_cell_other s i j :
  j <> i -> same_row j s (PISO_early.momentum_cell cfg s i).
Proof.
  intros H. unfold PISO_early.momentum_cell, same_row; state_simpl.
  rewrite !get_upd_other by congruence. repeat split.
Qed.

Lemma early_momentum_cell_size s i :
  same_size s (PISO_early.momentum_cell cfg s i).
Proof.
  unfold PISO_early.momentum_cell, same_size; state_simpl.
  rewrite !length_upd. repeat split.
Qed.

Lemma early_momentum_cell_fields s i :
  same_fields s (PISO_early.momentum_cell cfg s i).
Proof. repeat split. Qed.

Lemma early_momentum_bc_other s j :
  j <> 0%nat -> j <> (N cfg - 1)%nat ->
  same_row j s (PISO_early.momentum_bc cfg s).
Proof.
  intros H0 Hn. unfold PISO_early.momentum_bc, same_row; state_simpl.
  rewrite !get_upd_other by congruence. repeat split.
Qed.

Lemma early_momentum_bc_size s :
  same_size s (PISO_early.momentum_bc cfg s).
Proof.
  unfold PISO_early.momentum_bc, same_size; state_simpl.
  rewrite !length_upd. repeat split.
Qed.

Lemma early_assemble_momentum_size s :
  same_size s (PISO_early.assemble_momentum cfg s).
Proof.
  unfold PISO_early.assemble_momentum.
  eapply same_size_trans; [|apply early_momentum_bc_size].
  eapply same_size_trans;
    [|apply cells_size; apply early_momentum_cell_size].
  repeat split.
Qed.

Lemma early_assemble_momentum_row s i :
  (0 < i < N cfg - 1)%nat ->
  same_row i
    (PISO_early.momentum_cell cfg
       (fold_left (PISO_early.momentum_cell cfg) (range 1 i)
                  (emit AssembleMomentum s)) i)
    (PISO_early.assemble_momentum cfg s).
Proof.
  intros Hi. unfold PISO_early.assemble_momentum.
  eapply same_row_trans; [|apply early_momentum_bc_other; lia].
  apply cells_row; [apply early_momentum_cell_other
                   |apply early_momentum_cell_size
                   |apply early_momentum_cell_fields|lia].
Qed.

Lemma early_momentum_entry s i :
  let s_i := fold_left (PISO_early.momentum_cell cfg) (range 1 i)
                       (emit AssembleMomentum s) in
  same_size s s_i /\ same_fields s s_i.
Proof.
  split.
  - eapply same_size_trans;
      [|apply cells_size; apply early_momentum_cell_size]. repeat split.
  - eapply same_fields_trans;
      [|apply cells_fields; apply early_momentum_cell_fields].
    repeat split.
Qed.

Lemma early_momentum_cell_written n s i :
  momentum_sized n s -> (i < n)%nat ->
  let s' := PISO_early.momentum_cell cfg s i in
  get (aU s') i
  = - Rmax (PISO_early.F_l cfg s i) 0 - PISO_early.D_l cfg s i /\
  get (cU s') i
  = Rmax (- PISO_early.F_r cfg s i) 0 - PISO_early.D_r cfg s i.
Proof.
  intros (La & Lb & Lc & Ld) Hi. cbv zeta.
  unfold PISO_early.momentum_cell; state_simpl.
  rewrite !get_upd_same by lia.
  replace 0.0 with 0 by lra. repeat split.
Qed.

Lemma early_assemble_momentum_bc_rows s :
  (2 <= N cfg)%nat ->
  momentum_sized (N cfg) s ->
  let s' := PISO_early.assemble_momentum cfg s in
  let first := PISO_early.rho_at s 0 * dz cfg / dt cfg
               + 2 * (PISO_early.mu_at s 0 / dz cfg) in
  let last := PISO_early.rho_at s (N cfg - 1) * dz cfg / dt cfg
              + 2 * (PISO_early.mu_at s (N cfg - 1) / dz cfg) in
  (get (bU s') 0 = first /\ get (cU s') 0 = 0 /\
   get (dU s') 0 = first * u_inlet cfg) /\
  (get (aU s') (N cfg - 1) = 0 /\ get (bU s') (N cfg - 1) = last /\
   get (dU s') (N cfg - 1) = last * u_outlet cfg).
Proof.
  intros HN Hsz. unfold PISO_early.assemble_momentum.
  set (s1 := fold_left (PISO_early.momentum_cell cfg) (range 1 (N cfg - 1))
                       (emit AssembleMomentum s)).
  destruct (early_momentum_entry s (N cfg - 1)) as [Hs Hf].
  fold s1 in Hs, Hf.
  destruct (momentum_sized_same _ _ _ Hs Hsz) as (La & Lb & Lc & Ld).
  destruct Hf as (_ & _ & HT & _).
  unfold PISO_early.momentum_bc, PISO_early.rho_at, PISO_early.mu_at;
    state_simpl. rewrite HT.
  rewrite !get_upd_same by (rewrite ?length_upd; lia).
  rewrite !(get_upd_other _ (N cfg - 1) 0) by lia.
  rewrite !get_upd_same by (rewrite ?length_upd; lia).
  repeat split; lra.
Qed.

End MomentumEarly.

(** The interior rows of the momentum system of the PISO program of
    [PISO.cpp].  For an interior cell [i], with [F_l] and [F_r] the upwind
    face fluxes computed when the loop is at cell [i]: the off-diagonals
    are the upwind split and a conductance that is the mean of the two
    neighbouring viscosities over [dz]; the diagonal adds the transient
    term, both conductances, the Darcy term and the Forchheimer term; the
    right-hand side is the central pressure difference, the transient term
    and the momentum source. *)
Lemma momentum_interior_rows (cfg : PISO.Config) (s : PISO.State) (i : nat) :
  (0 < i < PISO.N cfg - 1)%nat ->
  momentum_sized (PISO.N cfg) s ->
  let s_i := fold_left (PISO.momentum_cell cfg) (range 1 i)
                       (PISO.emit PISO.AssembleMomentum s) in
  let s' := PISO.assemble_momentum cfg s in
  let mu := fun j => value (PISO.liquid_sodium.mu (get (PISO.T s) j)) in
  let rho := value (PISO.liquid_sodium.rho (get (PISO.T s) i)) in
  let D_l := 0.5 * (mu i + mu (i - 1)%nat) / PISO.dz cfg in
  let D_r := 0.5 * (mu i + mu (i + 1)%nat) / PISO.dz cfg in
  let F_l := PISO.F_l cfg s_i i in
  let F_r := PISO.F_r cfg s_i i in
  get (PISO.aU s') i = - Rmax F_l 0 - D_l /\
  get (PISO.cU s') i = Rmax (- F_r) 0 - D_r /\
  get (PISO.bU s') i =
    (Rmax F_r 0 - Rmax (- F_l) 0)
    + rho * PISO.dz cfg / PISO.dt cfg + D_l + D_r
    + mu i / PISO.K cfg * PISO.dz cfg
    + PISO.CF cfg * mu i * PISO.dz cfg / sqrt (PISO.K cfg)
      * Rabs (get (PISO.u s) i) /\
  get (PISO.dU s') i =
    -0.5 * (get (PISO.p s) (i + 1) - get (PISO.p s) (i - 1))
    + rho * get (PISO.u s) i * PISO.dz cfg / PISO.dt cfg
    + get (PISO.Su cfg) i * PISO.dz cfg.
Proof.
  intros Hi Hsz s_i s' mu rho D_l D_r F_l F_r.
  destruct (assemble_momentum_row cfg s i Hi) as (Ha & Hb & Hc & Hd).
  fold s_i in Ha, Hb, Hc, Hd. fold s' in Ha, Hb, Hc, Hd.
  destruct (momentum_entry cfg s i) as [Hs Hf]. fold s_i in Hs, Hf.
  pose proof (momentum_sized_same _ _ _ Hs Hsz) as Hsz_i.
  destruct (momentum_cell_written cfg (PISO.N cfg) s_i i Hsz_i ltac:(lia))
    as (Wa & Wb & Wc & Wd).
  destruct Hf as (Hu & Hp & HT & _).
  rewrite Ha, Hb, Hc, Hd, Wa, Wb, Wc, Wd.
  unfold PISO.D_l, PISO.D_r, PISO.rho_at, PISO.mu_at.
  rewrite Hu, Hp, HT. repeat split.
Qed.

(** The velocity after the solve, for any state of the coefficients. *)
Lemma u_solve_momentum (s : PISO.State) :
  PISO.u (PISO.solve_momentum s)
  = solveTridiagonal (PISO.aU s) (PISO.bU s) (PISO.cU s) (PISO.dU s).
Proof. reflexivity. Qed.

Lemma u_early_solve_momentum (s : PISO.State) :
  PISO.u (PISO_early.solve_momentum s)
  = solveTridiagonal (PISO.aU s) (PISO.bU s) (PISO.cU s) (PISO.dU s).
Proof. reflexivity. Qed.

(** A Dirichlet first row decides the first value of the solution. *)
Lemma dirichlet_first (a b c d : list R) (n : nat) (first vin : R) :
  (2 <= n)%nat -> length b = n ->
  pivots_nonzero a b c d ->
  get b 0 = first -> get c 0 = 0 -> get d 0 = first * vin ->
  get (solveTridiagonal a b c d) 0 = vin.
Proof.
  intros Hn Lb Hp Hb0 Hc0 Hd0.
  pose proof (solveTridiagonal_rows a b c d ltac:(lia) Hp
                0%nat ltac:(lia)) as Hrow.
  destruct Hp as [Hnz _]. unfold row_holds in Hrow. rewrite Lb in Hrow.
  destruct (Nat.eqb_spec 0 (n - 1)) as [E|_]; [lia|].
  simpl in Hrow. rewrite Hb0, Hc0, Hd0 in Hrow. rewrite Hb0 in Hnz.
  apply (Rmult_eq_reg_l first); [lra|exact Hnz].
Qed.

(** A Dirichlet last row decides the last value of the solution. *)
Lemma dirichlet_last (a b c d : list R) (n : nat) (last vout : R) :
  (2 <= n)%nat -> length b = n ->
  pivots_nonzero a b c d ->
  get a (n - 1) = 0 -> get b (n - 1) = last -> get d (n - 1) = last * vout ->
  get (solveTridiagonal a b c d) (n - 1) = vout.
Proof.
  intros Hn Lb Hp Ha Hb Hd.
  pose proof (solveTridiagonal_rows a b c d ltac:(lia) Hp
                (n - 1)%nat ltac:(lia)) as Hrow.
  destruct Hp as [_ Hpiv].
  specialize (Hpiv (n - 1)%nat ltac:(lia)). unfold pivot in Hpiv.
  rewrite Ha, Hb in Hpiv.
  unfold row_holds in Hrow. rewrite Lb in Hrow.
  destruct (Nat.eqb_spec (n - 1) 0) as [E|_]; [lia|].
  rewrite Nat.eqb_refl in Hrow. rewrite Ha, Hb, Hd in Hrow.
  apply (Rmult_eq_reg_l last); [lra|lra].
Qed.

(** A zero-gradient last row makes the last two values equal. *)
Lemma zero_gradient_end (a b c d : list R) (n : nat) :
  (2 <= n)%nat -> length b = n ->
  pivots_nonzero a b c d ->
  get a (n - 1) = -1 -> get b (n - 1) = 1 -> get d (n - 1) = 0 ->
  get (solveTridiagonal a b c d) (n - 1)
  = get (solveTridiagonal a b c d) (n - 2).
Proof.
  intros Hn Lb Hp Ha Hb Hd.
  pose proof (solveTridiagonal_rows a b c d ltac:(lia) Hp
                (n - 1)%nat ltac:(lia)) as Hrow.
  unfold row_holds in Hrow. rewrite Lb in Hrow.
  destruct (Nat.eqb_spec (n - 1) 0) as [E|_]; [lia|].
  rewrite Nat.eqb_refl in Hrow. rewrite Ha, Hb, Hd in Hrow.
  replace (n - 1 - 1)%nat with (n - 2)%nat in Hrow by lia. lra.
Qed.

(** ** Facts about the momentum system of the SIMPLEC program *)

Section MomentumSIMPLEC.

Import SIMPLEC.
Variable cfg : Config.
Variables u p T : list R.

Lemma simplec_cell_sized n sys ix :
  system_sized n sys -> system_sized n (momentum_cell cfg u p T sys ix).
Proof.
  destruct sys as [[[a b] c] d]. unfold system_sized, momentum_cell.
  rewrite !length_upd. auto.
Qed.

Lemma simplec_cells_sized n l : forall sys,
  system_sized n sys ->
  system_sized n (fold_left (momentum_cell cfg u p T) l sys).
Proof.
  induction l as [|ix l IH]; intros sys H; simpl; auto.
  apply IH, simplec_cell_sized, H.
Qed.

(** The assembled system: its size and its two boundary rows. *)
Lemma simplec_momentum_system_rows a b c d :
  (2 <= Nx cfg)%nat ->
  momentum_system cfg u p T = (a, b, c, d) ->
  system_sized (Nx cfg) (a, b, c, d) /\
  (get b 0 = 1 /\ get c 0 = 0 /\ get d 0 = u_inlet cfg) /\
  (get a (Nx cfg - 1) = -1 /\ get b (Nx cfg - 1) = 1 /\
   get d (Nx cfg - 1) = 0).
Proof.
  intros HN. unfold momentum_system.
  set (z := vec (Nx cfg) 0).
  assert (Hz : system_sized (Nx cfg) (z, z, z, z)).
  { unfold system_sized, z. rewrite length_vec. auto. }
  pose proof (simplec_cells_sized _ (range 1 (Nx cfg - 1)) _ Hz) as Hs.
  destruct (fold_left (momentum_cell cfg u p T) (range 1 (Nx cfg - 1))
                      (z, z, z, z)) as [[[a1 b1] c1] d1].
  destruct Hs as (La & Lb & Lc & Ld).
  unfold momentum_bc. intros E. inversion E; subst a b c d; clear E.
  unfold system_sized. rewrite !length_upd.
  rewrite !get_upd_same by (rewrite ?length_upd; lia).
  rewrite !(get_upd_other _ (Nx cfg - 1) 0) by lia.
  rewrite !get_upd_same by (rewrite ?length_upd; lia).
  repeat split; auto.
Qed.

End MomentumSIMPLEC.

(** ** Facts about the property functions *)

Lemma sodium_density_positive (T : R) :
  0 <= T <= 2509.46 ->
  219 <= 219.0 + 275.32 * (1.0 - T / 2509.46)
         + 511.58 * sqrt (1.0 - T / 2509.46).
Proof.
  intros [H0 H1].
  assert (Hq : 0 <= 1.0 - T / 2509.46) by lra.
  pose proof (sqrt_pos (1.0 - T / 2509.46)) as Hs.
  nra.
Qed.

Lemma sodium_viscosity_positive (T : R) :
  0 < exp (-6.4406 - 0.3958 * ln T + 556.835 / T).
Proof. apply exp_pos. Qed.

(** Above 100 K the viscosity correlation stays below one. *)
Lemma sodium_viscosity_small (T : R) :
  100 <= T -> exp (-6.4406 - 0.3958 * ln T + 556.835 / T) < 1.
Proof.
  intros HT. rewrite <- exp_0. apply exp_increasing.
  assert (Hln : 0 < ln T).
  { rewrite <- ln_1. apply ln_increasing; lra. }
  assert (Hq : 556.835 / T <= 556.835 / 100).
  { unfold Rdiv. apply Rmult_le_compat_l; [lra|].
    apply Rinv_le_contravar; lra. }
  nra.
Qed.

(** ** Facts about counting stages *)

Lemma entered_app e l l' : entered e (l ++ l') = (entered e l + entered e l')%nat.
Proof. apply count_occ_app. Qed.

Lemma entered_concat_repeat e l n :
  entered e (concat (repeat l n)) = (n * entered e l)%nat.
Proof.
  induction n as [|n IH]; simpl; [reflexivity|].
  rewrite entered_app, IH. reflexivity.
Qed.

Lemma entered_pass_stages e k :
  entered e (pass_stages k)
  = (entered e [PISO.AssembleMomentum; PISO.SolveMomentum]
     + k * entered e round_stages)%nat.
Proof.
  unfold pass_stages. now rewrite entered_app, entered_concat_repeat.
Qed.

Section Timestep.

Import PISO.
Variable cfg : Config.

Lemma piso_loop_log s :
  let s' := piso_loop cfg s in
  (iter s <= iter s')%nat /\
  ((iter s <= tot_iter cfg)%nat -> (iter s' <= tot_iter cfg)%nat) /\
  fout s' = fout s /\
  log s' = log s
           ++ concat (repeat (pass_stages (corr_iter cfg))
                             (iter s' - iter s)).
Proof. apply piso_while_log. Qed.

Lemma fout_output it s :
  fout (output cfg it s) =
  fout s
  ++ (if last_step cfg it then profile cfg (u s) else [])
  ++ [Blank]
  ++ (if last_step cfg it then profile cfg (p s) else [])
  ++ [Blank]
  ++ (if last_step cfg it then profile cfg (T s) else []).
Proof.
  unfold output. destruct (last_step cfg it); state_simpl.
  - now rewrite <- !app_assoc.
  - now rewrite <- !app_assoc.
Qed.

Lemma fout_timestep s it :
  let s' := temperature_calculator cfg (piso_loop cfg (begin_timestep s)) in
  fout (timestep cfg s it) =
  fout s
  ++ (if last_step cfg it then profile cfg (u s') else [])
  ++ [Blank]
  ++ (if last_step cfg it then profile cfg (p s') else [])
  ++ [Blank]
  ++ (if last_step cfg it then profile cfg (T s') else []).
Proof.
  intros s'. unfold timestep. fold s'. rewrite fout_output.
  do 1 f_equal. unfold s'.
  rewrite fout_temperature_calculator.
  destruct (piso_loop_log (begin_timestep s)) as (_ & _ & Hf & _).
  rewrite Hf. reflexivity.
Qed.

(** The temperature system reads the fields, not the log. *)
Lemma temperature_system_emit e s :
  temperature_system cfg (emit e s) = temperature_system cfg s.
Proof. reflexivity. Qed.

Lemma T_temperature_calculator s :
  T (temperature_calculator cfg s) = solution (temperature_system cfg s).
Proof.
  unfold temperature_calculator, solution.
  rewrite temperature_system_emit.
  now destruct (temperature_system cfg s) as [[[aXT bXT] cXT] dXT].
Qed.


End Timestep.

(** ** Facts about the pressure corrector *)

Section PressureCorrector.

Import PISO.

(** The loop over [0 .. k - 1]: the cells it passed hold the corrected
    pressure, and the buffer holds a copy of each, one cell to the
    right. *)
Lemma pressure_cells_inv s k :
  (k + 2 <= length (p_storage s))%nat -> (k <= length (p s))%nat ->
  let s' := fold_left pressure_cell (range 0 k) s in
  length (p s') = length (p s) /\
  length (p_storage s') = length (p_storage s) /\
  p_prime s' = p_prime s /\
  (forall i, (k <= i)%nat -> get (p s') i = get (p s) i) /\
  (forall i, (i < k)%nat ->
     get (p s') i = get (p s) i + get (p_prime s) i) /\
  (forall i, (i < k)%nat -> get (p_storage s') (i + 1) = get (p s') i).
Proof.
  induction k as [|k IH]; intros Hs Hp; cbv zeta.
  - cbn. repeat split; auto; intros; lia.
  - rewrite range_snoc, fold_left_app by lia. cbn [fold_left].
    pose proof (IH ltac:(lia) ltac:(lia)) as H. cbv zeta in H.
    destruct H as (Lp & Ls & Hpp & Hhi & Hlo & Hb).
    set (s1 := fold_left pressure_cell (range 0 k) s) in *.
    unfold pressure_cell; state_simpl.
    rewrite !length_upd.
    split; [exact Lp|]. split; [exact Ls|]. split; [exact Hpp|].
    split; [|split].
    + intros i Hi. rewrite get_upd_other by lia. apply Hhi; lia.
    + intros i Hi. destruct (Nat.eq_dec i k) as [->|Hne].
      * rewrite get_upd_same by lia. rewrite Hhi, Hpp by lia. reflexivity.
      * rewrite get_upd_other by lia. apply Hlo; lia.
    + intros i Hi. destruct (Nat.eq_dec i k) as [->|Hne].
      * rewrite get_upd_same by (rewrite ?length_upd; lia). reflexivity.
      * rewrite !get_upd_other by lia. apply Hb; lia.
Qed.

End PressureCorrector.

(** ** Facts about the velocity corrector *)

Section VelocityCorrector.

Import PISO.
Variable cfg : Config.

(** The loop over [1 .. k - 1], started with [maxErr = 0]: cells outside
    are untouched, and [maxErr] is the largest absolute change of the
    cells passed. *)
Lemma velocity_cells_inv s k :
  maxErr s = 0 ->
  let s' := fold_left (velocity_cell cfg) (range 1 (S k)) s in
  (forall j, (k < j \/ j < 1)%nat -> get (u s') j = get (u s) j) /\
  (forall j, (1 <= j <= k)%nat ->
     Rabs (get (u s') j - get (u s) j) <= maxErr s') /\
  ((k = 0%nat /\ maxErr s' = 0) \/
   (exists j, (1 <= j <= k)%nat /\
              maxErr s' = Rabs (get (u s') j - get (u s) j))).
Proof.
  intros H0. cbv zeta. induction k as [|k IH].
  - cbn. repeat split; auto; intros; lia.
  - rewrite range_snoc, fold_left_app by lia. cbn [fold_left].
    destruct IH as (Hout & Hle & Hmax).
    set (s1 := fold_left (velocity_cell cfg) (range 1 (S k)) s) in *.
    unfold velocity_cell; state_simpl.
    set (v := get (u s1) (S k)
              - (get (p_prime s1) (S k + 1) - get (p_prime s1) (S k - 1))
                / (2.0 * dz cfg * get (bU s1) (S k))).
    set (d := Rabs (get (upd (u s1) (S k) v) (S k) - get (u s1) (S k))).
    assert (Hd : 0 <= d) by apply Rabs_pos.
    assert (Hprev : get (u s1) (S k) = get (u s) (S k))
      by (apply Hout; lia).
    split; [|split].
    + intros j Hj. rewrite get_upd_other by lia. apply Hout; lia.
    + intros j Hj. destruct (Nat.eq_dec j (S k)) as [->|Hne].
      * rewrite <- Hprev. fold d. apply Rmax_r.
      * rewrite get_upd_other by lia.
        eapply Rle_trans; [apply Hle; lia|apply Rmax_l].
    + right. destruct (Rle_dec (maxErr s1) d) as [Hc|Hc].
      * exists (S k). split; [lia|].
        rewrite Rmax_right by exact Hc. rewrite <- Hprev. reflexivity.
      * rewrite Rmax_left by lra.
        destruct Hmax as [[_ Hz]|(j & Hj & Hm)]; [lra|].
        exists j. split; [lia|].
        rewrite get_upd_other by lia. exact Hm.
Qed.

(** The velocity corrector: [maxErr] is the largest absolute change of
    an interior velocity, and zero when there is no interior cell. *)
Lemma velocity_corrector_residual s :
  let s' := velocity_corrector cfg s in
  (forall i, (0 < i < N cfg - 1)%nat ->
     Rabs (get (u s') i - get (u s) i) <= maxErr s') /\
  ((3 <= N cfg)%nat ->
     exists i, (0 < i < N cfg - 1)%nat /\
               maxErr s' = Rabs (get (u s') i - get (u s) i)) /\
  ((N cfg < 3)%nat -> maxErr s' = 0).
Proof.
  cbv zeta. unfold velocity_corrector.
  set (s0 := set_maxErr 0.0 (emit CorrectVelocity s)).
  assert (H0 : maxErr s0 = 0) by (unfold s0; state_simpl; lra).
  destruct (le_lt_dec 3 (N cfg)) as [H3|H3].
  - pose proof (velocity_cells_inv s0 (N cfg - 2) H0) as Hinv.
    cbv zeta in Hinv.
    replace (S (N cfg - 2)) with (N cfg - 1)%nat in Hinv by lia.
    destruct Hinv as (_ & Hle & Hmax).
    change (u s0) with (u s) in *.
    split; [intros i Hi; apply Hle; lia|]. split; [|intros; lia].
    intros _. destruct Hmax as [[Hk _]|(j & Hj & Hm)]; [lia|].
    exists j. split; [lia|exact Hm].
  - replace (range 1 (N cfg - 1)) with (@nil nat)
      by (unfold range; now replace (N cfg - 1 - 1)%nat with 0%nat by lia).
    cbn [fold_left].
    split; [intros; lia|]. split; [intros; lia|]. intros _. exact H0.
Qed.

(** The stages before the velocity corrector leave the velocity alone. *)
Lemma u_before_velocity_corrector s :
  u (pressure_corrector cfg (continuity_satisfactor cfg s)) = u s.
Proof.
  unfold pressure_corrector; state_simpl.
  rewrite (fold_left_keeps u pressure_cell) by reflexivity.
  state_simpl. unfold continuity_satisfactor.
  now destruct (continuity_system cfg (emit AssembleContinuity s))
    as [[[aP bP] cP] dP].
Qed.

End VelocityCorrector.

(** ** Facts about the initialisation of the mass source *)

Lemma mass_source_nodes_div n :
  PISO.mass_source_nodes n = (Z.of_nat n / 5)%Z.
Proof.
  unfold PISO.mass_source_nodes, PISO.mass_source_zone, Qfloor, Qmult, inject_Z.
  cbn [Qnum Qden]. change (Z.pos (1 * 10)) with 10%Z.
  Z.div_mod_to_equations. lia.
Qed.

Lemma mass_sink_nodes_div n :
  PISO.mass_sink_nodes n = (Z.of_nat n / 5)%Z.
Proof. apply mass_source_nodes_div. Qed.

Lemma mass_nodes_nat n :
  Z.to_nat (PISO.mass_source_nodes n) = (n / 5)%nat.
Proof.
  rewrite mass_source_nodes_div.
  change 5%Z with (Z.of_nat 5). rewrite <- Nat2Z.inj_div. apply Nat2Z.id.
Qed.

Lemma Sm_cell_length n l i : length (PISO.Sm_cell n l i) = length l.
Proof.
  unfold PISO.Sm_cell.
  destruct (_ && _)%bool; [apply length_upd|].
  destruct (_ && _)%bool; [apply length_upd|reflexivity].
Qed.

Lemma Sm_cell_other n l i j :
  j <> i -> get (PISO.Sm_cell n l i) j = get l j.
Proof.
  intros H. unfold PISO.Sm_cell.
  destruct (_ && _)%bool; [apply get_upd_other; congruence|].
  destruct (_ && _)%bool; [apply get_upd_other; congruence|reflexivity].
Qed.

(** The cell written at [i], on a grid of at least five cells. *)
Lemma Sm_cell_same n l i :
  (5 <= n)%nat -> (1 <= i < n - 1)%nat -> length l = n -> get l i = 0 ->
  get (PISO.Sm_cell n l i) i = Sm_value n (n / 5) i.
Proof.
  intros Hn Hi Hl H0. unfold PISO.Sm_cell, Sm_value.
  rewrite mass_source_nodes_div, mass_sink_nodes_div.
  pose proof (Nat.div_mod_eq n 5) as Hdiv.
  pose proof (Nat.mod_upper_bound n 5 ltac:(lia)) as Hmod.
  assert (HZ : (Z.of_nat n / 5)%Z = Z.of_nat (n / 5)).
  { change 5%Z with (Z.of_nat 5). now rewrite <- Nat2Z.inj_div. }
  rewrite HZ.
  destruct (Nat.ltb_spec 0 i); [|lia].
  destruct (Nat.leb_spec 1 i); [|lia].
  destruct (Z.leb_spec (Z.of_nat i) (Z.of_nat (n / 5)));
    destruct (Nat.leb_spec i (n / 5)); try lia; cbn [andb].
  - rewrite get_upd_same by lia. lra.
  - destruct (Z.leb_spec (Z.of_nat n - Z.of_nat (n / 5)) (Z.of_nat i));
      destruct (Nat.leb_spec (n - n / 5) i); try lia; cbn [andb].
    + destruct (Nat.ltb_spec i (n - 1)); [|lia].
      destruct (Nat.leb_spec i (n - 2)); [|lia].
      rewrite get_upd_same by lia. lra.
    + exact H0.
Qed.

(** The loop over [1 .. k - 1] on a vector of zeros. *)
Lemma Sm_cells_inv n k :
  (5 <= n)%nat -> (k <= n - 2)%nat ->
  let l := fold_left (PISO.Sm_cell n) (range 1 (S k)) (vec n 0.0) in
  length l = n /\
  (forall i, (1 <= i <= k)%nat -> get l i = Sm_value n (n / 5) i) /\
  (forall i, (i < 1 \/ k < i)%nat -> get l i = 0).
Proof.
  intros Hn. cbv zeta. induction k as [|k IH]; intros Hk.
  - cbn [range Nat.sub seq fold_left]. rewrite length_vec.
    split; [reflexivity|]. split; [intros; lia|].
    intros i _. destruct (le_lt_dec n i) as [Hi|Hi].
    + unfold get. apply nth_overflow. rewrite length_vec. exact Hi.
    + rewrite get_vec by exact Hi. lra.
  - rewrite range_snoc, fold_left_app by lia. cbn [fold_left].
    destruct (IH ltac:(lia)) as (Ll & Hin & Hout).
    set (l := fold_left (PISO.Sm_cell n) (range 1 (S k)) (vec n 0.0)) in *.
    rewrite Sm_cell_length. split; [exact Ll|]. split.
    + intros i Hi. destruct (Nat.eq_dec i (S k)) as [->|Hne].
      * apply Sm_cell_same; try lia. apply Hout; lia.
      * rewrite Sm_cell_other by lia. apply Hin; lia.
    + intros i Hi. rewrite Sm_cell_other by lia. apply Hout; lia.
Qed.

Lemma init_Sm_spec n :
  (5 <= n)%nat ->
  length (PISO.init_Sm n) = n /\
  forall i, (i < n)%nat -> get (PISO.init_Sm n) i = Sm_value n (n / 5) i.
Proof.
  intros Hn. unfold PISO.init_Sm.
  pose proof (Sm_cells_inv n (n - 2) Hn ltac:(lia)) as H. cbv zeta in H.
  replace (S (n - 2)) with (n - 1)%nat in H by lia.
  destruct H as (Ll & Hin & Hout).
  split; [exact Ll|].
  intros i Hi.
  destruct (le_lt_dec 1 i) as [H1|H1];
    [destruct (le_lt_dec i (n - 2)) as [H2|H2]|].
  - apply Hin; lia.
  - rewrite Hout by lia. unfold Sm_value.
    pose proof (Nat.div_mod_eq n 5) as Hdiv.
    pose proof (Nat.mod_upper_bound n 5 ltac:(lia)) as Hmod.
    destruct (Nat.leb_spec i (n / 5)); [lia|]. rewrite andb_false_r.
    destruct (Nat.leb_spec i (n - 2)); [lia|]. now rewrite andb_false_r.
  - rewrite Hout by lia. unfold Sm_value.
    destruct (Nat.leb_spec 1 i); [lia|]. cbn [andb].
    pose proof (Nat.div_mod_eq n 5) as Hdiv.
    pose proof (Nat.mod_upper_bound n 5 ltac:(lia)) as Hmod.
    destruct (Nat.leb_spec (n - n / 5) i); [lia|]. reflexivity.
Qed.

(** A vector is the list of its cells. *)
Lemma vector_as_map (l : list R) (n : nat) (g : nat -> R) :
  length l = n -> (forall i, (i < n)%nat -> get l i = g i) ->
  l = map g (seq 0 n).
Proof.
  intros Hl Hg. apply (nth_ext _ _ 0 (g 0%nat)).
  - now rewrite length_map, length_seq.
  - intros i Hi. rewrite Hl in Hi.
    rewrite map_nth, seq_nth by lia. simpl. apply Hg. exact Hi.
Qed.

Lemma map_const_seq (g : nat -> R) (v : R) (lo len : nat) :
  (forall i, (lo <= i < lo + len)%nat -> g i = v) ->
  map g (seq lo len) = repeat v len.
Proof.
  revert lo; induction len as [|len IH]; intros lo H; simpl; [reflexivity|].
  rewrite H by lia. f_equal. apply IH. intros i Hi. apply H. lia.
Qed.

Lemma sum_app l l' : sum (l ++ l') = sum l + sum l'.
Proof.
  unfold sum. induction l as [|x l IH]; simpl; [lra|].
  rewrite IH. lra.
Qed.

Lemma sum_repeat v n : sum (repeat v n) = INR n * v.
Proof.
  unfold sum. induction n as [|n IH]; [simpl; lra|].
  rewrite S_INR. simpl. rewrite IH. lra.
Qed.

(** The mass source, segment by segment. *)
Lemma init_Sm_segments n :
  (5 <= n)%nat ->
  let f := (n / 5)%nat in
  PISO.init_Sm n
  = [0] ++ repeat 1 f ++ repeat 0 (n - 2 * f - 1)
    ++ repeat (-1) (f - 1) ++ [0].
Proof.
  intros Hn f.
  destruct (init_Sm_spec n Hn) as [Hl Hv].
  rewrite (vector_as_map _ n _ Hl Hv).
  pose proof (Nat.div_mod_eq n 5) as Hdiv.
  pose proof (Nat.mod_upper_bound n 5 ltac:(lia)) as Hmod.
  fold f in Hdiv |- *.
  assert (Hseq : forall m,
             m = (1 + (f + ((n - 2 * f - 1) + ((f - 1) + 1))))%nat ->
             seq 0 m = seq 0 1 ++ seq 1 f ++ seq (1 + f) (n - 2 * f - 1)
                       ++ seq (n - f) (f - 1) ++ seq (n - 1) 1).
  { intros m ->. rewrite !seq_app.
    replace (0 + 1 + f + (n - 2 * f - 1))%nat with (n - f)%nat by lia.
    replace (n - f + (f - 1))%nat with (n - 1)%nat by lia.
    reflexivity. }
  rewrite (Hseq n) by lia. rewrite !map_app.
  f_equal; [|f_equal; [|f_equal; [|f_equal]]].
  - cbn [seq map]. unfold Sm_value. cbn [Nat.leb andb].
    destruct (Nat.leb_spec (n - f) 0); [lia|]. reflexivity.
  - apply map_const_seq. intros i Hi. unfold Sm_value.
    destruct (Nat.leb_spec 1 i); [|lia].
    destruct (Nat.leb_spec i f); [|lia]. reflexivity.
  - apply map_const_seq. intros i Hi. unfold Sm_value.
    destruct (Nat.leb_spec i f); [lia|]. rewrite andb_false_r.
    destruct (Nat.leb_spec (n - f) i); [lia|]. reflexivity.
  - apply map_const_seq. intros i Hi. unfold Sm_value.
    destruct (Nat.leb_spec i f); [lia|]. rewrite andb_false_r.
    destruct (Nat.leb_spec (n - f) i); [|lia].
    destruct (Nat.leb_spec i (n - 2)); [|lia]. reflexivity.
  - cbn [seq map]. unfold Sm_value.
    destruct (Nat.leb_spec (n - 1) f); [lia|]. rewrite andb_false_r.
    destruct (Nat.leb_spec (n - 1) (n - 2)); [lia|]. rewrite andb_false_r.
    reflexivity.
Qed.

(** ** The momentum system of the three-cell grid *)

(** On three cells with Dirichlet rows at both ends, the pivots are the
    three diagonal entries. *)
Lemma pivots_nonzero_three (a b c d : list R) :
  length b = 3%nat ->
  get c 0 = 0 -> get a 2 = 0 ->
  get b 0 <> 0 -> get b 1 <> 0 -> get b 2 <> 0 ->
  pivots_nonzero a b c d.
Proof.
  intros Lb Hc0 Ha2 Hb0 Hb1 Hb2. split; [exact Hb0|].
  intros i Hi. rewrite Lb in Hi. unfold pivot.
  destruct (forward_sweep a b c d) as [cs ds] eqn:E.
  destruct (forward_sweep_spec a b c d cs ds ltac:(lia) E)
    as (_ & _ & Hcs0 & _ & _).
  cbn [fst]. assert (Hc : i = 1%nat \/ i = 2%nat) by lia.
  destruct Hc as [-> | ->].
  - change (1 - 1)%nat with 0%nat. rewrite Hcs0, Hc0.
    unfold Rdiv. rewrite Rmult_0_l, Rmult_0_r, Rminus_0_r. exact Hb1.
  - rewrite Ha2, Rmult_0_l, Rminus_0_r. exact Hb2.
Qed.

Section SmallGrid.

Import PISO.

#[local] Abbreviation cfg := small_config.
#[local] Abbreviation s := (initial_state small_config).
#[local] Abbreviation s_1 := (emit AssembleMomentum (initial_state small_config)).

Lemma small_grid_two : (2 <= N cfg)%nat.
Proof. simpl; lia. Qed.

Lemma small_grid_sized : momentum_sized (N cfg) s.
Proof. repeat split. Qed.

Lemma small_grid_density : 219 <= rho_at s_1 1 /\ 219 <= rho_at s_1 0
                           /\ 219 <= rho_at s_1 2.
Proof.
  assert (HT : forall j, (j < 3)%nat -> get (T s_1) j = 600).
  { intros j Hj. apply get_vec. exact Hj. }
  unfold rho_at, liquid_sodium.rho, liquid_sodium.Tcrit, value; simpl fst.
  rewrite !HT by lia.
  repeat split; apply sodium_density_positive; lra.
Qed.

Lemma small_grid_faces :
  u_l_face cfg s_1 1 = 0.001 /\ u_r_face cfg s_1 1 = 0.001.
Proof.
  unfold u_l_face, u_r_face, rhie_chow_l, rhie_chow_r.
  change (p_padded s_1 (Z.of_nat 1 - 2)) with 50000.0.
  change (p_padded s_1 (Z.of_nat 1 - 1)) with 50000.0.
  change (p_padded s_1 (Z.of_nat 1)) with 50000.0.
  change (p_padded s_1 (Z.of_nat 1 + 1)) with 50000.0.
  change (p_padded s_1 (Z.of_nat 1 + 2)) with 50000.0.
  change (get (u s_1) (1 - 1)) with 0.001.
  change (get (u s_1) 1) with 0.001.
  change (get (u s_1) (1 + 1)) with 0.001.
  change (rhie_chow_on_off cfg) with 1.
  split; lra.
Qed.

Lemma small_grid_fluxes : 0 <= F_l cfg s_1 1 /\ 0 <= F_r cfg s_1 1.
Proof.
  destruct small_grid_faces as [Hl Hr].
  destruct small_grid_density as (H1 & H0 & H2).
  unfold F_l, F_r. rewrite Hl, Hr.
  change (1 - 1)%nat with 0%nat. change (1 + 1)%nat with 2%nat.
  destruct (Rge_dec 0.001 0); [|lra]. split; nra.
Qed.

(** The diagonal entry of the interior row is positive. *)
Lemma small_grid_interior_diagonal :
  0 < get (bU (assemble_momentum cfg s)) 1.
Proof.
  destruct (momentum_interior_rows cfg s 1 ltac:(simpl; lia)
                                   small_grid_sized)
    as (_ & _ & Hb & _).
  change (fold_left (momentum_cell cfg) (range 1 1)
                    (emit AssembleMomentum s)) with s_1 in Hb.
  rewrite Hb. clear Hb.
  destruct small_grid_fluxes as [Hl Hr].
  destruct small_grid_density as (H1 & H0 & H2).
  rewrite (Rmax_left (F_r cfg s_1 1) 0) by lra.
  rewrite (Rmax_right (- F_l cfg s_1 1) 0) by lra.
  change (get (T s) 1) with T_init.
  change (get (T s) (1 - 1)) with T_init.
  change (get (T s) (1 + 1)) with T_init.
  change (rho_at s_1 1) with (value (liquid_sodium.rho T_init)) in H1.
  set (rho := value (liquid_sodium.rho T_init)) in *.
  assert (Hmu : 0 < value (liquid_sodium.mu T_init))
    by apply sodium_viscosity_positive.
  set (mu := value (liquid_sodium.mu T_init)) in *.
  change (dz cfg) with (1.0 / (3 - 1)). change (dt cfg) with 0.1.
  change (K cfg) with 1e-6. change (CF cfg) with 0.0.
  assert (Hk : 0 < mu / 1e-6 * (1.0 / (3 - 1))).
  { apply Rmult_lt_0_compat; [|lra].
    apply Rdiv_lt_0_compat; lra. }
  assert (Hz : 0.0 * mu * (1.0 / (3 - 1)) / sqrt 1e-6
               * Rabs (get (u s) 1) = 0).
  { replace 0.0 with 0 by lra. unfold Rdiv. rewrite !Rmult_0_l.
    reflexivity. }
  rewrite Hz. lra.
Qed.

Lemma small_grid_pivots :
  let s' := assemble_momentum cfg s in
  pivots_nonzero (aU s') (bU s') (cU s') (dU s').
Proof.
  cbv zeta.
  destruct (assemble_momentum_bc_rows cfg s ltac:(simpl; lia)
                                      small_grid_sized)
    as [(Hb0 & Hc0 & _) (Ha & Hb & _)].
  pose proof (momentum_sized_same _ _ _ (assemble_momentum_size cfg s)
                                  small_grid_sized) as (_ & Lb & _ & _).
  destruct small_grid_density as (H1 & H0 & H2).
  assert (Hmu : forall j, 0 < mu_at s j)
    by (intros j; apply sodium_viscosity_positive).
  change (rho_at s_1 0) with (rho_at s 0) in H0.
  change (rho_at s_1 2) with (rho_at s 2) in H2.
  change (N cfg - 1)%nat with 2%nat in Ha, Hb.
  apply pivots_nonzero_three; auto.
  - rewrite Hb0. change (dz cfg) with (1.0 / (3 - 1)).
    change (dt cfg) with 0.1. specialize (Hmu 0%nat).
    assert (0 < mu_at s 0 / (1.0 / (3 - 1)))
      by (apply Rdiv_lt_0_compat; lra).
    lra.
  - pose proof small_grid_interior_diagonal. lra.
  - rewrite Hb. change (dz cfg) with (1.0 / (3 - 1)).
    change (dt cfg) with 0.1. specialize (Hmu 2%nat).
    assert (0 < mu_at s 2 / (1.0 / (3 - 1)))
      by (apply Rdiv_lt_0_compat; lra).
    lra.
Qed.

End SmallGrid.

(** ** More facts about the tridiagonal solver *)

Section ThomasMore.

Variables a b c d : list R.

(** A vector that satisfies the rows obeys the recurrence of the back
    substitution. *)
Lemma rows_give_recurrence (y : list R) cs ds :
  (1 <= length b)%nat ->
  pivots_nonzero a b c d ->
  forward_sweep a b c d = (cs, ds) ->
  (forall i, (i < length b)%nat -> row_holds a b c d y i) ->
  forall i, (i < length b)%nat ->
    get y i
    = get ds i
      - get cs i * (if (i =? length b - 1)%nat then 0 else get y (i + 1)).
Proof.
  intros Hn [Hb0 Hpiv] E Hrows.
  destruct (forward_sweep_spec a b c d cs ds Hn E)
    as (_ & _ & Hc0 & Hd0 & Hfw).
  unfold pivot in Hpiv. rewrite E in Hpiv. cbn [fst] in Hpiv.
  induction i as [|i IH]; intros Hi.
  - specialize (Hrows 0%nat Hi). unfold row_holds in Hrows.
    change (0 =? 0)%nat with true in Hrows. cbv iota in Hrows.
    rewrite Hc0, Hd0.
    destruct (0 =? length b - 1)%nat.
    + assert (Hg : get b 0 * get y 0 = get d 0 - get c 0 * 0) by lra.
      apply (Rmult_eq_reg_l (get b 0)); [|exact Hb0].
      rewrite Hg. field. exact Hb0.
    + assert (Hg : get b 0 * get y 0 = get d 0 - get c 0 * get y (0 + 1))
        by lra.
      apply (Rmult_eq_reg_l (get b 0)); [|exact Hb0].
      rewrite Hg. field. exact Hb0.
  - specialize (IH ltac:(lia)).
    destruct (Nat.eqb_spec i (length b - 1)) as [Hl|_]; [lia|].
    replace (i + 1)%nat with (S i) in IH by lia.
    specialize (Hrows (S i) Hi). unfold row_holds in Hrows.
    change (S i =? 0)%nat with false in Hrows. cbv iota in Hrows.
    replace (S i - 1)%nat with i in Hrows by lia.
    specialize (Hpiv (S i) ltac:(lia)).
    destruct (Hfw (S i) ltac:(lia)) as [Hc Hd].
    replace (S i - 1)%nat with i in Hpiv, Hc, Hd by lia.
    rewrite Hc, Hd.
    set (m := get b (S i) - get a (S i) * get cs i) in *.
    set (rest := if (S i =? length b - 1)%nat then 0
                 else get c (S i) * get y (S i + 1)) in *.
    assert (Hm : m * get y (S i)
                 = get d (S i) - get a (S i) * get ds i - rest).
    { unfold m. rewrite IH in Hrows. lra. }
    apply (Rmult_eq_reg_l m); [|exact Hpiv].
    rewrite Hm. unfold rest.
    destruct (S i =? length b - 1)%nat; field; exact Hpiv.
Qed.

(** Two vectors that obey the recurrence agree. *)
Lemma recurrence_determines (x y cs ds : list R) (n : nat) :
  (forall i, (i < n)%nat ->
     get x i = get ds i
               - get cs i * (if (i =? n - 1)%nat then 0 else get x (i + 1))) ->
  (forall i, (i < n)%nat ->
     get y i = get ds i
               - get cs i * (if (i =? n - 1)%nat then 0 else get y (i + 1))) ->
  forall k i, (n - 1 - i = k)%nat -> (i < n)%nat -> get x i = get y i.
Proof.
  intros Hx Hy. induction k as [|k IH]; intros i Hk Hi.
  - rewrite (Hx i Hi), (Hy i Hi).
    destruct (Nat.eqb_spec i (n - 1)); [reflexivity|lia].
  - rewrite (Hx i Hi), (Hy i Hi).
    destruct (Nat.eqb_spec i (n - 1)); [lia|].
    rewrite (IH (i + 1)%nat) by lia. reflexivity.
Qed.

(** The returned vector obeys the recurrence. *)
Lemma solution_recurrence cs ds :
  (1 <= length b)%nat ->
  forward_sweep a b c d = (cs, ds) ->
  forall i, (i < length b)%nat ->
    get (solveTridiagonal a b c d) i
    = get ds i
      - get cs i * (if (i =? length b - 1)%nat then 0
                    else get (solveTridiagonal a b c d) (i + 1)).
Proof.
  intros Hn E i Hi. rewrite solveTridiagonal_passes, E. cbn [fst snd].
  destruct (back_substitution_spec (length b) cs ds Hn) as (_ & Hlast & Hbw).
  destruct (Nat.eqb_spec i (length b - 1)) as [->|Hne].
  - rewrite Hlast. lra.
  - apply Hbw. lia.
Qed.

Lemma solveTridiagonal_unique_cells (y : list R) :
  (1 <= length b)%nat ->
  pivots_nonzero a b c d ->
  (forall i, (i < length b)%nat -> row_holds a b c d y i) ->
  forall i, (i < length b)%nat -> get y i = get (solveTridiagonal a b c d) i.
Proof.
  intros Hn Hp Hrows i Hi.
  destruct (forward_sweep a b c d) as [cs ds] eqn:E.
  apply (recurrence_determines y (solveTridiagonal a b c d) cs ds (length b))
    with (k := (length b - 1 - i)%nat); auto.
  - apply rows_give_recurrence; auto.
  - apply solution_recurrence; auto.
Qed.

(** Strict diagonal dominance keeps every [c_star] below one in absolute
    value and every pivot away from zero. *)
Lemma dominance_bounds cs ds :
  (1 <= length b)%nat ->
  diagonally_dominant a b c ->
  forward_sweep a b c d = (cs, ds) ->
  forall i, (i < length b)%nat ->
    Rabs (get cs i) < 1 /\
    ((1 <= i)%nat -> get b i - get a i * get cs (i - 1) <> 0).
Proof.
  intros Hn Hdom E.
  destruct (forward_sweep_spec a b c d cs ds Hn E)
    as (_ & _ & Hc0 & _ & Hfw).
  assert (Hquot : forall p q, Rabs p < Rabs q -> Rabs (p / q) < 1).
  { intros p q H. assert (Hq : 0 < Rabs q).
    { pose proof (Rabs_pos p). lra. }
    assert (q <> 0) by (intros ->; rewrite Rabs_R0 in Hq; lra).
    unfold Rdiv. rewrite Rabs_mult, Rabs_inv.
    apply (Rmult_lt_reg_r (Rabs q)); [exact Hq|].
    rewrite Rmult_assoc, Rinv_l by lra. lra. }
  induction i as [|i IH]; intros Hi.
  - split; [|intros; lia]. rewrite Hc0. apply Hquot.
    specialize (Hdom 0%nat Hi). pose proof (Rabs_pos (get a 0)). lra.
  - destruct (IH ltac:(lia)) as [Hcs _].
    specialize (Hdom (S i) Hi).
    destruct (Hfw (S i) ltac:(lia)) as [Hc _].
    replace (S i - 1)%nat with i in * by lia.
    set (m := get b (S i) - get a (S i) * get cs i) in *.
    assert (Hm : Rabs (get c (S i)) < Rabs m).
    { unfold m.
      pose proof (Rabs_triang_inv (get b (S i)) (get a (S i) * get cs i)) as Ht.
      rewrite Rabs_mult in Ht.
      pose proof (Rabs_pos (get a (S i))) as Ha.
      pose proof (Rabs_pos (get cs i)) as Hc'.
      assert (Rabs (get a (S i)) * Rabs (get cs i) <= Rabs (get a (S i)))
        by nra.
      lra. }
    split.
    + rewrite Hc. apply Hquot. exact Hm.
    + intros _ H0. rewrite H0, Rabs_R0 in Hm.
      pose proof (Rabs_pos (get c (S i))). lra.
Qed.

Lemma dominance_pivots :
  (1 <= length b)%nat ->
  diagonally_dominant a b c ->
  pivots_nonzero a b c d.
Proof.
  intros Hn Hdom. split.
  - specialize (Hdom 0%nat ltac:(lia)).
    intros H0. rewrite H0, Rabs_R0 in Hdom.
    pose proof (Rabs_pos (get a 0)). pose proof (Rabs_pos (get c 0)). lra.
  - intros i Hi. unfold pivot.
    destruct (forward_sweep a b c d) as [cs ds] eqn:E. cbn [fst].
    apply (dominance_bounds cs ds Hn Hdom E i); lia.
Qed.

End ThomasMore.

(** ** Facts about the systems assembled in local vectors *)

Lemma zero_gradient_first (a b c d : list R) (n : nat) :
  (2 <= n)%nat -> length b = n ->
  pivots_nonzero a b c d ->
  get b 0 = 1 -> get c 0 = -1 -> get d 0 = 0 ->
  get (solveTridiagonal a b c d) 0 = get (solveTridiagonal a b c d) 1.
Proof.
  intros Hn Lb Hp Hb Hc Hd.
  pose proof (solveTridiagonal_rows a b c d ltac:(lia) Hp
                0%nat ltac:(lia)) as Hrow.
  unfold row_holds in Hrow. rewrite Lb in Hrow.
  destruct (Nat.eqb_spec 0 (n - 1)) as [E|_]; [lia|].
  change (0 =? 0)%nat with true in Hrow. cbv iota in Hrow.
  rewrite Hb, Hc, Hd in Hrow. change (0 + 1)%nat with 1%nat in Hrow. lra.
Qed.

(** A loop over local vectors whose body at [i] writes row [i] only. *)
Section SystemLoop.

Variable cell : PISO.system -> nat -> PISO.system.
Hypothesis cell_sized :
  forall n sys i, system_sized n sys -> system_sized n (cell sys i).
Hypothesis cell_other :
  forall sys i j, j <> i -> system_row (cell sys i) j = system_row sys j.

Lemma system_cells_sized n l : forall sys,
  system_sized n sys -> system_sized n (fold_left cell l sys).
Proof.
  induction l as [|i l IH]; intros sys H; simpl; auto.
Qed.

Lemma system_cells_other l : forall sys j,
  ~ In j l -> system_row (fold_left cell l sys) j = system_row sys j.
Proof.
  induction l as [|i l IH]; intros sys j Hj; simpl; [reflexivity|].
  rewrite IH by (intros H; apply Hj; now right).
  apply cell_other. intros ->. apply Hj. now left.
Qed.

Lemma system_cells_row lo hi i sys :
  (lo <= i < hi)%nat ->
  system_row (fold_left cell (range lo hi) sys) i
  = system_row (cell (fold_left cell (range lo i) sys) i) i.
Proof.
  intros Hi. rewrite (range_split lo i hi Hi), fold_left_app. simpl.
  apply system_cells_other. rewrite in_range. lia.
Qed.

End SystemLoop.

Lemma system_sized_zero n : system_sized n (vec n 0.0, vec n 0.0, vec n 0.0, vec n 0.0).
Proof. unfold system_sized. rewrite length_vec. auto. Qed.

Section LocalSystems.

Import PISO.
Variable cfg : Config.
Variable s : State.

Lemma continuity_cell_sized n sys i :
  system_sized n sys -> system_sized n (continuity_cell cfg s sys i).
Proof.
  destruct sys as [[[a b] c] d]. unfold system_sized, continuity_cell.
  rewrite !length_upd. auto.
Qed.

Lemma continuity_cell_other sys i j :
  j <> i ->
  system_row (continuity_cell cfg s sys i) j = system_row sys j.
Proof.
  intros H. destruct sys as [[[a b] c] d].
  unfold system_row, continuity_cell.
  rewrite !get_upd_other by congruence. reflexivity.
Qed.

(** The row a pass writes does not depend on what the vectors held. *)
Lemma continuity_cell_row n sys i :
  system_sized n sys -> (i < n)%nat ->
  system_row (continuity_cell cfg s sys i) i
  = system_row (continuity_cell cfg s
                  (vec n 0.0, vec n 0.0, vec n 0.0, vec n 0.0) i) i.
Proof.
  destruct sys as [[[a b] c] d]. intros (La & Lb & Lc & Ld) Hi.
  unfold system_row, continuity_cell.
  rewrite !get_upd_same by (rewrite ?length_vec; lia). reflexivity.
Qed.

Lemma temperature_cell_sized n sys i :
  system_sized n sys -> system_sized n (temperature_cell cfg s sys i).
Proof.
  destruct sys as [[[a b] c] d]. unfold system_sized, temperature_cell.
  rewrite !length_upd. auto.
Qed.

Lemma temperature_cell_other sys i j :
  j <> i ->
  system_row (temperature_cell cfg s sys i) j = system_row sys j.
Proof.
  intros H. destruct sys as [[[a b] c] d].
  unfold system_row, temperature_cell.
  rewrite !get_upd_other by congruence. reflexivity.
Qed.

(** The pressure-correction system: its size and its two boundary rows. *)
Lemma continuity_system_rows aP bP cP dP :
  (2 <= N cfg)%nat ->
  continuity_system cfg s = (aP, bP, cP, dP) ->
  system_sized (N cfg) (aP, bP, cP, dP) /\
  (get bP 0 = 1 /\ get cP 0 = -1 /\ get dP 0 = 0) /\
  (get aP (N cfg - 1) = 0 /\ get bP (N cfg - 1) = 1 /\
   get dP (N cfg - 1) = 0).
Proof.
  intros HN. unfold continuity_system.
  pose proof (system_cells_sized _ continuity_cell_sized (N cfg)
                (range 1 (N cfg - 1)) _ (system_sized_zero (N cfg))) as Hs.
  destruct (fold_left (continuity_cell cfg s) (range 1 (N cfg - 1)) _)
    as [[[a1 b1] c1] d1].
  destruct Hs as (La & Lb & Lc & Ld).
  unfold continuity_bc. intros E. inversion E; subst aP bP cP dP; clear E.
  unfold system_sized. rewrite !length_upd.
  rewrite !get_upd_same by (rewrite ?length_upd; lia).
  rewrite !(get_upd_other _ (N cfg - 1) 0) by lia.
  rewrite !get_upd_same by (rewrite ?length_upd; lia).
  repeat split; auto; lra.
Qed.

(** The size of the pressure-correction system, on any grid. *)
Lemma continuity_system_sized :
  system_sized (N cfg) (continuity_system cfg s).
Proof.
  unfold continuity_system.
  pose proof (system_cells_sized _ continuity_cell_sized (N cfg)
                (range 1 (N cfg - 1)) _ (system_sized_zero (N cfg))) as Hs.
  destruct (fold_left (continuity_cell cfg s) (range 1 (N cfg - 1)) _)
    as [[[a1 b1] c1] d1].
  unfold continuity_bc, system_sized in *. rewrite !length_upd. exact Hs.
Qed.

(** An interior row of the pressure-correction system is the row its pass
    wrote on zeroed vectors. *)
Lemma continuity_system_interior i :
  (0 < i < N cfg - 1)%nat ->
  system_row (continuity_system cfg s) i
  = system_row (continuity_cell cfg s
                  (vec (N cfg) 0.0, vec (N cfg) 0.0,
                   vec (N cfg) 0.0, vec (N cfg) 0.0) i) i.
Proof.
  intros Hi. unfold continuity_system.
  set (z := vec (N cfg) 0.0).
  pose proof (system_cells_row _ continuity_cell_other 1 (N cfg - 1) i
                (z, z, z, z) ltac:(lia)) as Hrow.
  pose proof (system_cells_sized _ continuity_cell_sized (N cfg)
                (range 1 (N cfg - 1)) _ (system_sized_zero (N cfg))) as Hs.
  pose proof (system_cells_sized _ continuity_cell_sized (N cfg)
                (range 1 i) _ (system_sized_zero (N cfg))) as Hsi.
  fold z in Hs, Hsi.
  rewrite (continuity_cell_row (N cfg) _ i Hsi ltac:(lia)) in Hrow.
  fold z in Hrow. rewrite <- Hrow.
  destruct (fold_left (continuity_cell cfg s) (range 1 (N cfg - 1)) _)
    as [[[a1 b1] c1] d1].
  unfold continuity_bc, system_row.
  rewrite !get_upd_other by lia. reflexivity.
Qed.

(** The temperature system: its size and its two boundary rows. *)
Lemma temperature_system_rows aXT bXT cXT dXT :
  (2 <= N cfg)%nat ->
  temperature_system cfg s = (aXT, bXT, cXT, dXT) ->
  system_sized (N cfg) (aXT, bXT, cXT, dXT) /\
  (get bXT 0 = 1 /\ get cXT 0 = -1 /\ get dXT 0 = 0) /\
  (get aXT (N cfg - 1) = -1 /\ get bXT (N cfg - 1) = 1 /\
   get dXT (N cfg - 1) = 0).
Proof.
  intros HN. unfold temperature_system.
  pose proof (system_cells_sized _ temperature_cell_sized (N cfg)
                (range 1 (N cfg - 1)) _ (system_sized_zero (N cfg))) as Hs.
  destruct (fold_left (temperature_cell cfg s) (range 1 (N cfg - 1)) _)
    as [[[a1 b1] c1] d1].
  destruct Hs as (La & Lb & Lc & Ld).
  unfold temperature_bc. intros E. inversion E; subst aXT bXT cXT dXT; clear E.
  unfold system_sized. rewrite !length_upd.
  rewrite !get_upd_same by (rewrite ?length_upd; lia).
  rewrite !(get_upd_other _ (N cfg - 1) 0) by lia.
  rewrite !get_upd_same by (rewrite ?length_upd; lia).
  repeat split; auto; lra.
Qed.

Lemma temperature_system_sized :
  system_sized (N cfg) (temperature_system cfg s).
Proof.
  unfold temperature_system.
  pose proof (system_cells_sized _ temperature_cell_sized (N cfg)
                (range 1 (N cfg - 1)) _ (system_sized_zero (N cfg))) as Hs.
  destruct (fold_left (temperature_cell cfg s) (range 1 (N cfg - 1)) _)
    as [[[a1 b1] c1] d1].
  unfold temperature_bc, system_sized in *. rewrite !length_upd. exact Hs.
Qed.

(** The pressure-correction system reads the fields, not the log. *)
Lemma continuity_system_emit e :
  continuity_system cfg (emit e s) = continuity_system cfg s.
Proof. reflexivity. Qed.

Lemma p_prime_continuity_satisfactor :
  p_prime (continuity_satisfactor cfg s)
  = solution (continuity_system cfg s).
Proof.
  unfold continuity_satisfactor, solution.
  rewrite continuity_system_emit.
  now destruct (continuity_system cfg s) as [[[aP bP] cP] dP].
Qed.

End LocalSystems.

(** ** Facts about the stages: the fields each one leaves alone *)

Section Frames.

Import PISO.
Variable cfg : Config.

Ltac keep_fold proj cell :=
  rewrite (fold_left_keeps proj cell) by (intros; reflexivity).

(** The momentum predictor writes the momentum vectors and the velocity. *)
Lemma momentum_predictor_keeps s :
  let s' := momentum_predictor cfg s in
  p s' = p s /\ T s' = T s /\ p_storage s' = p_storage s /\
  T_old s' = T_old s /\ p_old s' = p_old s /\ p_prime s' = p_prime s /\
  maxErr s' = maxErr s.
Proof.
  cbv zeta.
  unfold momentum_predictor, solve_momentum, assemble_momentum, momentum_bc;
    state_simpl.
  repeat split.
  - now keep_fold p (momentum_cell cfg).
  - now keep_fold T (momentum_cell cfg).
  - now keep_fold p_storage (momentum_cell cfg).
  - now keep_fold T_old (momentum_cell cfg).
  - now keep_fold p_old (momentum_cell cfg).
  - now keep_fold p_prime (momentum_cell cfg).
  - now keep_fold maxErr (momentum_cell cfg).
Qed.

Lemma momentum_predictor_coefficients s :
  let s' := momentum_predictor cfg s in
  aU s' = aU (assemble_momentum cfg s) /\
  bU s' = bU (assemble_momentum cfg s) /\
  cU s' = cU (assemble_momentum cfg s) /\
  dU s' = dU (assemble_momentum cfg s) /\
  u s' = solveTridiagonal (aU (assemble_momentum cfg s))
                          (bU (assemble_momentum cfg s))
                          (cU (assemble_momentum cfg s))
                          (dU (assemble_momentum cfg s)).
Proof.
  cbv zeta. unfold momentum_predictor.
  generalize (assemble_momentum cfg s). intros s1.
  repeat split.
Qed.

(** The continuity stage writes the pressure correction only. *)
Lemma continuity_satisfactor_keeps s :
  let s' := continuity_satisfactor cfg s in
  u s' = u s /\ p s' = p s /\ T s' = T s /\ p_storage s' = p_storage s /\
  T_old s' = T_old s /\ p_old s' = p_old s /\
  aU s' = aU s /\ bU s' = bU s /\ cU s' = cU s /\ dU s' = dU s /\
  maxErr s' = maxErr s.
Proof.
  cbv zeta. unfold continuity_satisfactor.
  destruct (continuity_system cfg (emit AssembleContinuity s))
    as [[[aP bP] cP] dP].
  repeat split.
Qed.

(** The pressure corrector writes the pressure and its buffer only. *)
Lemma pressure_corrector_keeps s :
  let s' := pressure_corrector cfg s in
  u s' = u s /\ T s' = T s /\
  T_old s' = T_old s /\ p_old s' = p_old s /\ p_prime s' = p_prime s /\
  aU s' = aU s /\ bU s' = bU s /\ cU s' = cU s /\ dU s' = dU s /\
  maxErr s' = maxErr s /\
  length (p s') = length (p s) /\
  length (p_storage s') = length (p_storage s).
Proof.
  cbv zeta. unfold pressure_corrector; state_simpl.
  repeat split.
  - now keep_fold u pressure_cell.
  - now keep_fold T pressure_cell.
  - now keep_fold T_old pressure_cell.
  - now keep_fold p_old pressure_cell.
  - now keep_fold p_prime pressure_cell.
  - now keep_fold aU pressure_cell.
  - now keep_fold bU pressure_cell.
  - now keep_fold cU pressure_cell.
  - now keep_fold dU pressure_cell.
  - now keep_fold maxErr pressure_cell.
  - rewrite (fold_left_keeps (fun x => length (p x)) pressure_cell);
      [reflexivity|].
    intros x i. unfold pressure_cell; state_simpl. apply length_upd.
  - rewrite !length_upd.
    rewrite (fold_left_keeps (fun x => length (p_storage x)) pressure_cell);
      [reflexivity|].
    intros x i. unfold pressure_cell; state_simpl. apply length_upd.
Qed.

(** The velocity corrector writes the velocity and the residual only. *)
Lemma velocity_corrector_keeps s :
  let s' := velocity_corrector cfg s in
  p s' = p s /\ T s' = T s /\ p_storage s' = p_storage s /\
  T_old s' = T_old s /\ p_old s' = p_old s /\ p_prime s' = p_prime s /\
  aU s' = aU s /\ bU s' = bU s /\ cU s' = cU s /\ dU s' = dU s /\
  length (u s') = length (u s).
Proof.
  cbv zeta. unfold velocity_corrector.
  repeat split.
  - now keep_fold p (velocity_cell cfg).
  - now keep_fold T (velocity_cell cfg).
  - now keep_fold p_storage (velocity_cell cfg).
  - now keep_fold T_old (velocity_cell cfg).
  - now keep_fold p_old (velocity_cell cfg).
  - now keep_fold p_prime (velocity_cell cfg).
  - now keep_fold aU (velocity_cell cfg).
  - now keep_fold bU (velocity_cell cfg).
  - now keep_fold cU (velocity_cell cfg).
  - now keep_fold dU (velocity_cell cfg).
  - rewrite (fold_left_keeps (fun x => length (u x)) (velocity_cell cfg));
      [reflexivity|].
    intros x i. unfold velocity_cell; state_simpl. apply length_upd.
Qed.

(** The temperature calculator writes the temperature only. *)
Lemma temperature_calculator_keeps s :
  let s' := temperature_calculator cfg s in
  u s' = u s /\ p s' = p s /\ p_storage s' = p_storage s /\
  T_old s' = T_old s /\ p_old s' = p_old s /\ p_prime s' = p_prime s /\
  aU s' = aU s /\ bU s' = bU s /\ cU s' = cU s /\ dU s' = dU s /\
  iter s' = iter s /\ maxErr s' = maxErr s.
Proof.
  cbv zeta. unfold temperature_calculator.
  destruct (temperature_system cfg (emit AssembleEnergy s))
    as [[[aXT bXT] cXT] dXT].
  repeat split.
Qed.

(** The output region writes the file only. *)
Lemma output_keeps it s :
  let s' := output cfg it s in
  u s' = u s /\ p s' = p s /\ T s' = T s /\ p_storage s' = p_storage s /\
  T_old s' = T_old s /\ p_old s' = p_old s /\ p_prime s' = p_prime s /\
  aU s' = aU s /\ bU s' = bU s /\ cU s' = cU s /\ dU s' = dU s /\
  iter s' = iter s /\ maxErr s' = maxErr s /\ log s' = log s.
Proof.
  cbv zeta. unfold output. destruct (last_step cfg it); repeat split.
Qed.

End Frames.

(** ** Facts about the sizes of the vectors *)

Lemma length_solution n sys :
  (1 <= n)%nat -> system_sized n sys -> length (solution sys) = n.
Proof.
  destruct sys as [[[a b] c] d]. intros Hn (_ & Lb & _ & _).
  unfold solution. rewrite length_solveTridiagonal; lia.
Qed.

Section Sizes.

Import PISO.
Variable cfg : Config.
Hypothesis grid : (1 <= N cfg)%nat.

Lemma momentum_predictor_sized s :
  state_sized cfg s -> state_sized cfg (momentum_predictor cfg s).
Proof.
  intros (Lu & Lp & LT & Ls & LTo & Lpo & Lpp & Hm).
  destruct (momentum_predictor_keeps cfg s)
    as (Ep & ET & Es & ETo & Epo & Epp & _).
  destruct (momentum_predictor_coefficients cfg s)
    as (Ea & Eb & Ec & Ed & Eu).
  pose proof (momentum_sized_same _ _ _ (assemble_momentum_size cfg s) Hm)
    as (La & Lb & Lc & Ld).
  unfold state_sized, momentum_sized.
  rewrite Ep, ET, Es, ETo, Epo, Epp, Ea, Eb, Ec, Ed, Eu.
  rewrite length_solveTridiagonal by lia.
  repeat split; assumption.
Qed.

Lemma continuity_satisfactor_sized s :
  state_sized cfg s -> state_sized cfg (continuity_satisfactor cfg s).
Proof.
  intros (Lu & Lp & LT & Ls & LTo & Lpo & Lpp & (La & Lb & Lc & Ld)).
  destruct (continuity_satisfactor_keeps cfg s)
    as (Eu & Ep & ET & Es & ETo & Epo & Ea & Eb & Ec & Ed & _).
  unfold state_sized, momentum_sized.
  rewrite Eu, Ep, ET, Es, ETo, Epo, Ea, Eb, Ec, Ed.
  rewrite p_prime_continuity_satisfactor.
  rewrite (length_solution (N cfg)) by
    (try exact grid; apply continuity_system_sized).
  repeat split; assumption.
Qed.

Lemma pressure_corrector_sized s :
  state_sized cfg s -> state_sized cfg (pressure_corrector cfg s).
Proof.
  intros (Lu & Lp & LT & Ls & LTo & Lpo & Lpp & (La & Lb & Lc & Ld)).
  destruct (pressure_corrector_keeps cfg s)
    as (Eu & ET & ETo & Epo & Epp & Ea & Eb & Ec & Ed & _ & Elp & Els).
  unfold state_sized, momentum_sized.
  rewrite Eu, ET, ETo, Epo, Epp, Ea, Eb, Ec, Ed, Elp, Els.
  repeat split; assumption.
Qed.

Lemma velocity_corrector_sized s :
  state_sized cfg s -> state_sized cfg (velocity_corrector cfg s).
Proof.
  intros (Lu & Lp & LT & Ls & LTo & Lpo & Lpp & (La & Lb & Lc & Ld)).
  destruct (velocity_corrector_keeps cfg s)
    as (Ep & ET & Es & ETo & Epo & Epp & Ea & Eb & Ec & Ed & Elu).
  unfold state_sized, momentum_sized.
  rewrite Ep, ET, Es, ETo, Epo, Epp, Ea, Eb, Ec, Ed, Elu.
  repeat split; assumption.
Qed.

Lemma corrector_round_sized s :
  state_sized cfg s -> state_sized cfg (corrector_round cfg s).
Proof.
  intros H. unfold corrector_round.
  apply velocity_corrector_sized, pressure_corrector_sized,
    continuity_satisfactor_sized, H.
Qed.

Lemma set_iter_sized n s :
  state_sized cfg s -> state_sized cfg (set_iter n s).
Proof. intros H; exact H. Qed.

Lemma piso_body_sized s :
  state_sized cfg s -> state_sized cfg (piso_body cfg s).
Proof.
  intros H. unfold piso_body. apply set_iter_sized.
  generalize (corr_iter cfg). intros k. induction k as [|k IH].
  - apply momentum_predictor_sized, H.
  - rewrite Nat.iter_succ. apply corrector_round_sized, IH.
Qed.

Lemma piso_while_sized fuel : forall s,
  state_sized cfg s -> state_sized cfg (piso_while cfg fuel s).
Proof.
  induction fuel as [|fuel IH]; intros s H; simpl; [exact H|].
  destruct (piso_guard cfg s); [|exact H].
  apply IH, piso_body_sized, H.
Qed.

Lemma temperature_calculator_sized s :
  state_sized cfg s -> state_sized cfg (temperature_calculator cfg s).
Proof.
  intros (Lu & Lp & LT & Ls & LTo & Lpo & Lpp & (La & Lb & Lc & Ld)).
  destruct (temperature_calculator_keeps cfg s)
    as (Eu & Ep & Es & ETo & Epo & Epp & Ea & Eb & Ec & Ed & _).
  unfold state_sized, momentum_sized.
  rewrite Eu, Ep, Es, ETo, Epo, Epp, Ea, Eb, Ec, Ed.
  rewrite T_temperature_calculator.
  rewrite (length_solution (N cfg)) by
    (try exact grid; apply temperature_system_sized).
  repeat split; assumption.
Qed.

Lemma output_sized it s :
  state_sized cfg s -> state_sized cfg (output cfg it s).
Proof.
  intros (Lu & Lp & LT & Ls & LTo & Lpo & Lpp & (La & Lb & Lc & Ld)).
  destruct (output_keeps cfg it s)
    as (Eu & Ep & ET & Es & ETo & Epo & Epp & Ea & Eb & Ec & Ed & _).
  unfold state_sized, momentum_sized.
  rewrite Eu, Ep, ET, Es, ETo, Epo, Epp, Ea, Eb, Ec, Ed.
  repeat split; assumption.
Qed.

Lemma begin_timestep_sized s :
  state_sized cfg s -> state_sized cfg (begin_timestep s).
Proof.
  intros (Lu & Lp & LT & Ls & LTo & Lpo & Lpp & Hm).
  unfold begin_timestep, state_sized; state_simpl.
  repeat split; try assumption; apply Hm.
Qed.

Lemma timestep_sized s it :
  state_sized cfg s -> state_sized cfg (timestep cfg s it).
Proof.
  intros H. unfold timestep, piso_loop.
  apply output_sized, temperature_calculator_sized, piso_while_sized,
    begin_timestep_sized, H.
Qed.

Lemma timesteps_sized l : forall s,
  state_sized cfg s -> state_sized cfg (fold_left (timestep cfg) l s).
Proof.
  induction l as [|it l IH]; intros s H; simpl; [exact H|].
  apply IH, timestep_sized, H.
Qed.

Lemma initial_state_sized : state_sized cfg (initial_state cfg).
Proof.
  unfold state_sized, momentum_sized, initial_state; state_simpl.
  rewrite !length_vec. repeat split.
Qed.

End Sizes.

(** ** Facts about a whole pass of the inner loop *)

Section Pass.

Import PISO.
Variable cfg : Config.

(** The loop of the velocity corrector over [1 .. k]: the value written in
    each cell. *)
Lemma velocity_cells_values s k :
  let s' := fold_left (velocity_cell cfg) (range 1 (S k)) s in
  length (u s') = length (u s) /\
  (forall j, (k < j \/ j < 1)%nat -> get (u s') j = get (u s) j) /\
  (forall j, (1 <= j <= k)%nat -> (j < length (u s))%nat ->
     get (u s') j
     = get (u s) j
       - (get (p_prime s) (j + 1) - get (p_prime s) (j - 1))
         / (2.0 * dz cfg * get (bU s) j)).
Proof.
  cbv zeta. induction k as [|k IH].
  - cbn. repeat split; auto; intros; lia.
  - rewrite range_snoc, fold_left_app by lia. cbn [fold_left].
    destruct IH as (Ll & Hout & Hval).
    assert (Hpp : p_prime (fold_left (velocity_cell cfg) (range 1 (S k)) s)
                  = p_prime s)
      by (apply fold_left_keeps; reflexivity).
    assert (HbU : bU (fold_left (velocity_cell cfg) (range 1 (S k)) s)
                  = bU s)
      by (apply fold_left_keeps; reflexivity).
    set (s1 := fold_left (velocity_cell cfg) (range 1 (S k)) s) in *.
    unfold velocity_cell; state_simpl. rewrite length_upd.
    split; [exact Ll|]. split.
    + intros j Hj. rewrite get_upd_other by lia. apply Hout; lia.
    + intros j Hj Hlen. destruct (Nat.eq_dec j (S k)) as [->|Hne].
      * rewrite get_upd_same by lia.
        rewrite Hpp, HbU, (Hout (S k)) by lia. reflexivity.
      * rewrite get_upd_other by lia. apply Hval; lia.
Qed.

(** The velocity corrector: the boundary cells keep their value and every
    interior cell is corrected by the gradient of the pressure correction. *)
Lemma velocity_corrector_values s :
  let s' := velocity_corrector cfg s in
  (forall j, (j < 1 \/ N cfg - 1 <= j)%nat -> get (u s') j = get (u s) j) /\
  (forall j, (0 < j < N cfg - 1)%nat -> (j < length (u s))%nat ->
     get (u s') j
     = get (u s) j
       - (get (p_prime s) (j + 1) - get (p_prime s) (j - 1))
         / (2.0 * dz cfg * get (bU s) j)).
Proof.
  cbv zeta. unfold velocity_corrector.
  set (s0 := set_maxErr 0.0 (emit CorrectVelocity s)).
  destruct (le_lt_dec 2 (N cfg)) as [H2|H2].
  - pose proof (velocity_cells_values s0 (N cfg - 2)) as H. cbv zeta in H.
    replace (S (N cfg - 2)) with (N cfg - 1)%nat in H by lia.
    destruct H as (_ & Hout & Hval).
    change (u s0) with (u s) in *. change (p_prime s0) with (p_prime s) in *.
    change (bU s0) with (bU s) in *.
    split.
    + intros j Hj. apply Hout. lia.
    + intros j Hj Hl. apply Hval; lia.
  - replace (range 1 (N cfg - 1)) with (@nil nat)
      by (unfold range; now replace (N cfg - 1 - 1)%nat with 0%nat by lia).
    cbn [fold_left]. split; [reflexivity|]. intros j Hj. lia.
Qed.

(** A corrector round keeps the two boundary velocities. *)
Lemma corrector_round_ends s j :
  (j < 1 \/ N cfg - 1 <= j)%nat ->
  get (u (corrector_round cfg s)) j = get (u s) j.
Proof.
  intros Hj. unfold corrector_round.
  destruct (velocity_corrector_values
              (pressure_corrector cfg (continuity_satisfactor cfg s)))
    as [Hout _].
  rewrite Hout by exact Hj. now rewrite u_before_velocity_corrector.
Qed.

Lemma corrector_rounds_ends n s j :
  (j < 1 \/ N cfg - 1 <= j)%nat ->
  get (u (Nat.iter n (corrector_round cfg) s)) j = get (u s) j.
Proof.
  intros Hj. induction n as [|n IH]; [reflexivity|].
  rewrite Nat.iter_succ, corrector_round_ends by exact Hj. exact IH.
Qed.

(** The boundary velocities after the momentum predictor. *)
Lemma momentum_predictor_ends s :
  (2 <= N cfg)%nat ->
  momentum_sized (N cfg) s ->
  pivots_nonzero (aU (assemble_momentum cfg s)) (bU (assemble_momentum cfg s))
                 (cU (assemble_momentum cfg s)) (dU (assemble_momentum cfg s)) ->
  get (u (momentum_predictor cfg s)) 0 = u_inlet cfg /\
  get (u (momentum_predictor cfg s)) (N cfg - 1) = u_outlet cfg.
Proof.
  intros HN Hsz Hp.
  destruct (assemble_momentum_bc_rows cfg s HN Hsz)
    as [(Hb0 & Hc0 & Hd0) (Ha & Hb & Hd)].
  pose proof (momentum_sized_same _ _ _ (assemble_momentum_size cfg s) Hsz)
    as (_ & Lb & _ & _).
  unfold momentum_predictor. rewrite u_solve_momentum.
  split.
  - exact (dirichlet_first _ _ _ _ _ _ _ HN Lb Hp Hb0 Hc0 Hd0).
  - exact (dirichlet_last _ _ _ _ _ _ _ HN Lb Hp Ha Hb Hd).
Qed.

Lemma u_piso_body s :
  u (piso_body cfg s)
  = u (Nat.iter (corr_iter cfg) (corrector_round cfg)
                (momentum_predictor cfg s)).
Proof. reflexivity. Qed.

(** Interior rows of the pressure-correction system: the entries the pass
    of cell [i] writes. *)
Lemma continuity_interior_entries s i :
  (0 < i < N cfg - 1)%nat ->
  let rho_l := 0.5 * (rho_at s (i - 1) + rho_at s i) in
  let d_l := 0.5 * (1.0 / get (bU s) (i - 1) + 1.0 / get (bU s) i) in
  let rho_r := 0.5 * (rho_at s i + rho_at s (i + 1)) in
  let d_r := 0.5 * (1.0 / get (bU s) i + 1.0 / get (bU s) (i + 1)) in
  let '(aP, bP, cP, dP) := continuity_system cfg s in
  get aP i = - (rho_l * d_l / dz cfg) /\
  get cP i = - (rho_r * d_r / dz cfg) /\
  get bP i = rho_l * d_l / dz cfg + rho_r * d_r / dz cfg.
Proof.
  intros Hi. cbv zeta.
  pose proof (continuity_system_interior cfg s i Hi) as Hrow.
  destruct (continuity_system cfg s) as [[[aP bP] cP] dP].
  unfold system_row, continuity_cell in Hrow.
  rewrite !get_upd_same in Hrow by (rewrite length_vec; lia).
  inversion Hrow as [[Ha Hb Hc Hd]].
  repeat split.
Qed.

End Pass.

(** ** Facts about the ends of the pressure correction and of the temperature *)

Section Ends.

Import PISO.
Variable cfg : Config.

Lemma continuity_solution_ends s :
  (2 <= N cfg)%nat ->
  system_pivots_nonzero (continuity_system cfg s) ->
  get (solution (continuity_system cfg s)) (N cfg - 1) = 0 /\
  get (solution (continuity_system cfg s)) 0
  = get (solution (continuity_system cfg s)) 1.
Proof.
  intros HN Hp.
  destruct (continuity_system cfg s) as [[[aP bP] cP] dP] eqn:E.
  destruct (continuity_system_rows cfg s aP bP cP dP HN E)
    as ((_ & Lb & _ & _) & (Hb0 & Hc0 & Hd0) & (Ha & Hb & Hd)).
  unfold system_pivots_nonzero in Hp. unfold solution. split.
  - apply (dirichlet_last aP bP cP dP (N cfg) 1 0); auto. rewrite Hd. lra.
  - apply (zero_gradient_first aP bP cP dP (N cfg)); auto.
Qed.

Lemma temperature_solution_ends s :
  (2 <= N cfg)%nat ->
  system_pivots_nonzero (temperature_system cfg s) ->
  get (solution (temperature_system cfg s)) 0
  = get (solution (temperature_system cfg s)) 1 /\
  get (solution (temperature_system cfg s)) (N cfg - 1)
  = get (solution (temperature_system cfg s)) (N cfg - 2).
Proof.
  intros HN Hp.
  destruct (temperature_system cfg s) as [[[aXT bXT] cXT] dXT] eqn:E.
  destruct (temperature_system_rows cfg s aXT bXT cXT dXT HN E)
    as ((_ & Lb & _ & _) & (Hb0 & Hc0 & Hd0) & (Ha & Hb & Hd)).
  unfold system_pivots_nonzero in Hp. unfold solution. split.
  - apply (zero_gradient_first aXT bXT cXT dXT (N cfg)); auto.
  - apply (zero_gradient_end aXT bXT cXT dXT (N cfg)); auto.
Qed.

(** The pressure after a corrector round is the pressure the pressure
    corrector left. *)
Lemma p_corrector_round s :
  p (corrector_round cfg s)
  = p (pressure_corrector cfg (continuity_satisfactor cfg s)).
Proof.
  unfold corrector_round.
  now destruct (velocity_corrector_keeps cfg
                  (pressure_corrector cfg (continuity_satisfactor cfg s)))
    as (Ep & _).
Qed.

(** The corrected pressure of a corrector round, cell by cell. *)
Lemma p_corrector_round_cells s i :
  length (p s) = N cfg -> length (p_storage s) = (N cfg + 2)%nat ->
  (i < N cfg)%nat ->
  get (p (corrector_round cfg s)) i
  = get (p s) i + get (solution (continuity_system cfg s)) i.
Proof.
  intros Lp Ls Hi. rewrite p_corrector_round. unfold pressure_corrector.
  set (s1 := continuity_satisfactor cfg s).
  destruct (continuity_satisfactor_keeps cfg s)
    as (_ & Ep & _ & Es & _). fold s1 in Ep, Es.
  set (s0 := emit UpdatePressure s1).
  pose proof (pressure_cells_inv s0 (N cfg)) as H. cbv zeta in H.
  change (p s0) with (p s1) in H.
  change (p_storage s0) with (p_storage s1) in H.
  change (p_prime s0) with (p_prime s1) in H.
  rewrite Ep, Es in H.
  destruct (H ltac:(lia) ltac:(lia)) as (_ & _ & _ & _ & Hupd & _).
  state_simpl. rewrite (Hupd i Hi).
  unfold s1. now rewrite p_prime_continuity_satisfactor.
Qed.

End Ends.

(** Pivots of a system on three cells. *)
Lemma pivots_nonzero_three_cells (a b c d : list R) :
  length b = 3%nat ->
  get b 0 <> 0 ->
  get b 1 - get a 1 * (get c 0 / get b 0) <> 0 ->
  get b 2 - get a 2 * (get c 1 / (get b 1 - get a 1 * (get c 0 / get b 0)))
  <> 0 ->
  pivots_nonzero a b c d.
Proof.
  intros Lb Hb0 Hm1 Hm2. split; [exact Hb0|].
  intros i Hi. rewrite Lb in Hi. unfold pivot.
  destruct (forward_sweep a b c d) as [cs ds] eqn:E.
  destruct (forward_sweep_spec a b c d cs ds ltac:(lia) E)
    as (_ & _ & Hcs0 & _ & Hfw).
  cbn [fst]. assert (Hc : i = 1%nat \/ i = 2%nat) by lia.
  destruct (Hfw 1%nat ltac:(lia)) as [Hcs1 _].
  change (1 - 1)%nat with 0%nat in Hcs1. rewrite Hcs0 in Hcs1.
  destruct Hc as [-> | ->].
  - change (1 - 1)%nat with 0%nat. rewrite Hcs0. exact Hm1.
  - change (2 - 1)%nat with 1%nat. rewrite Hcs1. exact Hm2.
Qed.

(** ** The local systems of the three-cell grid *)

Section TemperatureRows.

Import PISO.
Variable cfg : Config.
Variable s : State.

Lemma temperature_cell_row n sys i :
  system_sized n sys -> (i < n)%nat ->
  system_row (temperature_cell cfg s sys i) i
  = system_row (temperature_cell cfg s
                  (vec n 0.0, vec n 0.0, vec n 0.0, vec n 0.0) i) i.
Proof.
  destruct sys as [[[a b] c] d]. intros (La & Lb & Lc & Ld) Hi.
  unfold system_row, temperature_cell.
  rewrite !get_upd_same by (rewrite ?length_vec; lia). reflexivity.
Qed.

Lemma temperature_system_interior i :
  (0 < i < N cfg - 1)%nat ->
  system_row (temperature_system cfg s) i
  = system_row (temperature_cell cfg s
                  (vec (N cfg) 0.0, vec (N cfg) 0.0,
                   vec (N cfg) 0.0, vec (N cfg) 0.0) i) i.
Proof.
  intros Hi. unfold temperature_system.
  set (z := vec (N cfg) 0.0).
  pose proof (system_cells_row _ (temperature_cell_other cfg s) 1
                (N cfg - 1) i (z, z, z, z) ltac:(lia)) as Hrow.
  pose proof (system_cells_sized _ (temperature_cell_sized cfg s) (N cfg)
                (range 1 i) _ (system_sized_zero (N cfg))) as Hsi.
  fold z in Hsi.
  rewrite (temperature_cell_row (N cfg) _ i Hsi ltac:(lia)) in Hrow.
  fold z in Hrow. rewrite <- Hrow.
  destruct (fold_left (temperature_cell cfg s) (range 1 (N cfg - 1)) _)
    as [[[a1 b1] c1] d1].
  unfold temperature_bc, system_row.
  rewrite !get_upd_other by lia. reflexivity.
Qed.

End TemperatureRows.

Section SmallGridSystems.

Import PISO.

#[local] Abbreviation cfg := small_config.
#[local] Abbreviation s := (initial_state small_config).

Lemma small_grid_state_sized : state_sized cfg s.
Proof. apply initial_state_sized. Qed.

Lemma small_grid_seed :
  forall j, (j < 3)%nat ->
    get (bU s) j
    = value (liquid_sodium.rho T_init) * (1.0 / (3 - 1)) / 0.1
      + 2 * value (liquid_sodium.mu T_init) / (1.0 / (3 - 1)).
Proof. intros j Hj. apply get_vec. exact Hj. Qed.

Lemma small_grid_seed_positive :
  0 < value (liquid_sodium.rho T_init) * (1.0 / (3 - 1)) / 0.1
      + 2 * value (liquid_sodium.mu T_init) / (1.0 / (3 - 1)).
Proof.
  assert (Hrho : 219 <= value (liquid_sodium.rho T_init)).
  { unfold liquid_sodium.rho, liquid_sodium.Tcrit, value, T_init; simpl fst.
    apply sodium_density_positive. lra. }
  assert (Hmu : 0 < value (liquid_sodium.mu T_init))
    by apply sodium_viscosity_positive.
  lra.
Qed.

Lemma small_grid_temperature :
  forall j, (j < 3)%nat -> get (T s) j = 600.
Proof. intros j Hj. apply get_vec. exact Hj. Qed.

Lemma small_grid_continuity_pivots :
  system_pivots_nonzero (continuity_system cfg s).
Proof.
  pose proof (continuity_interior_entries cfg s 1 ltac:(simpl; lia)) as Hin.
  cbv zeta in Hin.
  destruct (continuity_system cfg s) as [[[aP bP] cP] dP] eqn:E.
  destruct (continuity_system_rows cfg s aP bP cP dP small_grid_two E)
    as ((_ & Lb & _ & _) & (Hb0 & Hc0 & _) & (Ha & Hb & _)).
  destruct Hin as (Ha1 & Hc1 & Hb1).
  change (N cfg - 1)%nat with 2%nat in Ha, Hb.
  change (N cfg) with 3%nat in Lb.
  apply pivots_nonzero_three_cells; auto.
  - rewrite Hb0. lra.
  - rewrite Hb0, Hc0, Ha1, Hb1.
    change (1 - 1)%nat with 0%nat. change (1 + 1)%nat with 2%nat.
    rewrite !small_grid_seed by lia.
    pose proof small_grid_seed_positive as HB.
    set (B := value (liquid_sodium.rho T_init) * (1.0 / (3 - 1)) / 0.1
              + 2 * value (liquid_sodium.mu T_init) / (1.0 / (3 - 1))) in *.
    unfold rho_at. rewrite !small_grid_temperature by lia.
    assert (Hrho : 219 <= value (liquid_sodium.rho 600)).
    { unfold liquid_sodium.rho, liquid_sodium.Tcrit, value; simpl fst.
      apply sodium_density_positive. lra. }
    set (rho := value (liquid_sodium.rho 600)) in *.
    change (dz cfg) with (1.0 / (3 - 1)).
    assert (Hi : 0 < 1.0 / B) by (apply Rdiv_lt_0_compat; lra).
    set (iB := 1.0 / B) in *.
    assert (0 < 0.5 * (rho + rho) * (0.5 * (iB + iB))) by nra.
    intros H0. lra.
  - rewrite Ha, Hb. lra.
Qed.

Lemma small_grid_conductivity : 0 < value (liquid_sodium.k 600).
Proof. unfold liquid_sodium.k, value; simpl fst. lra. Qed.

Lemma small_grid_specific_heat : 0 < value (liquid_sodium.cp 600).
Proof. unfold liquid_sodium.cp, value; simpl fst. lra. Qed.

Lemma small_grid_faces_plain :
  u_l_face cfg s 1 = 0.001 /\ u_r_face cfg s 1 = 0.001.
Proof. exact small_grid_faces. Qed.

Lemma small_grid_temperature_pivots :
  system_pivots_nonzero (temperature_system cfg s).
Proof.
  pose proof (temperature_system_interior cfg s 1 ltac:(simpl; lia)) as Hin.
  destruct (temperature_system cfg s) as [[[aXT bXT] cXT] dXT] eqn:E.
  destruct (temperature_system_rows cfg s aXT bXT cXT dXT small_grid_two E)
    as ((_ & Lb & _ & _) & (Hb0 & Hc0 & _) & (Ha & Hb & _)).
  change (N cfg - 1)%nat with 2%nat in Ha, Hb.
  change (N cfg) with 3%nat in Lb, Hin.
  unfold system_row, temperature_cell in Hin.
  rewrite !get_upd_same in Hin by (rewrite length_vec; lia).
  destruct small_grid_faces_plain as [Hl Hr]. rewrite Hl, Hr in Hin.
  unfold rho_at, k_at, cp_at in Hin.
  change (1 - 1)%nat with 0%nat in Hin. change (1 + 1)%nat with 2%nat in Hin.
  rewrite !small_grid_temperature in Hin by lia.
  destruct (Rge_dec 0.001 0) as [_|Hn]; [|lra].
  change (dz cfg) with (1.0 / (3 - 1)) in Hin. change (dt cfg) with 0.1 in Hin.
  assert (Hrho : 219 <= value (liquid_sodium.rho 600)).
  { unfold liquid_sodium.rho, liquid_sodium.Tcrit, value; simpl fst.
    apply sodium_density_positive. lra. }
  pose proof small_grid_conductivity as Hk.
  pose proof small_grid_specific_heat as Hcp.
  set (rho := value (liquid_sodium.rho 600)) in *.
  set (k := value (liquid_sodium.k 600)) in *.
  set (cp := value (liquid_sodium.cp 600)) in *.
  assert (HC : 0 <= rho * 0.001 * cp) by nra.
  set (C := rho * 0.001 * cp) in *.
  rewrite (Rmax_left C 0.0) in Hin by lra.
  rewrite (Rmax_right (- C) 0.0) in Hin by lra.
  inversion Hin as [[Ha1 Hb1 Hc1 Hd1]]. clear Hin.
  assert (Hq : 0 < rho * cp * (1.0 / (3 - 1)) / 0.1) by nra.
  set (q := rho * cp * (1.0 / (3 - 1)) / 0.1) in *.
  set (D := 0.5 * (k + k) / (1.0 / (3 - 1))) in *.
  assert (HD : 0 < D) by (unfold D; lra).
  apply pivots_nonzero_three_cells; auto.
  - rewrite Hb0. lra.
  - rewrite Hb0, Hc0, Ha1, Hb1. lra.
  - rewrite Hb0, Hc0, Ha, Hb, Ha1, Hb1, Hc1.
    replace (C - 0.0 + D + D + q - (- D - C) * (-1 / 1)) with (D + q) by lra.
    assert (Hdq : 0 < D + q) by lra.
    set (m := D + q) in *.
    assert (Hc : (- D + 0.0) / m = - D / m) by (f_equal; lra).
    rewrite Hc.
    assert (Hpos : 0 < q / m) by (apply Rdiv_lt_0_compat; lra).
    assert (Hsum : D / m + q / m = 1) by (unfold m; field; lra).
    assert (Hneg : - D / m = - (D / m)) by (field; lra).
    rewrite Hneg. lra.
Qed.

End SmallGridSystems.

(** ** Facts about the loops of a run *)

Lemma length_range lo hi : length (range lo hi) = (hi - lo)%nat.
Proof. unfold range. apply length_seq. Qed.

Section Run.

Import PISO.
Variable cfg : Config.

Lemma piso_loop_no_pass s :
  tot_iter cfg = 0%nat \/ 1 <= tol cfg ->
  piso_loop cfg (begin_timestep s) = begin_timestep s.
Proof.
  intros H. rewrite piso_loop_unfold.
  assert (G : piso_guard cfg (begin_timestep s) = false).
  { apply piso_guard_false.
    change (iter (begin_timestep s)) with 0%nat.
    change (maxErr (begin_timestep s)) with 1.0.
    destruct H as [H|H]; [left; lia|right; lra]. }
  now rewrite G.
Qed.

Lemma piso_loop_first_pass s :
  (1 <= tot_iter cfg)%nat -> tol cfg < 1 ->
  piso_loop cfg (begin_timestep s)
  = piso_loop cfg (piso_body cfg (begin_timestep s)) /\
  (1 <= iter (piso_loop cfg (begin_timestep s)))%nat.
Proof.
  intros Ht Htol.
  assert (G : piso_guard cfg (begin_timestep s) = true).
  { apply piso_guard_true.
    change (iter (begin_timestep s)) with 0%nat.
    change (maxErr (begin_timestep s)) with 1.0. split; [lia|lra]. }
  assert (E : piso_loop cfg (begin_timestep s)
              = piso_loop cfg (piso_body cfg (begin_timestep s))).
  { rewrite piso_loop_unfold at 1. now rewrite G. }
  split; [exact E|]. rewrite E.
  destruct (piso_loop_log cfg (piso_body cfg (begin_timestep s)))
    as (Hle & _).
  rewrite iter_piso_body in Hle. lia.
Qed.

Lemma maxErr_set_iter n s : maxErr (set_iter n s) = maxErr s.
Proof. reflexivity. Qed.

Lemma piso_body_rounds s :
  piso_body cfg s
  = set_iter (S (iter (Nat.iter (corr_iter cfg) (corrector_round cfg)
                                (momentum_predictor cfg s))))
             (Nat.iter (corr_iter cfg) (corrector_round cfg)
                       (momentum_predictor cfg s)).
Proof. reflexivity. Qed.

(** Without corrector rounds a pass leaves the residual as it was. *)
Lemma maxErr_piso_body_no_round s :
  corr_iter cfg = 0%nat -> maxErr (piso_body cfg s) = maxErr s.
Proof.
  intros H. rewrite piso_body_rounds, maxErr_set_iter, H.
  change (Nat.iter 0 (corrector_round cfg) (momentum_predictor cfg s))
    with (momentum_predictor cfg s).
  destruct (momentum_predictor_keeps cfg s)
    as (_ & _ & _ & _ & _ & _ & Em).
  exact Em.
Qed.

Lemma piso_while_full_budget :
  corr_iter cfg = 0%nat ->
  forall fuel s,
    maxErr s > tol cfg -> (iter s <= tot_iter cfg)%nat ->
    fuel = (tot_iter cfg - iter s)%nat ->
    iter (piso_while cfg fuel s) = tot_iter cfg /\
    maxErr (piso_while cfg fuel s) = maxErr s.
Proof.
  intros Hc. induction fuel as [|fuel IH]; intros s Hm Hi Hf; simpl.
  - split; [lia|reflexivity].
  - assert (G : piso_guard cfg s = true)
      by (apply piso_guard_true; split; [lia|exact Hm]).
    rewrite G.
    destruct (IH (piso_body cfg s)) as [H1 H2].
    + rewrite maxErr_piso_body_no_round by exact Hc. exact Hm.
    + rewrite iter_piso_body. lia.
    + rewrite iter_piso_body. lia.
    + split; [exact H1|].
      rewrite H2. apply maxErr_piso_body_no_round, Hc.
Qed.

(** The log of one timestep. *)
Lemma log_timestep s it :
  exists passes,
    (passes <= tot_iter cfg)%nat /\
    log (timestep cfg s it)
    = log s ++ concat (repeat (pass_stages (corr_iter cfg)) passes)
      ++ [AssembleEnergy; SolveEnergy].
Proof.
  set (s1 := piso_loop cfg (begin_timestep s)).
  exists (iter s1).
  destruct (piso_loop_log cfg (begin_timestep s)) as (_ & Hb & _ & Hl).
  fold s1 in Hb, Hl.
  change (iter (begin_timestep s)) with 0%nat in Hb, Hl.
  change (log (begin_timestep s)) with (log s) in Hl.
  rewrite Nat.sub_0_r in Hl.
  split; [apply Hb; lia|].
  unfold timestep. fold s1.
  rewrite log_output, log_temperature_calculator, Hl, <- app_assoc.
  reflexivity.
Qed.

Lemma pass_stages_counts c :
  entered SolveMomentum (pass_stages c) = 1%nat /\
  entered SolveContinuity (pass_stages c) = c /\
  entered SolveEnergy (pass_stages c) = 0%nat /\
  entered AssembleEnergy (pass_stages c) = 0%nat.
Proof. rewrite !entered_pass_stages. cbn. repeat split; lia. Qed.

Lemma timestep_counts s it :
  exists passes,
    (passes <= tot_iter cfg)%nat /\
    entered SolveMomentum (log (timestep cfg s it))
    = (entered SolveMomentum (log s) + passes)%nat /\
    entered SolveContinuity (log (timestep cfg s it))
    = (entered SolveContinuity (log s) + corr_iter cfg * passes)%nat /\
    entered SolveEnergy (log (timestep cfg s it))
    = S (entered SolveEnergy (log s)) /\
    entered AssembleEnergy (log (timestep cfg s it))
    = S (entered AssembleEnergy (log s)).
Proof.
  destruct (log_timestep s it) as (k & Hk & Hl).
  destruct (pass_stages_counts (corr_iter cfg)) as (E1 & E2 & E3 & E4).
  exists k. split; [exact Hk|].
  rewrite Hl, !entered_app, !entered_concat_repeat, E1, E2, E3, E4.
  cbn. repeat split; lia.
Qed.

Lemma log_timesteps l : forall s,
  entered SolveEnergy (log (fold_left (timestep cfg) l s))
  = (entered SolveEnergy (log s) + length l)%nat /\
  entered AssembleEnergy (log (fold_left (timestep cfg) l s))
  = (entered AssembleEnergy (log s) + length l)%nat /\
  exists passes,
    (passes <= length l * tot_iter cfg)%nat /\
    entered SolveMomentum (log (fold_left (timestep cfg) l s))
    = (entered SolveMomentum (log s) + passes)%nat /\
    entered SolveContinuity (log (fold_left (timestep cfg) l s))
    = (entered SolveContinuity (log s) + corr_iter cfg * passes)%nat.
Proof.
  induction l as [|it l IH]; intros s; cbn [fold_left length].
  - split; [lia|]. split; [lia|]. exists 0%nat. repeat split; lia.
  - destruct (IH (timestep cfg s it)) as (H1 & H2 & (k' & Hk' & H3 & H4)).
    destruct (timestep_counts s it) as (k & Hk & T1 & T2 & T3 & T4).
    rewrite T3 in H1. rewrite T4 in H2. rewrite T1 in H3. rewrite T2 in H4.
    split; [lia|]. split; [lia|].
    exists (k + k')%nat. repeat split; nia.
Qed.

(** [it == t_iter - 1] holds for the last timestep only. *)
Lemma last_step_spec it :
  last_step cfg it = true <-> S it = t_iter cfg.
Proof. unfold last_step. rewrite Z.eqb_eq. lia. Qed.

Lemma fout_timesteps_before_last l : forall s,
  (forall it, In it l -> last_step cfg it = false) ->
  fout (fold_left (timestep cfg) l s)
  = fout s ++ concat (repeat [Blank; Blank] (length l)).
Proof.
  induction l as [|it l IH]; intros s H; cbn [fold_left length].
  - cbn. now rewrite app_nil_r.
  - rewrite IH by (intros; apply H; now right).
    rewrite fout_timestep. rewrite (H it) by now left.
    cbn [repeat concat]. now rewrite <- !app_assoc.
Qed.

Lemma time_loop_last m s :
  t_iter cfg = S m ->
  time_loop cfg s
  = timestep cfg (fold_left (timestep cfg) (range 0 m) s) m.
Proof.
  intros H. unfold time_loop. rewrite H.
  rewrite range_snoc, fold_left_app by lia. reflexivity.
Qed.

End Run.

(** ** More facts about the property functions *)

Lemma density_bounds (T1 T2 : R) :
  T1 <= T2 -> T2 <= 2509.46 ->
  219 <= 219.0 + 275.32 * (1.0 - T2 / 2509.46)
         + 511.58 * sqrt (1.0 - T2 / 2509.46)
  /\ 219.0 + 275.32 * (1.0 - T2 / 2509.46)
     + 511.58 * sqrt (1.0 - T2 / 2509.46)
     <= 219.0 + 275.32 * (1.0 - T1 / 2509.46)
        + 511.58 * sqrt (1.0 - T1 / 2509.46).
Proof.
  intros H12 H2.
  assert (Hq : 0 <= 1.0 - T2 / 2509.46) by lra.
  assert (Hle : 1.0 - T2 / 2509.46 <= 1.0 - T1 / 2509.46) by lra.
  pose proof (sqrt_pos (1.0 - T2 / 2509.46)) as Hs.
  pose proof (sqrt_le_1_alt _ _ Hle) as Hm.
  split; nra.
Qed.

Lemma viscosity_decreasing (T1 T2 : R) :
  0 < T1 -> T1 < T2 ->
  exp (-6.4406 - 0.3958 * ln T2 + 556.835 / T2)
  < exp (-6.4406 - 0.3958 * ln T1 + 556.835 / T1).
Proof.
  intros H1 H12. apply exp_increasing.
  assert (Hln : ln T1 < ln T2) by (apply ln_increasing; lra).
  assert (Hinv : / T2 < / T1).
  { apply Rinv_lt_contravar; [|exact H12].
    apply Rmult_lt_0_compat; lra. }
  unfold Rdiv. nra.
Qed.

Lemma specific_heat_bound (T : R) :
  1250 <= 1436.72 - 0.58 * (T - 273.15)
          + 4.627e-4 * (T - 273.15) * (T - 273.15).
Proof.
  set (x := T - 273.15).
  pose proof (pow2_ge_0 (x - 626.7)) as Hsq.
  replace ((x - 626.7) ^ 2) with ((x - 626.7) * (x - 626.7)) in Hsq by ring.
  nra.
Qed.

(** ** More facts about the source vectors *)

Lemma get_upd (l : list R) i j v :
  get (upd l i v) j
  = if ((j =? i) && (i <? length l))%nat then v else get l j.
Proof.
  destruct (Nat.eqb_spec j i) as [->|Hne]; cbn [andb].
  - destruct (Nat.ltb_spec i (length l)) as [Hi|Hi].
    + apply get_upd_same, Hi.
    + assert (E : upd l i v = l).
      { clear -Hi. revert i Hi.
        induction l as [|h t IH]; intros [|i] Hi; simpl in *;
          try reflexivity; try lia.
        f_equal. apply IH. lia. }
      now rewrite E.
  - apply get_upd_other. congruence.
Qed.

Lemma sum_scaled (k : R) (l : list R) :
  sum (map (Rmult k) l) = k * sum l.
Proof.
  unfold sum. induction l as [|x l IH]; simpl; [lra|]. rewrite IH. lra.
Qed.

Lemma sum_init_Sm n : (5 <= n)%nat -> sum (PISO.init_Sm n) = 1.
Proof.
  intros Hn. pose proof (init_Sm_segments n Hn) as Hseg. cbv zeta in Hseg.
  rewrite Hseg, !sum_app, !sum_repeat.
  pose proof (Nat.div_mod_eq n 5) as Hdiv.
  pose proof (Nat.mod_upper_bound n 5 ltac:(lia)) as Hmod.
  assert (Hf1 : (1 <= n / 5)%nat) by lia.
  rewrite (minus_INR (n / 5) 1 Hf1). unfold sum; simpl. lra.
Qed.

(** The energy source is filled by the same tests as the mass source. *)
Lemma St_cells_scaled n l :
  forall St Sm,
    length St = length Sm ->
    (forall j, get St j = 1000000 * get Sm j) ->
    length (fold_left (PISO.St_cell n) l St)
    = length (fold_left (PISO.Sm_cell n) l Sm) /\
    (forall j, get (fold_left (PISO.St_cell n) l St) j
               = 1000000 * get (fold_left (PISO.Sm_cell n) l Sm) j).
Proof.
  induction l as [|i l IH]; intros St Sm Hl Hg; simpl; [auto|].
  apply IH.
  - unfold PISO.St_cell, PISO.Sm_cell.
    change (PISO.energy_source_nodes n) with (PISO.mass_source_nodes n).
    change (PISO.energy_sink_nodes n) with (PISO.mass_sink_nodes n).
    destruct (_ && _)%bool; [now rewrite !length_upd|].
    destruct (_ && _)%bool; [now rewrite !length_upd|exact Hl].
  - intros j. unfold PISO.St_cell, PISO.Sm_cell.
    change (PISO.energy_source_nodes n) with (PISO.mass_source_nodes n).
    change (PISO.energy_sink_nodes n) with (PISO.mass_sink_nodes n).
    destruct (_ && _)%bool.
    + rewrite !get_upd, Hl. destruct (_ && _)%bool; [lra|apply Hg].
    + destruct (_ && _)%bool.
      * rewrite !get_upd, Hl. destruct (_ && _)%bool; [lra|apply Hg].
      * apply Hg.
Qed.

Lemma get_vec_zero n j : get (vec n 0.0) j = 0.
Proof.
  destruct (le_lt_dec n j) as [H|H].
  - unfold get. apply nth_overflow. rewrite length_vec. exact H.
  - rewrite get_vec by exact H. lra.
Qed.

Lemma init_St_scaled n :
  PISO.init_St n = map (Rmult 1000000) (PISO.init_Sm n).
Proof.
  unfold PISO.init_St, PISO.init_Sm.
  destruct (St_cells_scaled n (range 1 (n - 1)) (vec n 0.0) (vec n 0.0))
    as [Hl Hg]; [reflexivity|intros j; rewrite get_vec_zero; lra|].
  apply (nth_ext _ _ 0 (1000000 * 0)).
  - now rewrite length_map.
  - intros j Hj. rewrite map_nth. apply Hg.
Qed.

Lemma early_St_cells_same n l :
  forall v, fold_left (PISO_early.St_cell n) l v
            = fold_left (PISO.Sm_cell n) l v.
Proof.
  induction l as [|i l IH]; intros v; simpl; [reflexivity|].
  rewrite IH. reflexivity.
Qed.
(** ** Facts about the SIMPLEC program *)

(** The thermal conductivity correlation falls with the temperature and
    is still positive at 2500 K. *)
Lemma conductivity_decreasing (T1 T2 : R) :
  T1 < T2 ->
  124.67 - 0.11381 * T2 + 5.5226e-5 * T2 * T2 - 1.1842e-8 * T2 * T2 * T2
  < 124.67 - 0.11381 * T1 + 5.5226e-5 * T1 * T1 - 1.1842e-8 * T1 * T1 * T1.
Proof.
  intros H.
  assert (Hg : 0 < 0.11381 - 5.5226e-5 * (T1 + T2)
                   + 1.1842e-8 * (T1 * T1 + T1 * T2 + T2 * T2)).
  { pose proof (pow2_ge_0 (T1 - T2)) as H1.
    pose proof (pow2_ge_0 (T1 + T2 - 3108)) as H2.
    replace ((T1 - T2) ^ 2) with ((T1 - T2) * (T1 - T2)) in H1 by ring.
    replace ((T1 + T2 - 3108) ^ 2)
      with ((T1 + T2 - 3108) * (T1 + T2 - 3108)) in H2 by ring.
    nra. }
  assert (Hd : 0 < (T2 - T1)
                   * (0.11381 - 5.5226e-5 * (T1 + T2)
                      + 1.1842e-8 * (T1 * T1 + T1 * T2 + T2 * T2))).
  { apply Rmult_lt_0_compat; lra. }
  nra.
Qed.

Lemma conductivity_positive (T : R) :
  T <= 2500 ->
  0 < 124.67 - 0.11381 * T + 5.5226e-5 * T * T - 1.1842e-8 * T * T * T.
Proof.
  intros H. destruct (Rle_lt_or_eq_dec _ _ H) as [Hlt | ->].
  - pose proof (conductivity_decreasing T 2500 Hlt). lra.
  - lra.
Qed.

(** *** Matrices whose rows sum to zero between a zero-gradient row and a
    fixed-value row *)

(** With first row [(1, -1)], last row [(0, 1)] and every row between
    them of sum zero, elimination keeps [c_star] at [-1] and meets the
    pivots [1], [-c[1]], ..., [-c[n-2]], [1]. *)
Lemma zero_sum_rows_pivots (a b c d : list R) (n : nat) :
  (2 <= n)%nat -> length b = n ->
  get b 0 = 1 -> get c 0 = -1 ->
  (forall i, (1 <= i < n - 1)%nat ->
             get a i + get b i + get c i = 0 /\ get c i <> 0) ->
  get a (n - 1) = 0 -> get b (n - 1) = 1 ->
  pivots_nonzero a b c d /\
  (forall i, (1 <= i < n - 1)%nat -> pivot a b c d i = - get c i).
Proof.
  intros Hn Lb Hb0 Hc0 Hin Ha Hb.
  unfold pivots_nonzero, pivot.
  destruct (forward_sweep a b c d) as [cs ds] eqn:E. cbn [fst].
  destruct (forward_sweep_spec a b c d cs ds ltac:(lia) E)
    as (_ & _ & H0 & _ & Hfw).
  assert (Hcs : forall i, (i < n - 1)%nat -> get cs i = -1).
  { induction i as [|i IH]; intros Hi.
    - rewrite H0, Hb0, Hc0. lra.
    - destruct (Hfw (S i) ltac:(lia)) as [Hc _].
      destruct (Hin (S i) ltac:(lia)) as (Hsum & Hnz).
      rewrite Hc. replace (S i - 1)%nat with i by lia.
      rewrite IH by lia.
      replace (get b (S i) - get a (S i) * -1) with (- get c (S i)) by lra.
      field. exact Hnz. }
  assert (Hpiv : forall i, (1 <= i < n - 1)%nat ->
            get b i - get a i * get cs (i - 1) = - get c i).
  { intros i Hi. destruct (Hin i Hi) as (Hsum & _).
    rewrite Hcs by lia. lra. }
  split; [|exact Hpiv].
  split; [rewrite Hb0; lra|].
  intros i Hi. rewrite Lb in Hi.
  destruct (Nat.eq_dec i (n - 1)) as [->|Hne].
  - rewrite Ha, Hb. lra.
  - rewrite Hpiv by lia. destruct (Hin i ltac:(lia)) as (_ & Hnz). lra.
Qed.


Section SIMPLECSystems.

Import SIMPLEC.
Variable cfg : Config.
Variable num : Numerics.

(** **** Step 1 *)

Lemma momentum_cells_SIMPLEC_system (u p T : list R) l : forall st,
  fst (fold_left (momentum_cell_SIMPLEC cfg u p T) l st)
  = fold_left (momentum_cell cfg u p T) l (fst st).
Proof.
  induction l as [|ix l IH]; intros [sys bS]; [reflexivity|].
  cbn [fold_left]. rewrite IH. f_equal.
  unfold momentum_cell_SIMPLEC. cbn [fst].
  destruct (momentum_cell cfg u p T sys ix) as [[[a b] c] d]. reflexivity.
Qed.

(** The four vectors handed to the solver are those of
    [momentum_system]. *)
Lemma momentum_vectors_system (u p T : list R) :
  fst (momentum_vectors cfg u p T) = momentum_system cfg u p T.
Proof.
  unfold momentum_vectors, momentum_system, momentum_bc_SIMPLEC.
  destruct (fold_left (momentum_cell_SIMPLEC cfg u p T) _ _)
    as [sys bS] eqn:E.
  cbn [fst]. f_equal.
  change sys with (fst (sys, bS)). rewrite <- E.
  apply momentum_cells_SIMPLEC_system.
Qed.

Lemma momentum_cells_SIMPLEC_length (u p T : list R) l : forall st,
  length (snd (fold_left (momentum_cell_SIMPLEC cfg u p T) l st))
  = length (snd st).
Proof.
  induction l as [|ix l IH]; intros [sys bS]; [reflexivity|].
  cbn [fold_left]. rewrite IH.
  unfold momentum_cell_SIMPLEC.
  destruct (momentum_cell cfg u p T sys ix) as [[[a b] c] d].
  cbn [snd]. apply length_upd.
Qed.

(** **** Step 2: the pressure-correction system *)






End SIMPLECSystems.
(** *** Facts about a pass of the SIMPLE loop *)

Section SIMPLECPass.

Import SIMPLEC.
Variable cfg : Config.
Variable num : Numerics.

(** The pressure loop over [0 .. k - 1]. *)
Lemma pressure_update_inv (p' : list R) k : forall p0,
  (k <= length p0)%nat ->
  let p1 := fold_left (pressure_update_cell num p') (range 0 k) p0 in
  length p1 = length p0 /\
  (forall i, (k <= i)%nat -> get p1 i = get p0 i) /\
  (forall i, (i < k)%nat ->
     get p1 i = get p0 i + p_relax num * get p' i).
Proof.
  induction k as [|k IH]; intros p0 Hk; cbv zeta.
  - cbn. repeat split; auto; intros; lia.
  - rewrite range_snoc, fold_left_app by lia. cbn [fold_left].
    pose proof (IH p0 ltac:(lia)) as H. cbv zeta in H.
    destruct H as (L & Hhi & Hlo).
    set (p1 := fold_left (pressure_update_cell num p') (range 0 k) p0) in *.
    unfold pressure_update_cell. rewrite length_upd.
    split; [exact L|]. split.
    + intros i Hi. rewrite get_upd_other by lia. apply Hhi; lia.
    + intros i Hi. destruct (Nat.eq_dec i k) as [->|Hne].
      * rewrite get_upd_same by lia. rewrite Hhi by lia. reflexivity.
      * rewrite get_upd_other by lia. apply Hlo; lia.
Qed.

Lemma pressure_update_spec (p' p0 : list R) :
  length p0 = Nx cfg ->
  length (pressure_update cfg num p' p0) = Nx cfg /\
  forall i, (i < Nx cfg)%nat ->
    get (pressure_update cfg num p' p0) i
    = get p0 i + p_relax num * get p' i.
Proof.
  intros L. unfold pressure_update.
  pose proof (pressure_update_inv p' (Nx cfg) p0 ltac:(lia)) as H.
  cbv zeta in H. destruct H as (L1 & _ & Hlo).
  split; [lia|exact Hlo].
Qed.

(** The velocity loop over [1 .. k], started with [maxErr = 0]. *)
Lemma simplec_velocity_cells_inv (bS p' u0 : list R) k :
  (k < length u0)%nat ->
  let st := fold_left (velocity_cell cfg num bS p') (range 1 (S k))
                      (u0, 0.0) in
  length (fst st) = length u0 /\
  (forall j, (k < j \/ j < 1)%nat -> get (fst st) j = get u0 j) /\
  (forall j, (1 <= j <= k)%nat ->
     get (fst st) j
     = get u0 j - v_relax num / get bS j
                  * (get p' (j + 1) - get p' (j - 1)) / (2 * dx cfg)) /\
  0 <= snd st /\
  (forall j, (1 <= j <= k)%nat ->
     Rabs (get (fst st) j - get u0 j) <= snd st) /\
  ((k = 0%nat /\ snd st = 0) \/
   (exists j, (1 <= j <= k)%nat /\
              snd st = Rabs (get (fst st) j - get u0 j))).
Proof.
  cbv zeta. induction k as [|k IH]; intros Hk.
  - cbn. repeat split; auto; try (intros; lia); try lra. left. split; [reflexivity|lra].
  - rewrite range_snoc, fold_left_app by lia. cbn [fold_left].
    destruct (IH ltac:(lia)) as (L & Hout & Hin & H0 & Hle & Hmax).
    destruct (fold_left (velocity_cell cfg num bS p') (range 1 (S k))
                        (u0, 0.0)) as [u1 e1].
    cbn [fst snd] in *. unfold velocity_cell. cbn [fst snd].
    set (v := get u1 (S k)
              - v_relax num / get bS (S k)
                * (get p' (S k + 1) - get p' (S k - 1)) / (2 * dx cfg)).
    set (d := Rabs (get (upd u1 (S k) v) (S k) - get u1 (S k))).
    assert (Hd : 0 <= d) by apply Rabs_pos.
    assert (Hprev : get u1 (S k) = get u0 (S k)) by (apply Hout; lia).
    rewrite length_upd.
    split; [exact L|]. split; [|split; [|split; [|split]]].
    + intros j Hj. rewrite get_upd_other by lia. apply Hout; lia.
    + intros j Hj. destruct (Nat.eq_dec j (S k)) as [->|Hne].
      * rewrite get_upd_same by lia. unfold v. rewrite Hprev. reflexivity.
      * rewrite get_upd_other by lia. apply Hin; lia.
    + eapply Rle_trans; [exact H0|apply Rmax_l].
    + intros j Hj. destruct (Nat.eq_dec j (S k)) as [->|Hne].
      * rewrite <- Hprev. fold d. apply Rmax_r.
      * rewrite get_upd_other by lia.
        eapply Rle_trans; [apply Hle; lia|apply Rmax_l].
    + right. destruct (Rle_dec e1 d) as [Hc|Hc].
      * exists (S k). split; [lia|].
        rewrite Rmax_right by exact Hc. rewrite <- Hprev. reflexivity.
      * rewrite Rmax_left by lra.
        destruct Hmax as [[_ Hz]|(j & Hj & Hm)]; [lra|].
        exists j. split; [lia|].
        rewrite get_upd_other by lia. exact Hm.
Qed.

(** The velocity correction of a grid with interior cells. *)
Lemma velocity_correction_spec (bS p' u0 : list R) :
  (3 <= Nx cfg)%nat -> length u0 = Nx cfg ->
  let st := velocity_correction cfg num bS p' u0 in
  length (fst st) = Nx cfg /\
  get (fst st) 0 = get u0 0 /\
  get (fst st) (Nx cfg - 1) = get u0 (Nx cfg - 1) /\
  (forall j, (1 <= j < Nx cfg - 1)%nat ->
     get (fst st) j
     = get u0 j - v_relax num / get bS j
                  * (get p' (j + 1) - get p' (j - 1)) / (2 * dx cfg)) /\
  (forall j, (1 <= j < Nx cfg - 1)%nat ->
     Rabs (get (fst st) j - get u0 j) <= snd st) /\
  (exists j, (1 <= j < Nx cfg - 1)%nat /\
             snd st = Rabs (get (fst st) j - get u0 j)).
Proof.
  intros HN L. cbv zeta. unfold velocity_correction.
  pose proof (simplec_velocity_cells_inv bS p' u0 (Nx cfg - 2) ltac:(lia))
    as H.
  cbv zeta in H.
  replace (S (Nx cfg - 2)) with (Nx cfg - 1)%nat in H by lia.
  destruct H as (L1 & Hout & Hin & _ & Hle & Hmax).
  split; [lia|]. split; [apply Hout; lia|]. split; [apply Hout; lia|].
  split; [intros j Hj; apply Hin; lia|].
  split; [intros j Hj; apply Hle; lia|].
  destruct Hmax as [[Hk _]|(j & Hj & Hm)]; [lia|].
  exists j. split; [lia|exact Hm].
Qed.

(** A pass, written with the named parts of its steps. *)
Lemma SIMPLE_pass_unfold (s : State) :
  let p' := solution (simplec_pressure_system cfg num s) in
  let st := velocity_correction cfg num (simplec_b_SIMPLEC cfg s) p'
                                (simplec_u_star cfg s) in
  SIMPLE_pass cfg num s
  = {| u := upd (fst st) (Nx cfg - 1) (get (fst st) (Nx cfg - 2));
       p := pressure_update cfg num p' (p s);
       T := T s;
       p_prime := p';
       iter := S (iter s);
       maxErr := snd st;
       fout := fout s |}.
Proof.
  cbv zeta.
  unfold SIMPLE_pass, simplec_pressure_system, simplec_u_star,
    simplec_b_SIMPLEC, momentum_predictor.
  rewrite <- momentum_vectors_system.
  destruct (momentum_vectors cfg (u s) (p s) (T s))
    as [[[[a b] c] d] bS].
  cbn [fst snd main_diagonal solution].
  destruct (pressure_system cfg num _ _ b _ (p s) (T s))
    as [[[aP bP] cP] dP].
  cbn [solution].
  destruct (velocity_correction cfg num bS _ _) as [u2 e2].
  reflexivity.
Qed.

End SIMPLECPass.
(** *** Facts about the energy system of the SIMPLEC program *)

Section SIMPLECEnergy.

Import SIMPLEC.
Variable cfg : Config.
Variable num : Numerics.

Lemma simplec_temperature_cell_sized u0 T0 n sys i :
  system_sized n sys -> system_sized n (temperature_cell cfg u0 T0 sys i).
Proof.
  destruct sys as [[[a b] c] d]. unfold system_sized, temperature_cell.
  rewrite !length_upd. auto.
Qed.

Lemma simplec_temperature_cell_other u0 T0 sys i j :
  j <> i ->
  system_row (temperature_cell cfg u0 T0 sys i) j = system_row sys j.
Proof.
  intros H. destruct sys as [[[a b] c] d].
  unfold system_row, temperature_cell.
  rewrite !get_upd_other by congruence. reflexivity.
Qed.

Lemma simplec_temperature_cell_row u0 T0 n sys i :
  system_sized n sys -> (i < n)%nat ->
  system_row (temperature_cell cfg u0 T0 sys i) i
  = (- simplec_alpha T0 i / (dx cfg * dx cfg) - get u0 i / dx cfg,
     1 / dt cfg + get u0 i / dx cfg
     + 2 * simplec_alpha T0 i / (dx cfg * dx cfg),
     - simplec_alpha T0 i / (dx cfg * dx cfg),
     get T0 i / dt cfg).
Proof.
  destruct sys as [[[a b] c] d]. intros (La & Lb & Lc & Ld) Hi.
  unfold system_row, temperature_cell.
  rewrite !get_upd_same by lia. reflexivity.
Qed.

(** The energy system: its size, its two fixed-value rows and the rows
    between them. *)
Lemma simplec_temperature_system_rows u0 T0 aT bT cT dT :
  (2 <= Nx cfg)%nat ->
  temperature_system cfg num u0 T0 = (aT, bT, cT, dT) ->
  system_sized (Nx cfg) (aT, bT, cT, dT) /\
  (get aT 0 = 0 /\ get bT 0 = 1 /\ get cT 0 = 0 /\
   get dT 0 = T_inlet num) /\
  (get aT (Nx cfg - 1) = 0 /\ get bT (Nx cfg - 1) = 1 /\
   get cT (Nx cfg - 1) = 0 /\ get dT (Nx cfg - 1) = T_outlet num) /\
  (forall i, (1 <= i < Nx cfg - 1)%nat ->
     system_row (aT, bT, cT, dT) i
     = (- simplec_alpha T0 i / (dx cfg * dx cfg) - get u0 i / dx cfg,
        1 / dt cfg + get u0 i / dx cfg
        + 2 * simplec_alpha T0 i / (dx cfg * dx cfg),
        - simplec_alpha T0 i / (dx cfg * dx cfg),
        get T0 i / dt cfg)).
Proof.
  intros HN. unfold temperature_system.
  set (z := vec (Nx cfg) 0).
  assert (Hz : system_sized (Nx cfg) (z, z, z, z)).
  { unfold system_sized, z. rewrite length_vec. auto. }
  set (l := range 1 (Nx cfg - 1)).
  assert (Hs : system_sized (Nx cfg)
                 (fold_left (temperature_cell cfg u0 T0) l (z, z, z, z))).
  { apply (system_cells_sized _ (simplec_temperature_cell_sized u0 T0)), Hz. }
  assert (Hout : forall j, ~ In j l ->
            system_row (fold_left (temperature_cell cfg u0 T0) l
                                  (z, z, z, z)) j
            = system_row (z, z, z, z) j).
  { intros j Hj.
    apply (system_cells_other _ (simplec_temperature_cell_other u0 T0)),
      Hj. }
  assert (Hrow : forall i, (1 <= i < Nx cfg - 1)%nat ->
            system_row (fold_left (temperature_cell cfg u0 T0) l
                                  (z, z, z, z)) i
            = (- simplec_alpha T0 i / (dx cfg * dx cfg) - get u0 i / dx cfg,
               1 / dt cfg + get u0 i / dx cfg
               + 2 * simplec_alpha T0 i / (dx cfg * dx cfg),
               - simplec_alpha T0 i / (dx cfg * dx cfg),
               get T0 i / dt cfg)).
  { intros i Hi. unfold l.
    rewrite (system_cells_row _ (simplec_temperature_cell_other u0 T0) 1
               (Nx cfg - 1) i _ Hi).
    apply (simplec_temperature_cell_row u0 T0 (Nx cfg)); [|lia].
    apply (system_cells_sized _ (simplec_temperature_cell_sized u0 T0)),
      Hz. }
  assert (H0 : system_row (fold_left (temperature_cell cfg u0 T0) l
                                      (z, z, z, z)) 0
               = system_row (z, z, z, z) 0)
    by (apply Hout; unfold l; rewrite in_range; lia).
  assert (H1 : system_row (fold_left (temperature_cell cfg u0 T0) l
                                      (z, z, z, z)) (Nx cfg - 1)
               = system_row (z, z, z, z) (Nx cfg - 1))
    by (apply Hout; unfold l; rewrite in_range; lia).
  destruct (fold_left (temperature_cell cfg u0 T0) l (z, z, z, z))
    as [[[a1 b1] c1] d1].
  destruct Hs as (La & Lb & Lc & Ld).
  unfold system_row in H0, H1. unfold z in H0, H1.
  rewrite !get_vec in H0, H1 by lia.
  injection H0 as Ea0 Eb0 Ec0 Ed0. injection H1 as Ea1 Eb1 Ec1 Ed1.
  unfold temperature_bc. intros E. inversion E; subst aT bT cT dT; clear E.
  unfold system_sized. rewrite !length_upd.
  split; [auto|]. split; [|split].
  - rewrite !(get_upd_other _ (Nx cfg - 1) 0) by lia.
    rewrite !get_upd_same by (rewrite ?length_upd; lia). auto.
  - rewrite !get_upd_same by (rewrite ?length_upd; lia).
    rewrite !(get_upd_other _ 0 (Nx cfg - 1)) by lia. auto.
  - intros i Hi. unfold system_row.
    rewrite !(get_upd_other _ (Nx cfg - 1) i) by lia.
    rewrite !(get_upd_other _ 0 i) by lia.
    apply (Hrow i Hi).
Qed.

Lemma simplec_alpha_positive (T0 : list R) (i : nat) :
  get T0 i <= 2500 -> 0 < simplec_alpha T0 i.
Proof.
  intros H. unfold simplec_alpha.
  pose proof (conductivity_positive (get T0 i) H) as Hk.
  destruct (density_bounds (get T0 i) (get T0 i) ltac:(lra) ltac:(lra))
    as [Hr _].
  pose proof (specific_heat_bound (get T0 i)) as Hc.
  change (value (k_Na_l (get T0 i)))
    with (124.67 - 0.11381 * get T0 i + 5.5226e-5 * get T0 i * get T0 i
          - 1.1842e-8 * get T0 i * get T0 i * get T0 i).
  change (value (rho_Na_l (get T0 i)))
    with (219.0 + 275.32 * (1.0 - get T0 i / 2509.46)
          + 511.58 * sqrt (1.0 - get T0 i / 2509.46)).
  change (value (Cp_Na_l (get T0 i)))
    with (1436.72 - 0.58 * (get T0 i - 273.15)
          + 4.627e-4 * (get T0 i - 273.15) * (get T0 i - 273.15)).
  apply Rdiv_lt_0_compat; [exact Hk|].
  apply Rmult_lt_0_compat; lra.
Qed.

(** With a forward flow and temperatures up to 2500 K every row of the
    energy system is strictly diagonally dominant. *)
Lemma simplec_temperature_dominant u0 T0 aT bT cT dT :
  (2 <= Nx cfg)%nat -> 0 < dt cfg -> 0 < dx cfg ->
  (forall i, (1 <= i < Nx cfg - 1)%nat ->
             0 <= get u0 i /\ get T0 i <= 2500) ->
  temperature_system cfg num u0 T0 = (aT, bT, cT, dT) ->
  diagonally_dominant aT bT cT.
Proof.
  intros HN Hdt Hdx Hst E.
  destruct (simplec_temperature_system_rows _ _ _ _ _ _ HN E)
    as ((_ & Lb & _ & _) & (Ha0 & Hb0 & Hc0 & _) & (Ha1 & Hb1 & Hc1 & _)
        & Hin).
  intros i Hi. rewrite Lb in Hi.
  destruct (Nat.eq_dec i 0) as [->|H0].
  { rewrite Ha0, Hb0, Hc0, Rabs_R0, Rabs_R1. lra. }
  destruct (Nat.eq_dec i (Nx cfg - 1)) as [->|H1].
  { rewrite Ha1, Hb1, Hc1, Rabs_R0, Rabs_R1. lra. }
  specialize (Hin i ltac:(lia)). unfold system_row in Hin.
  injection Hin as Ea Eb Ec _.
  destruct (Hst i ltac:(lia)) as [Hu HT].
  pose proof (simplec_alpha_positive T0 i HT) as Hal.
  set (al := simplec_alpha T0 i) in *.
  assert (Hq : 0 < / (dx cfg * dx cfg))
    by (apply Rinv_0_lt_compat, Rmult_lt_0_compat; exact Hdx).
  assert (HA : 0 < al * / (dx cfg * dx cfg))
    by (apply Rmult_lt_0_compat; assumption).
  assert (HU : 0 <= get u0 i * / dx cfg).
  { apply Rmult_le_pos; [exact Hu|].
    apply Rlt_le, Rinv_0_lt_compat, Hdx. }
  assert (HD : 0 < 1 * / dt cfg).
  { rewrite Rmult_1_l. apply Rinv_0_lt_compat, Hdt. }
  rewrite Ea, Eb, Ec. unfold Rdiv.
  rewrite (Rabs_left (- al * / (dx cfg * dx cfg) - get u0 i * / dx cfg))
    by lra.
  rewrite (Rabs_left (- al * / (dx cfg * dx cfg))) by lra.
  rewrite Rabs_right by lra.
  lra.
Qed.

(** The temperature the energy solve leaves: fixed at both ends, and the
    implicit upwind balance in between. *)
Lemma simplec_temperature_solution u0 T0 :
  (2 <= Nx cfg)%nat -> 0 < dt cfg -> 0 < dx cfg ->
  (forall i, (1 <= i < Nx cfg - 1)%nat ->
             0 <= get u0 i /\ get T0 i <= 2500) ->
  let sys := temperature_system cfg num u0 T0 in
  let T' := solution sys in
  system_pivots_nonzero sys /\
  get T' 0 = T_inlet num /\
  get T' (Nx cfg - 1) = T_outlet num /\
  (forall i, (1 <= i < Nx cfg - 1)%nat ->
     (get T' i - get T0 i) / dt cfg
     + get u0 i * (get T' i - get T' (i - 1)) / dx cfg
     = simplec_alpha T0 i
       * (get T' (i + 1) - 2 * get T' i + get T' (i - 1))
       / (dx cfg * dx cfg)).
Proof.
  intros HN Hdt Hdx Hst. cbv zeta.
  destruct (temperature_system cfg num u0 T0) as [[[aT bT] cT] dT] eqn:E.
  pose proof (simplec_temperature_dominant _ _ _ _ _ _ HN Hdt Hdx Hst E)
    as Hdom.
  destruct (simplec_temperature_system_rows _ _ _ _ _ _ HN E)
    as ((_ & Lb & _ & _) & (Ha0 & Hb0 & Hc0 & Hd0)
        & (Ha1 & Hb1 & Hc1 & Hd1) & Hin).
  pose proof (dominance_pivots aT bT cT dT ltac:(lia) Hdom) as Hp.
  cbn [system_pivots_nonzero solution].
  split; [exact Hp|]. split; [|split].
  - apply (dirichlet_first aT bT cT dT (Nx cfg) 1 (T_inlet num)); auto.
    rewrite Hd0. lra.
  - apply (dirichlet_last aT bT cT dT (Nx cfg) 1 (T_outlet num)); auto.
    rewrite Hd1. lra.
  - intros i Hi.
    pose proof (solveTridiagonal_rows aT bT cT dT ltac:(lia) Hp i
                  ltac:(lia)) as Hrow.
    unfold row_holds in Hrow. rewrite Lb in Hrow.
    destruct (Nat.eqb_spec i 0) as [E0|_]; [lia|].
    destruct (Nat.eqb_spec i (Nx cfg - 1)) as [E1|_]; [lia|].
    specialize (Hin i Hi). unfold system_row in Hin.
    injection Hin as Ea Eb Ec Ed.
    rewrite Ea, Eb, Ec, Ed in Hrow.
    set (x := solveTridiagonal aT bT cT dT) in *.
    assert (Hdx' : dx cfg <> 0) by lra.
    assert (Hdt' : dt cfg <> 0) by lra.
    apply (Rplus_eq_reg_r (get T0 i / dt cfg)). rewrite <- Hrow at 2.
    field. split; assumption.
Qed.

(** **** The SIMPLEC diagonal *)

(** The loop of step 1 over [1 .. k]: every cell of [b_SIMPLEC] it passed
    holds [b - (c + a)] of its row. *)
Lemma b_SIMPLEC_cells_inv (u0 p0 T0 : list R) k :
  (k < Nx cfg)%nat ->
  let z := vec (Nx cfg) 0 in
  let '(a, b, c, d, bS) :=
    fold_left (momentum_cell_SIMPLEC cfg u0 p0 T0) (range 1 (S k))
              (z, z, z, z, z) in
  system_sized (Nx cfg) (a, b, c, d) /\ length bS = Nx cfg /\
  forall j, (1 <= j <= k)%nat ->
    get bS j = get b j - (get c j + get a j).
Proof.
  cbv zeta. induction k as [|k IH]; intros Hk.
  - cbn. unfold system_sized. rewrite length_vec.
    repeat split; auto. intros; lia.
  - rewrite range_snoc, fold_left_app by lia. cbn [fold_left].
    specialize (IH ltac:(lia)).
    destruct (fold_left (momentum_cell_SIMPLEC cfg u0 p0 T0)
                        (range 1 (S k)) _) as [[[[a b] c] d] bS].
    destruct IH as ((La & Lb & Lc & Ld) & LS & Hin).
    unfold momentum_cell_SIMPLEC, momentum_cell. cbv zeta.
    unfold system_sized. rewrite !length_upd.
    split; [auto|]. split; [exact LS|].
    intros j Hj. destruct (Nat.eq_dec j (S k)) as [->|Hne].
    + rewrite !get_upd_same by (rewrite ?length_upd; lia). reflexivity.
    + rewrite !get_upd_other by lia. apply Hin. lia.
Qed.

(** In the interior the velocity correction divides by the main diagonal
    of the momentum system less its two neighbours. *)
Lemma b_SIMPLEC_interior (s : State) j :
  (3 <= Nx cfg)%nat -> (1 <= j < Nx cfg - 1)%nat ->
  let sys := momentum_system cfg (u s) (p s) (T s) in
  get (simplec_b_SIMPLEC cfg s) j
  = get (main_diagonal sys) j
    - (get (super_diagonal sys) j + get (sub_diagonal sys) j).
Proof.
  intros HN Hj. cbv zeta.
  rewrite <- momentum_vectors_system.
  unfold simplec_b_SIMPLEC, momentum_vectors.
  pose proof (b_SIMPLEC_cells_inv (u s) (p s) (T s) (Nx cfg - 2)
                ltac:(lia)) as H.
  cbv zeta in H. replace (S (Nx cfg - 2)) with (Nx cfg - 1)%nat in H by lia.
  destruct (fold_left (momentum_cell_SIMPLEC cfg (u s) (p s) (T s))
                      (range 1 (Nx cfg - 1)) _) as [[[[a b] c] d] bS].
  destruct H as ((La & Lb & Lc & Ld) & LS & Hin).
  unfold momentum_bc_SIMPLEC, momentum_bc.
  cbn [fst snd main_diagonal super_diagonal sub_diagonal].
  rewrite !get_upd_other by lia. apply Hin. lia.
Qed.

End SIMPLECEnergy.
(** *** Facts about the loops of the SIMPLEC program *)

Section SIMPLECLoops.

Import SIMPLEC.
Variable cfg : Config.
Variable num : Numerics.

Lemma SIMPLE_pass_keeps s :
  T (SIMPLE_pass cfg num s) = T s /\
  fout (SIMPLE_pass cfg num s) = fout s /\
  iter (SIMPLE_pass cfg num s) = S (iter s).
Proof.
  pose proof (SIMPLE_pass_unfold cfg num s) as E. cbv zeta in E.
  rewrite E. auto.
Qed.

(** A pass moves the pressure by [p_relax] times the correction. *)
Lemma SIMPLE_pass_pressure s i :
  length (p s) = Nx cfg -> (i < Nx cfg)%nat ->
  get (p (SIMPLE_pass cfg num s)) i
  = get (p s) i + p_relax num * get (p_prime (SIMPLE_pass cfg num s)) i.
Proof.
  intros Lp Hi.
  pose proof (SIMPLE_pass_unfold cfg num s) as E. cbv zeta in E.
  rewrite E. cbn [p p_prime].
  apply pressure_update_spec; assumption.
Qed.



Lemma SIMPLE_while_fout fuel : forall s,
  fout (SIMPLE_while cfg num fuel s) = fout s.
Proof.
  induction fuel as [|fuel IH]; intros s; cbn [SIMPLE_while]; auto.
  destruct (SIMPLE_guard num s); auto.
  rewrite IH. apply SIMPLE_pass_keeps.
Qed.

(** The loop stops with the budget respected and the guard false. *)
Lemma SIMPLE_while_exit fuel : forall s,
  (iter s <= SIMPLE_iter num)%nat ->
  (SIMPLE_iter num - iter s <= fuel)%nat ->
  let s' := SIMPLE_while cfg num fuel s in
  (iter s <= iter s' <= SIMPLE_iter num)%nat /\
  SIMPLE_guard num s' = false.
Proof.
  induction fuel as [|fuel IH]; intros s Hle Hf; cbv zeta;
    cbn [SIMPLE_while].
  - split; [lia|]. unfold SIMPLE_guard.
    destruct (Nat.ltb_spec (iter s) (SIMPLE_iter num)); [lia|reflexivity].
  - destruct (SIMPLE_guard num s) eqn:G.
    + assert (Hlt : (iter s < SIMPLE_iter num)%nat).
      { unfold SIMPLE_guard in G. apply andb_prop in G. destruct G as [G _].
        apply Nat.ltb_lt in G. exact G. }
      destruct (SIMPLE_pass_keeps s) as (_ & _ & Hi).
      pose proof (IH (SIMPLE_pass cfg num s) ltac:(lia) ltac:(lia)) as H.
      cbv zeta in H. rewrite Hi in H. split; [lia|apply H].
    + split; [lia|exact G].
Qed.

Lemma SIMPLE_guard_false s :
  SIMPLE_guard num s = false <->
  (SIMPLE_iter num <= iter s)%nat \/ maxErr s <= tol num.
Proof.
  unfold SIMPLE_guard. rewrite andb_false_iff, Nat.ltb_ge.
  destruct (Rgt_dec (maxErr s) (tol num)) as [H|H].
  - split; [intros [G|G]; [now left|discriminate]|].
    intros [G|G]; [now left|lra].
  - split; [intros _; right; lra|intros _; now right].
Qed.

Lemma temperature_loop_keeps s :
  u (temperature_loop cfg num s) = u s /\
  p (temperature_loop cfg num s) = p s /\
  fout (temperature_loop cfg num s) = fout s /\
  T (temperature_loop cfg num s)
  = solution (temperature_system cfg num (u s) (T s)).
Proof.
  unfold temperature_loop, solution.
  destruct (temperature_system cfg num (u s) (T s)) as [[[aT bT] cT] dT].
  auto.
Qed.

Lemma simplec_last_step_spec it :
  last_step num it = true <-> S it = t_iter num.
Proof. unfold last_step. rewrite Z.eqb_eq. lia. Qed.

Lemma output_keeps_SIMPLEC it s :
  u (output cfg num it s) = u s /\
  p (output cfg num it s) = p s /\
  T (output cfg num it s) = T s.
Proof. unfold output. destruct (last_step num it); auto. Qed.

Lemma fout_output_SIMPLEC it s :
  fout (output cfg num it s)
  = if last_step num it
    then fout s ++ profile cfg (p s) ++ [Newline]
    else fout s.
Proof. unfold output. destruct (last_step num it); reflexivity. Qed.

Lemma timestep_unfold s it :
  timestep cfg num s it
  = output cfg num it (temperature_loop cfg num (simplec_loop_end cfg num s)).
Proof. reflexivity. Qed.

Lemma fout_simplec_timestep s it :
  fout (timestep cfg num s it)
  = if last_step num it
    then fout s ++ profile cfg (p (timestep cfg num s it)) ++ [Newline]
    else fout s.
Proof.
  destruct (output_keeps_SIMPLEC it
              (temperature_loop cfg num (simplec_loop_end cfg num s)))
    as (_ & Fp & _).
  rewrite <- timestep_unfold in Fp. rewrite Fp.
  rewrite timestep_unfold, fout_output_SIMPLEC.
  destruct (temperature_loop_keeps (simplec_loop_end cfg num s))
    as (_ & _ & Ef & _).
  rewrite Ef. unfold simplec_loop_end, SIMPLE_loop.
  rewrite SIMPLE_while_fout. reflexivity.
Qed.

Lemma fout_simplec_timesteps_before_last l : forall s,
  (forall it, In it l -> last_step num it = false) ->
  fout (fold_left (timestep cfg num) l s) = fout s.
Proof.
  induction l as [|it l IH]; intros s H; cbn [fold_left]; [reflexivity|].
  rewrite IH by (intros; apply H; now right).
  rewrite fout_simplec_timestep. now rewrite (H it) by now left.
Qed.

End SIMPLECLoops.

(** *** What the loops keep on a grid of four nodes or more *)

Section SIMPLECRun.

Import SIMPLEC.
Variable cfg : Config.
Variable num : Numerics.
Hypothesis HN : (4 <= Nx cfg)%nat.
Hypothesis Hdx : dx cfg <> 0.

Lemma simplec_u_star_length s : length (simplec_u_star cfg s) = Nx cfg.
Proof.
  unfold simplec_u_star, momentum_predictor.
  destruct (momentum_system cfg (u s) (p s) (T s)) as [[[a b] c] d] eqn:E.
  destruct (simplec_momentum_system_rows cfg _ _ _ a b c d ltac:(lia) E)
    as ((_ & Lb & _ & _) & _).
  rewrite length_solveTridiagonal; lia.
Qed.



(** A pass keeps the sizes. *)
Lemma SIMPLE_pass_sized s :
  simplec_sized cfg s -> simplec_sized cfg (SIMPLE_pass cfg num s).
Proof.
  intros (Lu & Lp & LT).
  pose proof (SIMPLE_pass_unfold cfg num s) as E. cbv zeta in E.
  rewrite E. unfold simplec_sized. cbn [u p T].
  rewrite length_upd.
  destruct (velocity_correction_spec cfg num (simplec_b_SIMPLEC cfg s)
              (solution (simplec_pressure_system cfg num s))
              (simplec_u_star cfg s) ltac:(lia) (simplec_u_star_length s))
    as (L & _).
  destruct (pressure_update_spec cfg num
              (solution (simplec_pressure_system cfg num s)) (p s) Lp)
    as (L' & _).
  auto.
Qed.

(** The velocity a pass leaves. *)
Lemma SIMPLE_pass_velocity s :
  let s' := SIMPLE_pass cfg num s in
  get (u s') 0 = get (simplec_u_star cfg s) 0 /\
  get (u s') (Nx cfg - 1) = get (u s') (Nx cfg - 2) /\
  (forall j, (1 <= j < Nx cfg - 1)%nat ->
     get (u s') j
     = get (simplec_u_star cfg s) j
       - v_relax num / get (simplec_b_SIMPLEC cfg s) j
         * (get (p_prime s') (j + 1) - get (p_prime s') (j - 1))
         / (2 * dx cfg)) /\
  (forall j, (1 <= j < Nx cfg - 1)%nat ->
     Rabs (get (u s') j - get (simplec_u_star cfg s) j) <= maxErr s') /\
  (exists j, (1 <= j < Nx cfg - 1)%nat /\
     maxErr s' = Rabs (get (u s') j - get (simplec_u_star cfg s) j)).
Proof.
  cbv zeta.
  pose proof (SIMPLE_pass_unfold cfg num s) as E. cbv zeta in E.
  rewrite E. cbn [u p_prime maxErr].
  destruct (velocity_correction_spec cfg num (simplec_b_SIMPLEC cfg s)
              (solution (simplec_pressure_system cfg num s))
              (simplec_u_star cfg s) ltac:(lia) (simplec_u_star_length s))
    as (L & H0 & _ & Hin & Hle & Hmax).
  set (st := velocity_correction cfg num _ _ _) in *.
  split; [|split; [|split; [|split]]].
  - rewrite get_upd_other by lia. exact H0.
  - rewrite get_upd_same by lia. rewrite get_upd_other by lia. reflexivity.
  - intros j Hj. rewrite get_upd_other by lia. apply Hin, Hj.
  - intros j Hj. rewrite get_upd_other by lia. apply Hle, Hj.
  - destruct Hmax as (j & Hj & Hm). exists j. split; [exact Hj|].
    rewrite get_upd_other by lia. exact Hm.
Qed.


(** **** Step 5 *)


(** **** The time loop *)






End SIMPLECRun.
(** *** The four-cell grid of the SIMPLEC program *)

Lemma simplec_small_four : (4 <= SIMPLEC.Nx simplec_small_config)%nat.
Proof. cbn. lia. Qed.

Lemma simplec_small_two : (2 <= SIMPLEC.Nx simplec_small_config)%nat.
Proof. cbn. lia. Qed.

Lemma simplec_small_dx_positive : 0 < SIMPLEC.dx simplec_small_config.
Proof. cbn. lra. Qed.

Lemma simplec_small_dx : SIMPLEC.dx simplec_small_config <> 0.
Proof. cbn. lra. Qed.

Lemma simplec_small_dt : 0 < SIMPLEC.dt simplec_small_config.
Proof. cbn. lra. Qed.

Lemma simplec_small_sized :
  simplec_sized simplec_small_config
    (SIMPLEC.initial_state simplec_small_config simplec_small_numerics).
Proof. repeat split. Qed.

Lemma simplec_small_boundaries :
  simplec_boundaries simplec_small_config simplec_small_numerics
    (SIMPLEC.initial_state simplec_small_config simplec_small_numerics).
Proof. repeat split. Qed.

(** The initial flow is forward and the initial temperatures are below
    2500 K. *)
Lemma simplec_small_forward i :
  (1 <= i < SIMPLEC.Nx simplec_small_config - 1)%nat ->
  0 <= get (SIMPLEC.u (SIMPLEC.initial_state simplec_small_config
                                             simplec_small_numerics)) i /\
  get (SIMPLEC.T (SIMPLEC.initial_state simplec_small_config
                                        simplec_small_numerics)) i <= 2500.
Proof.
  cbn. intros Hi.
  assert (Hc : i = 1%nat \/ i = 2%nat) by lia.
  destruct Hc as [-> | ->]; cbn; split; lra.
Qed.

(** ** Facts about the pressure correction of the two PISO programs *)

Lemma early_rho_at_same (s : PISO.State) (i : nat) :
  PISO_early.rho_at s i = PISO.rho_at s i.
Proof. reflexivity. Qed.

Lemma rho_at_positive (s : PISO.State) (i : nat) :
  get (PISO.T s) i <= 2509.46 -> 219 <= PISO.rho_at s i.
Proof.
  intros H.
  destruct (density_bounds (get (PISO.T s) i) (get (PISO.T s) i)
              ltac:(lra) H) as [Hr _].
  exact Hr.
Qed.

(** The face coefficient of the pressure-correction rows is positive. *)
Lemma face_coefficient_positive (r1 r2 b1 b2 : R) :
  219 <= r1 -> 219 <= r2 -> 0 < b1 -> 0 < b2 ->
  0 < 0.5 * (r1 + r2) * (0.5 * (1.0 / b1 + 1.0 / b2)).
Proof.
  intros H1 H2 H3 H4.
  assert (0 < / b1) by (apply Rinv_0_lt_compat; exact H3).
  assert (0 < / b2) by (apply Rinv_0_lt_compat; exact H4).
  apply Rmult_lt_0_compat; [lra|]. unfold Rdiv. lra.
Qed.

Section ContinuityPivots.

Import PISO.
Variable cfg : Config.
Variable s : State.
Hypothesis HN : (2 <= N cfg)%nat.
Hypothesis Hdz : dz cfg <> 0.
Hypothesis Hpos : positive_coefficients cfg s.

(** With a positive momentum diagonal an interior row of the
    pressure-correction system sums to zero and its super-diagonal entry
    is not zero. *)
Lemma continuity_row_zero_sum i :
  (0 < i < N cfg - 1)%nat ->
  let '(a, b, c, _) := system_row (continuity_system cfg s) i in
  a + b + c = 0 /\ c <> 0.
Proof.
  intros Hi.
  pose proof (continuity_interior_entries cfg s i Hi) as H.
  cbv zeta in H.
  destruct (continuity_system cfg s) as [[[aP bP] cP] dP].
  destruct H as (Eai & Eci & Ebi). unfold system_row.
  rewrite Eai, Eci, Ebi. split; [lra|].
  destruct (Hpos i ltac:(lia)) as [Hbi HTi].
  destruct (Hpos (i + 1)%nat ltac:(lia)) as [Hbi1 HTi1].
  pose proof (face_coefficient_positive _ _ _ _
                (rho_at_positive s i HTi) (rho_at_positive s (i + 1) HTi1)
                Hbi Hbi1) as Hf.
  intros H0. apply Ropp_eq_0_compat in H0. rewrite Ropp_involutive in H0.
  unfold Rdiv in H0 at 1.
  apply Rmult_integral in H0. destruct H0 as [H0|H0]; [lra|].
  apply Rinv_neq_0_compat in Hdz. contradiction.
Qed.

(** So the pivots of the pressure-correction system are the face
    coefficients on the right of the cells, and none is zero. *)
Lemma continuity_system_pivots :
  system_pivots_nonzero (continuity_system cfg s).
Proof.
  pose proof continuity_row_zero_sum as Hz.
  destruct (continuity_system cfg s) as [[[aP bP] cP] dP] eqn:E.
  destruct (continuity_system_rows cfg s aP bP cP dP HN E)
    as ((_ & Lb & _ & _) & (Hb0 & Hc0 & _) & (Ha & Hb & _)).
  cbn [system_pivots_nonzero].
  unfold system_row in Hz.
  apply (zero_sum_rows_pivots aP bP cP dP (N cfg)); assumption.
Qed.

End ContinuityPivots.

(** *** The pressure-correction system of the earlier program *)

Section EarlySystems.

Import PISO.
Variable cfg : Config.
Variable s : State.

Lemma early_pressure_cell_sized n sys i :
  system_sized n sys ->
  system_sized n (PISO_early.pressure_corrector_cell cfg s sys i).
Proof.
  destruct sys as [[[a b] c] d].
  unfold system_sized, PISO_early.pressure_corrector_cell.
  rewrite !length_upd. auto.
Qed.

Lemma early_pressure_cell_other sys i j :
  j <> i ->
  system_row (PISO_early.pressure_corrector_cell cfg s sys i) j
  = system_row sys j.
Proof.
  intros H. destruct sys as [[[a b] c] d].
  unfold system_row, PISO_early.pressure_corrector_cell.
  rewrite !get_upd_other by congruence. reflexivity.
Qed.

Lemma early_pressure_cell_row n sys i :
  system_sized n sys -> (i < n)%nat ->
  system_row (PISO_early.pressure_corrector_cell cfg s sys i) i
  = system_row (PISO_early.pressure_corrector_cell cfg s
                  (vec n 0.0, vec n 0.0, vec n 0.0, vec n 0.0) i) i.
Proof.
  destruct sys as [[[a b] c] d]. intros (La & Lb & Lc & Ld) Hi.
  unfold system_row, PISO_early.pressure_corrector_cell.
  rewrite !get_upd_same by (rewrite ?length_vec; lia). reflexivity.
Qed.

(** The system of the earlier program: its size, its two boundary rows,
    and its interior rows. *)
Lemma early_pressure_system_rows aP bP cP dP :
  (2 <= N cfg)%nat ->
  PISO_early.pressure_corrector_system cfg s = (aP, bP, cP, dP) ->
  system_sized (N cfg) (aP, bP, cP, dP) /\
  (get bP 0 = 1 /\ get cP 0 = -1 /\ get dP 0 = 0) /\
  (get aP (N cfg - 1) = 0 /\ get bP (N cfg - 1) = 1 /\
   get dP (N cfg - 1) = 0) /\
  (forall i, (0 < i < N cfg - 1)%nat ->
     system_row (aP, bP, cP, dP) i
     = system_row (PISO_early.pressure_corrector_cell cfg s
                     (vec (N cfg) 0.0, vec (N cfg) 0.0,
                      vec (N cfg) 0.0, vec (N cfg) 0.0) i) i).
Proof.
  intros HN. unfold PISO_early.pressure_corrector_system.
  set (z := vec (N cfg) 0.0).
  set (l := range 1 (N cfg - 1)).
  assert (Hs : system_sized (N cfg)
                 (fold_left (PISO_early.pressure_corrector_cell cfg s) l
                            (z, z, z, z))).
  { apply (system_cells_sized _ early_pressure_cell_sized),
      system_sized_zero. }
  assert (Hrow : forall i, (0 < i < N cfg - 1)%nat ->
            system_row (fold_left (PISO_early.pressure_corrector_cell cfg s)
                                  l (z, z, z, z)) i
            = system_row (PISO_early.pressure_corrector_cell cfg s
                            (z, z, z, z) i) i).
  { intros i Hi. unfold l.
    rewrite (system_cells_row _ early_pressure_cell_other 1
               (N cfg - 1) i _ ltac:(lia)).
    apply (early_pressure_cell_row (N cfg)); [|lia].
    apply (system_cells_sized _ early_pressure_cell_sized),
      system_sized_zero. }
  destruct (fold_left (PISO_early.pressure_corrector_cell cfg s) l
                      (z, z, z, z)) as [[[a1 b1] c1] d1].
  destruct Hs as (La & Lb & Lc & Ld).
  unfold PISO_early.pressure_corrector_bc.
  intros E. inversion E; subst aP bP cP dP; clear E.
  unfold system_sized. rewrite !length_upd.
  split; [auto|]. split; [|split].
  - rewrite !get_upd_same by (rewrite ?length_upd; lia). auto.
  - rewrite !(get_upd_other _ 0 (N cfg - 1)) by lia.
    rewrite !get_upd_same by (rewrite ?length_upd; lia). auto.
  - intros i Hi. rewrite <- (Hrow i Hi). unfold system_row.
    rewrite !(get_upd_other _ 0 i) by lia.
    rewrite !(get_upd_other _ (N cfg - 1) i) by lia. reflexivity.
Qed.

(** An interior row of the earlier program is the row of the later one
    divided by [dz]. *)
Lemma early_pressure_row_scaled i :
  (0 < i < N cfg - 1)%nat -> dz cfg <> 0 ->
  system_row (PISO_early.pressure_corrector_system cfg s) i
  = (let '(a, b, c, d) := system_row (continuity_system cfg s) i in
     (a / dz cfg, b / dz cfg, c / dz cfg, d / dz cfg)).
Proof.
  intros Hi Hdz.
  destruct (PISO_early.pressure_corrector_system cfg s)
    as [[[aP bP] cP] dP] eqn:E.
  destruct (early_pressure_system_rows aP bP cP dP ltac:(lia) E)
    as (_ & _ & _ & Hin).
  rewrite (Hin i Hi), (continuity_system_interior cfg s i Hi).
  unfold system_row, PISO_early.pressure_corrector_cell, continuity_cell.
  rewrite !get_upd_same by (rewrite length_vec; lia).
  cbv zeta. change PISO_early.rho_at with rho_at.
  set (ml := if Rgt_dec (u_l_face cfg s i) 0.0
             then rho_at s (i - 1) * u_l_face cfg s i
             else rho_at s i * u_l_face cfg s i).
  set (mr := if Rgt_dec (u_r_face cfg s i) 0.0
             then rho_at s i * u_r_face cfg s i
             else rho_at s (i + 1) * u_r_face cfg s i).
  set (dl := 0.5 * (1.0 / get (bU s) (i - 1) + 1.0 / get (bU s) i)).
  set (dr := 0.5 * (1.0 / get (bU s) i + 1.0 / get (bU s) (i + 1))).
  set (wl := 0.5 * (rho_at s (i - 1) + rho_at s i) * dl).
  set (wr := 0.5 * (rho_at s i + rho_at s (i + 1)) * dr).
  f_equal; [f_equal; [f_equal|]|]; field; exact Hdz.
Qed.

End EarlySystems.
(** *** The two pressure-correction systems have one solution *)

Section EarlySolution.

Import PISO.
Variable cfg : Config.
Variable s : State.
Hypothesis HN : (2 <= N cfg)%nat.
Hypothesis Hdz : dz cfg <> 0.
Hypothesis Hpos : positive_coefficients cfg s.

Lemma early_pressure_system_pivots :
  system_pivots_nonzero (PISO_early.pressure_corrector_system cfg s).
Proof.
  pose proof (continuity_row_zero_sum cfg s HN Hdz Hpos) as Hz.
  pose proof (early_pressure_row_scaled cfg s) as Hsc.
  destruct (PISO_early.pressure_corrector_system cfg s)
    as [[[aE bE] cE] dE] eqn:E.
  destruct (early_pressure_system_rows cfg s aE bE cE dE HN E)
    as ((_ & Lb & _ & _) & (Hb0 & Hc0 & _) & (Ha & Hb & _) & _).
  cbn [system_pivots_nonzero].
  apply (zero_sum_rows_pivots aE bE cE dE (N cfg)); auto.
  intros i Hi.
  specialize (Hz i ltac:(lia)). specialize (Hsc i ltac:(lia) Hdz).
  destruct (continuity_system cfg s) as [[[aP bP] cP] dP].
  unfold system_row in Hz, Hsc. injection Hsc as Ea Eb Ec _.
  destruct Hz as [Hsum Hc].
  rewrite Ea, Eb, Ec. split.
  - replace (get aP i / dz cfg + get bP i / dz cfg + get cP i / dz cfg)
      with ((get aP i + get bP i + get cP i) / dz cfg) by (field; exact Hdz).
    rewrite Hsum. unfold Rdiv. ring.
  - intros H0. apply Hc.
    apply (Rmult_eq_reg_r (/ dz cfg)).
    + rewrite Rmult_0_l. exact H0.
    + apply Rinv_neq_0_compat, Hdz.
Qed.

(** The earlier program divides every interior row by [dz]; the solution
    is the same. *)
Lemma early_pressure_solution_same j :
  (j < N cfg)%nat ->
  get (solution (PISO_early.pressure_corrector_system cfg s)) j
  = get (solution (continuity_system cfg s)) j.
Proof.
  intros Hj.
  pose proof early_pressure_system_pivots as HpE.
  pose proof (continuity_system_pivots cfg s HN Hdz Hpos) as HpP.
  pose proof (early_pressure_row_scaled cfg s) as Hsc.
  destruct (PISO_early.pressure_corrector_system cfg s)
    as [[[aE bE] cE] dE] eqn:EE.
  destruct (continuity_system cfg s) as [[[aP bP] cP] dP] eqn:EP.
  destruct (early_pressure_system_rows cfg s aE bE cE dE HN EE)
    as ((_ & LbE & _ & _) & (Eb0 & Ec0 & Ed0) & (Ea1 & Eb1 & Ed1) & _).
  destruct (continuity_system_rows cfg s aP bP cP dP HN EP)
    as ((_ & LbP & _ & _) & (Pb0 & Pc0 & Pd0) & (Pa1 & Pb1 & Pd1)).
  cbn [system_pivots_nonzero solution] in *.
  set (x := solveTridiagonal aE bE cE dE).
  apply (solveTridiagonal_unique_cells aP bP cP dP x); try lia; auto.
  intros i Hi. rewrite LbP in Hi.
  pose proof (solveTridiagonal_rows aE bE cE dE ltac:(lia) HpE i
                ltac:(lia)) as Hrow.
  fold x in Hrow. unfold row_holds in *. rewrite LbE in Hrow. rewrite LbP.
  destruct (Nat.eqb_spec i 0) as [E0|E0];
    destruct (Nat.eqb_spec i (N cfg - 1)) as [E1|E1]; try lia.
  - subst i. rewrite Eb0, Ec0, Ed0 in Hrow. rewrite Pb0, Pc0, Pd0.
    exact Hrow.
  - subst i. rewrite Ea1, Eb1, Ed1 in Hrow. rewrite Pa1, Pb1, Pd1.
    exact Hrow.
  - specialize (Hsc i ltac:(lia) Hdz). unfold system_row in Hsc.
    injection Hsc as Ea Eb Ec Ed.
    rewrite Ea, Eb, Ec, Ed in Hrow.
    apply (Rmult_eq_reg_r (/ dz cfg)); [|apply Rinv_neq_0_compat, Hdz].
    unfold Rdiv in Hrow. rewrite <- Hrow. ring.
Qed.

End EarlySolution.

(** *** The energy system of the earlier program *)

Section EarlyEnergy.

Import PISO.
Variable cfg : Config.
Variable s : State.








End EarlyEnergy.
(** *** The three-cell grid once more *)

Lemma small_grid_positive_coefficients :
  positive_coefficients small_config (PISO.initial_state small_config).
Proof.
  intros i Hi. change (PISO.N small_config) with 3%nat in Hi.
  rewrite small_grid_seed, small_grid_temperature by exact Hi.
  split; [apply small_grid_seed_positive|lra].
Qed.

Lemma small_grid_dz : PISO.dz small_config <> 0.
Proof. cbn. lra. Qed.



Lemma p_prime_early_pressure_corrector
      (cfg : PISO.Config) (s : PISO.State) :
  PISO.p_prime (PISO_early.pressure_corrector cfg s)
  = solution (PISO_early.pressure_corrector_system cfg s).
Proof.
  unfold PISO_early.pressure_corrector, solution.
  change (PISO_early.pressure_corrector_system
            cfg (PISO.emit PISO.AssembleContinuity s))
    with (PISO_early.pressure_corrector_system cfg s).
  now destruct (PISO_early.pressure_corrector_system cfg s)
    as [[[aP bP] cP] dP].
Qed.

(** ** Facts about the Rhie and Chow terms *)

(** The third difference of a quadratic profile is zero. *)
Lemma third_difference_quadratic (f : Z -> R) (j : Z) (a0 a1 a2 : R) :
  (forall k, (j - 2 <= k <= j + 1)%Z ->
             f k = a0 + a1 * IZR k + a2 * IZR k * IZR k) ->
  f (j - 2)%Z - 3 * f (j - 1)%Z + 3 * f j - f (j + 1)%Z = 0.
Proof.
  intros H.
  rewrite (H (j - 2)%Z), (H (j - 1)%Z), (H j), (H (j + 1)%Z) by lia.
  rewrite !minus_IZR, !plus_IZR. ring.
Qed.

(** The fourth difference of a cubic profile is zero. *)
Lemma fourth_difference_cubic (p : list R) (ix : nat) (a0 a1 a2 a3 : R) :
  (2 <= ix)%nat ->
  (forall k, (ix - 2 <= k <= ix + 2)%nat ->
     get p k = a0 + a1 * INR k + a2 * INR k * INR k
               + a3 * INR k * INR k * INR k) ->
  - get p (ix - 2) + 4 * get p (ix - 1) - 6 * get p ix
  + 4 * get p (ix + 1) - get p (ix + 2) = 0.
Proof.
  intros Hix H.
  rewrite (H (ix - 2)%nat), (H (ix - 1)%nat), (H ix), (H (ix + 1)%nat),
    (H (ix + 2)%nat) by lia.
  rewrite !plus_INR, !minus_INR by lia. simpl INR. ring.
Qed.

(** ** Strict dominance up to a zero-gradient row *)

Section DominancePrefix.

Variables a b c d : list R.

(** Strict dominance of the rows before [m] keeps their [c_star] below
    one in absolute value and their pivots away from zero. *)
Lemma dominance_prefix cs ds (m : nat) :
  (1 <= length b)%nat -> (m <= length b)%nat ->
  (forall i, (i < m)%nat ->
     Rabs (get a i) + Rabs (get c i) < Rabs (get b i)) ->
  forward_sweep a b c d = (cs, ds) ->
  forall i, (i < m)%nat ->
    Rabs (get cs i) < 1 /\
    ((1 <= i)%nat -> get b i - get a i * get cs (i - 1) <> 0).
Proof.
  intros Hn Hm Hdom E.
  destruct (forward_sweep_spec a b c d cs ds Hn E)
    as (_ & _ & Hc0 & _ & Hfw).
  assert (Hquot : forall p q, Rabs p < Rabs q -> Rabs (p / q) < 1).
  { intros p q H. assert (Hq : 0 < Rabs q).
    { pose proof (Rabs_pos p). lra. }
    assert (q <> 0) by (intros ->; rewrite Rabs_R0 in Hq; lra).
    unfold Rdiv. rewrite Rabs_mult, Rabs_inv.
    apply (Rmult_lt_reg_r (Rabs q)); [exact Hq|].
    rewrite Rmult_assoc, Rinv_l by lra. lra. }
  induction i as [|i IH]; intros Hi.
  - split; [|intros; lia]. rewrite Hc0. apply Hquot.
    specialize (Hdom 0%nat Hi). pose proof (Rabs_pos (get a 0)). lra.
  - destruct (IH ltac:(lia)) as [Hcs _].
    specialize (Hdom (S i) Hi).
    destruct (Hfw (S i) ltac:(lia)) as [Hc _].
    replace (S i - 1)%nat with i in * by lia.
    set (piv := get b (S i) - get a (S i) * get cs i) in *.
    assert (Hp : Rabs (get c (S i)) < Rabs piv).
    { unfold piv.
      pose proof (Rabs_triang_inv (get b (S i)) (get a (S i) * get cs i))
        as Ht.
      rewrite Rabs_mult in Ht.
      pose proof (Rabs_pos (get a (S i))) as Ha.
      pose proof (Rabs_pos (get cs i)) as Hc'.
      assert (Rabs (get a (S i)) * Rabs (get cs i) <= Rabs (get a (S i)))
        by nra.
      lra. }
    split.
    + rewrite Hc. apply Hquot. exact Hp.
    + intros _ H0. rewrite H0, Rabs_R0 in Hp.
      pose proof (Rabs_pos (get c (S i))). lra.
Qed.

(** Strictly dominant rows followed by a last row whose sub-diagonal entry
    is not larger than its diagonal entry: no pivot is zero. *)
Lemma dominance_then_gradient_row (n : nat) :
  (2 <= n)%nat -> length b = n ->
  (forall i, (i < n - 1)%nat ->
     Rabs (get a i) + Rabs (get c i) < Rabs (get b i)) ->
  Rabs (get a (n - 1)) <= Rabs (get b (n - 1)) ->
  get b (n - 1) <> 0 ->
  pivots_nonzero a b c d.
Proof.
  intros Hn Lb Hdom Hla Hlb. unfold pivots_nonzero, pivot.
  destruct (forward_sweep a b c d) as [cs ds] eqn:E. cbn [fst].
  pose proof (dominance_prefix cs ds (n - 1) ltac:(lia) ltac:(lia) Hdom E)
    as Hpre.
  split.
  - specialize (Hdom 0%nat ltac:(lia)).
    intros H0. rewrite H0, Rabs_R0 in Hdom.
    pose proof (Rabs_pos (get a 0)). pose proof (Rabs_pos (get c 0)). lra.
  - intros i Hi. rewrite Lb in Hi.
    destruct (Nat.eq_dec i (n - 1)) as [->|Hne].
    + destruct (Hpre (n - 1 - 1)%nat ltac:(lia)) as [Hcs _].
      intros H0.
      assert (Hb : get b (n - 1) = get a (n - 1) * get cs (n - 1 - 1))
        by lra.
      assert (Habs : Rabs (get b (n - 1))
                     = Rabs (get a (n - 1)) * Rabs (get cs (n - 1 - 1)))
        by (rewrite Hb at 1; apply Rabs_mult).
      pose proof (Rabs_pos (get a (n - 1))) as Ha.
      pose proof (Rabs_pos (get cs (n - 1 - 1))) as Hc.
      assert (Hbp : 0 < Rabs (get b (n - 1)))
        by (apply Rabs_pos_lt, Hlb).
      nra.
    + apply (Hpre i); lia.
Qed.

End DominancePrefix.

(** ** The momentum system of the SIMPLEC program once more *)

Section MomentumSIMPLECRows.

Import SIMPLEC.
Variable cfg : Config.
Variables u0 p0 T0 : list R.

Lemma simplec_cell_other sys ix j :
  j <> ix ->
  system_row (momentum_cell cfg u0 p0 T0 sys ix) j = system_row sys j.
Proof.
  intros H. destruct sys as [[[a b] c] d].
  unfold system_row, momentum_cell.
  rewrite !get_upd_other by congruence. reflexivity.
Qed.

Lemma simplec_cell_row n sys ix :
  system_sized n sys -> (ix < n)%nat ->
  system_row (momentum_cell cfg u0 p0 T0 sys ix) ix
  = system_row (momentum_cell cfg u0 p0 T0
                  (vec n 0, vec n 0, vec n 0, vec n 0) ix) ix.
Proof.
  destruct sys as [[[a b] c] d]. intros (La & Lb & Lc & Ld) Hi.
  unfold system_row, momentum_cell.
  rewrite !get_upd_same by (rewrite ?length_vec; lia). reflexivity.
Qed.

(** The rows of the momentum system between the two boundary rows, and
    the two entries of the boundary rows the program leaves at zero. *)
Lemma simplec_momentum_interior a b c d :
  (2 <= Nx cfg)%nat ->
  momentum_system cfg u0 p0 T0 = (a, b, c, d) ->
  get a 0 = 0 /\ get c (Nx cfg - 1) = 0 /\
  (forall ix, (1 <= ix < Nx cfg - 1)%nat ->
     system_row (a, b, c, d) ix
     = system_row (momentum_cell cfg u0 p0 T0
                     (vec (Nx cfg) 0, vec (Nx cfg) 0,
                      vec (Nx cfg) 0, vec (Nx cfg) 0) ix) ix).
Proof.
  intros HN. unfold momentum_system.
  set (z := vec (Nx cfg) 0).
  set (l := range 1 (Nx cfg - 1)).
  assert (Hz : system_sized (Nx cfg) (z, z, z, z)).
  { unfold system_sized, z. rewrite length_vec. auto. }
  assert (Hs : system_sized (Nx cfg)
                 (fold_left (momentum_cell cfg u0 p0 T0) l (z, z, z, z))).
  { apply simplec_cells_sized, Hz. }
  assert (Hout : forall j, ~ In j l ->
            system_row (fold_left (momentum_cell cfg u0 p0 T0) l
                                  (z, z, z, z)) j
            = system_row (z, z, z, z) j).
  { intros j Hj. apply (system_cells_other _ simplec_cell_other), Hj. }
  assert (Hrow : forall ix, (1 <= ix < Nx cfg - 1)%nat ->
            system_row (fold_left (momentum_cell cfg u0 p0 T0) l
                                  (z, z, z, z)) ix
            = system_row (momentum_cell cfg u0 p0 T0 (z, z, z, z) ix) ix).
  { intros ix Hi. unfold l.
    rewrite (system_cells_row _ simplec_cell_other 1 (Nx cfg - 1) ix _ Hi).
    apply (simplec_cell_row (Nx cfg)); [|lia].
    apply simplec_cells_sized, Hz. }
  assert (H0 : system_row (fold_left (momentum_cell cfg u0 p0 T0) l
                                      (z, z, z, z)) 0
               = system_row (z, z, z, z) 0)
    by (apply Hout; unfold l; rewrite in_range; lia).
  assert (H1 : system_row (fold_left (momentum_cell cfg u0 p0 T0) l
                                      (z, z, z, z)) (Nx cfg - 1)
               = system_row (z, z, z, z) (Nx cfg - 1))
    by (apply Hout; unfold l; rewrite in_range; lia).
  destruct (fold_left (momentum_cell cfg u0 p0 T0) l (z, z, z, z))
    as [[[a1 b1] c1] d1].
  destruct Hs as (La & Lb & Lc & Ld).
  unfold system_row in H0, H1. unfold z in H0, H1.
  rewrite !get_vec in H0, H1 by lia.
  injection H0 as Ea0 Eb0 Ec0 Ed0. injection H1 as Ea1 Eb1 Ec1 Ed1.
  unfold momentum_bc. intros E. inversion E; subst a b c d; clear E.
  split; [|split].
  - rewrite get_upd_other by lia. exact Ea0.
  - rewrite get_upd_other by lia. exact Ec1.
  - intros ix Hi. rewrite <- (Hrow ix Hi). unfold system_row.
    rewrite !(get_upd_other _ (Nx cfg - 1) ix) by lia.
    rewrite !(get_upd_other _ 0 ix) by lia. reflexivity.
Qed.

(** With positive steps and permeability, interior temperatures between
    zero and the critical one, and a velocity that does not fall by
    [dx / dt] or more from a node to the next, the momentum system meets
    no zero pivot. *)
Lemma simplec_momentum_pivots a b c d :
  (2 <= Nx cfg)%nat -> 0 < dt cfg -> 0 < dx cfg -> 0 < K cfg ->
  0 <= CF cfg ->
  (forall ix, (1 <= ix < Nx cfg - 1)%nat ->
     0 < get T0 ix <= 2509.46 /\
     (get u0 (ix - 1) - get u0 ix) * dt cfg < dx cfg) ->
  momentum_system cfg u0 p0 T0 = (a, b, c, d) ->
  pivots_nonzero a b c d.
Proof.
  intros HN Hdt Hdx HK HCF Hst E.
  destruct (simplec_momentum_system_rows cfg u0 p0 T0 a b c d HN E)
    as ((_ & Lb & _ & _) & (Hb0 & Hc0 & _) & (Ha1 & Hb1 & _)).
  destruct (simplec_momentum_interior a b c d HN E) as (Ha0 & Hc1 & Hin).
  apply (dominance_then_gradient_row a b c d (Nx cfg)); auto.
  - intros i Hi. destruct (Nat.eq_dec i 0) as [->|H0].
    { rewrite Ha0, Hb0, Hc0, Rabs_R0, Rabs_R1. lra. }
    specialize (Hin i ltac:(lia)).
    unfold system_row, momentum_cell in Hin.
    rewrite !get_upd_same in Hin by (rewrite ?length_vec; lia).
    cbv zeta in Hin.
    destruct (Hst i ltac:(lia)) as [[HT0 HT1] Hcfl].
    set (rho := value (rho_Na_l (get T0 i))) in *.
    set (mu := value (mu_Na (get T0 i))) in *.
    assert (Hrho : 219 <= rho).
    { apply (density_bounds (get T0 i) (get T0 i)); lra. }
    assert (Hmu : 0 < mu) by apply exp_pos.
    clearbody rho mu.
    injection Hin as Ea Eb Ec _.
    assert (Hq : 0 < / (dx cfg * dx cfg))
      by (apply Rinv_0_lt_compat, Rmult_lt_0_compat; exact Hdx).
    assert (Hm : 0 < mu * / (dx cfg * dx cfg))
      by (apply Rmult_lt_0_compat; assumption).
    assert (Hk : 0 < mu * / K cfg).
    { apply Rmult_lt_0_compat; [exact Hmu|apply Rinv_0_lt_compat, HK]. }
    assert (Hf : 0 <= CF cfg * rho * / sqrt (K cfg) * Rabs (get u0 i)).
    { apply Rmult_le_pos; [|apply Rabs_pos].
      apply Rmult_le_pos; [apply Rmult_le_pos; lra|].
      apply Rlt_le, Rinv_0_lt_compat, sqrt_lt_R0, HK. }
    assert (Hc : 0 < rho * / dt cfg
                     + rho * (get u0 i - get u0 (i - 1)) * / dx cfg).
    { assert (Hidt : 0 < / dt cfg) by (apply Rinv_0_lt_compat, Hdt).
      assert (Hidx : 0 < / dx cfg) by (apply Rinv_0_lt_compat, Hdx).
      assert (Hs : 0 < / dt cfg + (get u0 i - get u0 (i - 1)) * / dx cfg).
      { apply (Rmult_lt_reg_r (dt cfg * dx cfg));
          [apply Rmult_lt_0_compat; assumption|].
        rewrite Rmult_0_l.
        replace ((/ dt cfg + (get u0 i - get u0 (i - 1)) * / dx cfg)
                 * (dt cfg * dx cfg))
          with (dx cfg + (get u0 i - get u0 (i - 1)) * dt cfg)
          by (field; split; lra).
        lra. }
      replace (rho * / dt cfg
               + rho * (get u0 i - get u0 (i - 1)) * / dx cfg)
        with (rho * (/ dt cfg + (get u0 i - get u0 (i - 1)) * / dx cfg))
        by ring.
      apply Rmult_lt_0_compat; lra. }
    rewrite Ea, Eb, Ec. unfold Rdiv in *.
    rewrite (Rabs_left (- mu * / (dx cfg * dx cfg))) by lra.
    rewrite Rabs_right by lra. lra.
  - rewrite Ha1, Hb1, (Rabs_left (-1)), Rabs_R1 by lra. lra.
  - rewrite Hb1. lra.
Qed.

End MomentumSIMPLECRows.

Lemma simplec_small_K : 0 < SIMPLEC.K simplec_small_config.
Proof. cbn. lra. Qed.

Lemma simplec_small_CF : 0 <= SIMPLEC.CF simplec_small_config.
Proof. cbn. lra. Qed.

(** The initial values of the four-node grid are within the conditions of
    the momentum predictor. *)
Lemma simplec_small_momentum_conditions ix :
  (1 <= ix < SIMPLEC.Nx simplec_small_config - 1)%nat ->
  0 < get (SIMPLEC.T (SIMPLEC.initial_state simplec_small_config
                                            simplec_small_numerics)) ix
  <= 2509.46 /\
  (get (SIMPLEC.u (SIMPLEC.initial_state simplec_small_config
                                         simplec_small_numerics)) (ix - 1)
   - get (SIMPLEC.u (SIMPLEC.initial_state simplec_small_config
                                           simplec_small_numerics)) ix)
  * SIMPLEC.dt simplec_small_config
  < SIMPLEC.dx simplec_small_config.
Proof.
  cbn. intros Hi.
  assert (Hc : ix = 1%nat \/ ix = 2%nat) by lia.
  destruct Hc as [-> | ->]; cbn; repeat split; lra.
Qed.
(** ** The entries of the system the solver has no use for *)

Section Corner.

Variables a b c d : list R.
Variables v w : R.

(** Writing into [a[0]] and into [c[n - 1]] changes nothing the forward
    elimination leaves but [c_star[n - 1]]. *)
Lemma forward_sweep_corner cs ds cs' ds' :
  (1 <= length b)%nat ->
  forward_sweep a b c d = (cs, ds) ->
  forward_sweep (upd a 0 v) b (upd c (length b - 1) w) d = (cs', ds') ->
  forall i, (i < length b)%nat ->
    get ds' i = get ds i /\
    ((i < length b - 1)%nat -> get cs' i = get cs i).
Proof.
  intros Hn E E'.
  destruct (forward_sweep_spec a b c d cs ds Hn E)
    as (_ & _ & Hc0 & Hd0 & Hfw).
  destruct (forward_sweep_spec _ b _ d cs' ds' Hn E')
    as (_ & _ & Hc0' & Hd0' & Hfw').
  induction i as [|i IH]; intros Hi.
  - split; [now rewrite Hd0, Hd0'|].
    intros H0. rewrite Hc0, Hc0'. now rewrite get_upd_other by lia.
  - destruct (IH ltac:(lia)) as [Hds Hcs].
    specialize (Hcs ltac:(lia)).
    destruct (Hfw (S i) ltac:(lia)) as [Hc Hd].
    destruct (Hfw' (S i) ltac:(lia)) as [Hc' Hd'].
    replace (S i - 1)%nat with i in * by lia.
    rewrite (get_upd_other a 0 (S i)) in Hc', Hd' by lia.
    rewrite Hcs, Hds in Hd'. rewrite Hcs in Hc'.
    split; [now rewrite Hd, Hd'|].
    intros H1. rewrite Hc, Hc'. now rewrite get_upd_other by lia.
Qed.

(** So the pivots are the same, and so is the returned vector. *)
Lemma solveTridiagonal_corner :
  (1 <= length b)%nat ->
  (pivots_nonzero a b c d ->
   pivots_nonzero (upd a 0 v) b (upd c (length b - 1) w) d) /\
  solveTridiagonal (upd a 0 v) b (upd c (length b - 1) w) d
  = solveTridiagonal a b c d.
Proof.
  intros Hn.
  destruct (forward_sweep a b c d) as [cs ds] eqn:E.
  destruct (forward_sweep (upd a 0 v) b (upd c (length b - 1) w) d)
    as [cs' ds'] eqn:E'.
  pose proof (forward_sweep_corner cs ds cs' ds' Hn E E') as Hsame.
  split.
  - intros [Hb0 Hpiv]. split; [exact Hb0|].
    intros i Hi. specialize (Hpiv i Hi). unfold pivot in *.
    rewrite E in Hpiv. rewrite E'. cbn [fst] in *.
    rewrite get_upd_other by lia.
    destruct (Hsame (i - 1)%nat ltac:(lia)) as [_ Hcs].
    rewrite Hcs by lia. exact Hpiv.
  - apply (nth_ext _ _ 0 0).
    + now rewrite !length_solveTridiagonal.
    + intros i Hi. rewrite length_solveTridiagonal in Hi by exact Hn.
      change (get (solveTridiagonal (upd a 0 v) b
                                    (upd c (length b - 1) w) d) i
              = get (solveTridiagonal a b c d) i).
      apply (recurrence_determines _ _ cs ds (length b))
        with (k := (length b - 1 - i)%nat); auto.
      * intros j Hj.
        rewrite (solution_recurrence _ b _ d cs' ds' Hn E' j Hj).
        destruct (Hsame j Hj) as [Hds Hcs]. rewrite Hds.
        destruct (Nat.eqb_spec j (length b - 1)) as [Ej|Ej]; [lra|].
        rewrite Hcs by lia. reflexivity.
      * apply solution_recurrence; assumption.
Qed.

End Corner.
(** ** The momentum systems of the three-cell grid with a flow *)

Section FlowGrid.

Import PISO.

#[local] Abbreviation cfg := flow_config.
#[local] Abbreviation s := (initial_state flow_config).
#[local] Abbreviation s_1 := (emit AssembleMomentum (initial_state flow_config)).

Lemma flow_grid_two : (2 <= N cfg)%nat.
Proof. simpl; lia. Qed.

Lemma flow_grid_sized : momentum_sized (N cfg) s.
Proof. repeat split. Qed.

Lemma flow_grid_density : 219 <= rho_at s_1 1 /\ 219 <= rho_at s_1 0
                           /\ 219 <= rho_at s_1 2.
Proof.
  assert (HT : forall j, (j < 3)%nat -> get (T s_1) j = 600).
  { intros j Hj. apply get_vec. exact Hj. }
  unfold rho_at, liquid_sodium.rho, liquid_sodium.Tcrit, value; simpl fst.
  rewrite !HT by lia.
  repeat split; apply sodium_density_positive; lra.
Qed.

Lemma flow_grid_faces :
  u_l_face cfg s_1 1 = 0.001 /\ u_r_face cfg s_1 1 = 0.001.
Proof.
  unfold u_l_face, u_r_face, rhie_chow_l, rhie_chow_r.
  change (p_padded s_1 (Z.of_nat 1 - 2)) with 50000.0.
  change (p_padded s_1 (Z.of_nat 1 - 1)) with 50000.0.
  change (p_padded s_1 (Z.of_nat 1)) with 50000.0.
  change (p_padded s_1 (Z.of_nat 1 + 1)) with 50000.0.
  change (p_padded s_1 (Z.of_nat 1 + 2)) with 50000.0.
  change (get (u s_1) (1 - 1)) with 0.001.
  change (get (u s_1) 1) with 0.001.
  change (get (u s_1) (1 + 1)) with 0.001.
  change (rhie_chow_on_off cfg) with 1.
  split; lra.
Qed.

Lemma flow_grid_fluxes : 0 <= F_l cfg s_1 1 /\ 0 <= F_r cfg s_1 1.
Proof.
  destruct flow_grid_faces as [Hl Hr].
  destruct flow_grid_density as (H1 & H0 & H2).
  unfold F_l, F_r. rewrite Hl, Hr.
  change (1 - 1)%nat with 0%nat. change (1 + 1)%nat with 2%nat.
  destruct (Rge_dec 0.001 0); [|lra]. split; nra.
Qed.

(** The diagonal entry of the interior row is positive. *)
Lemma flow_grid_interior_diagonal :
  0 < get (bU (assemble_momentum cfg s)) 1.
Proof.
  destruct (momentum_interior_rows cfg s 1 ltac:(simpl; lia)
                                   flow_grid_sized)
    as (_ & _ & Hb & _).
  change (fold_left (momentum_cell cfg) (range 1 1)
                    (emit AssembleMomentum s)) with s_1 in Hb.
  rewrite Hb. clear Hb.
  destruct flow_grid_fluxes as [Hl Hr].
  destruct flow_grid_density as (H1 & H0 & H2).
  rewrite (Rmax_left (F_r cfg s_1 1) 0) by lra.
  rewrite (Rmax_right (- F_l cfg s_1 1) 0) by lra.
  change (get (T s) 1) with T_init.
  change (get (T s) (1 - 1)) with T_init.
  change (get (T s) (1 + 1)) with T_init.
  change (rho_at s_1 1) with (value (liquid_sodium.rho T_init)) in H1.
  set (rho := value (liquid_sodium.rho T_init)) in *.
  assert (Hmu : 0 < value (liquid_sodium.mu T_init))
    by apply sodium_viscosity_positive.
  set (mu := value (liquid_sodium.mu T_init)) in *.
  change (dz cfg) with (1.0 / (3 - 1)). change (dt cfg) with 0.1.
  change (K cfg) with 1e-6. change (CF cfg) with 0.0.
  assert (Hk : 0 < mu / 1e-6 * (1.0 / (3 - 1))).
  { apply Rmult_lt_0_compat; [|lra].
    apply Rdiv_lt_0_compat; lra. }
  assert (Hz : 0.0 * mu * (1.0 / (3 - 1)) / sqrt 1e-6
               * Rabs (get (u s) 1) = 0).
  { replace 0.0 with 0 by lra. unfold Rdiv. rewrite !Rmult_0_l.
    reflexivity. }
  rewrite Hz. lra.
Qed.

Lemma flow_grid_pivots :
  let s' := assemble_momentum cfg s in
  pivots_nonzero (aU s') (bU s') (cU s') (dU s').
Proof.
  cbv zeta.
  destruct (assemble_momentum_bc_rows cfg s ltac:(simpl; lia)
                                      flow_grid_sized)
    as [(Hb0 & Hc0 & _) (Ha & Hb & _)].
  pose proof (momentum_sized_same _ _ _ (assemble_momentum_size cfg s)
                                  flow_grid_sized) as (_ & Lb & _ & _).
  destruct flow_grid_density as (H1 & H0 & H2).
  assert (Hmu : forall j, 0 < mu_at s j)
    by (intros j; apply sodium_viscosity_positive).
  change (rho_at s_1 0) with (rho_at s 0) in H0.
  change (rho_at s_1 2) with (rho_at s 2) in H2.
  change (N cfg - 1)%nat with 2%nat in Ha, Hb.
  apply pivots_nonzero_three; auto.
  - rewrite Hb0. change (dz cfg) with (1.0 / (3 - 1)).
    change (dt cfg) with 0.1. specialize (Hmu 0%nat).
    assert (0 < mu_at s 0 / (1.0 / (3 - 1)))
      by (apply Rdiv_lt_0_compat; lra).
    lra.
  - pose proof flow_grid_interior_diagonal. lra.
  - rewrite Hb. change (dz cfg) with (1.0 / (3 - 1)).
    change (dt cfg) with 0.1. specialize (Hmu 2%nat).
    assert (0 < mu_at s 2 / (1.0 / (3 - 1)))
      by (apply Rdiv_lt_0_compat; lra).
    lra.
Qed.

End FlowGrid.

(** The diagonal entry the loop of the earlier program writes. *)
Lemma early_momentum_cell_diagonal (cfg : PISO.Config) n s i :
  momentum_sized n s -> (i < n)%nat ->
  get (PISO.bU (PISO_early.momentum_cell cfg s i)) i
  = (Rmax (PISO_early.F_r cfg s i) 0 - Rmax (- PISO_early.F_l cfg s i) 0)
    + PISO_early.rho_at s i * PISO.dz cfg / PISO.dt cfg
    + PISO_early.D_l cfg s i + PISO_early.D_r cfg s i
    + PISO_early.mu_at s i / PISO.K cfg * PISO.dz cfg
    + PISO.CF cfg * PISO_early.mu_at s i * PISO.dz cfg / sqrt (PISO.K cfg)
      * Rabs (get (PISO.u s) i).
Proof.
  intros (La & Lb & Lc & Ld) Hi.
  unfold PISO_early.momentum_cell; state_simpl.
  rewrite !get_upd_same by lia.
  replace 0.0 with 0 by lra. reflexivity.
Qed.

Section EarlyFlowGrid.

Import PISO.

#[local] Abbreviation cfg := flow_config.
#[local] Abbreviation s := (PISO_early.initial_state flow_config).
#[local] Abbreviation s_1 :=
  (emit AssembleMomentum (PISO_early.initial_state flow_config)).

Lemma early_flow_grid_sized : momentum_sized (N cfg) s.
Proof. repeat split. Qed.

Lemma early_flow_grid_density :
  219 <= PISO_early.rho_at s_1 1 /\ 219 <= PISO_early.rho_at s_1 0
  /\ 219 <= PISO_early.rho_at s_1 2.
Proof.
  assert (HT : forall j, (j < 3)%nat -> get (T s_1) j = 200).
  { intros j Hj. apply get_vec. exact Hj. }
  unfold PISO_early.rho_at, PISO_early.liquid_sodium.rho,
    PISO_early.liquid_sodium.Tcrit, value; simpl fst.
  rewrite !HT by lia.
  repeat split; apply sodium_density_positive; lra.
Qed.

Lemma early_flow_grid_faces :
  u_l_face cfg s_1 1 = 0.001 /\ u_r_face cfg s_1 1 = 0.001.
Proof.
  unfold u_l_face, u_r_face, rhie_chow_l, rhie_chow_r.
  change (p_padded s_1 (Z.of_nat 1 - 2)) with 50000.0.
  change (p_padded s_1 (Z.of_nat 1 - 1)) with 50000.0.
  change (p_padded s_1 (Z.of_nat 1)) with 50000.0.
  change (p_padded s_1 (Z.of_nat 1 + 1)) with 50000.0.
  change (p_padded s_1 (Z.of_nat 1 + 2)) with 50000.0.
  change (get (u s_1) (1 - 1)) with 0.001.
  change (get (u s_1) 1) with 0.001.
  change (get (u s_1) (1 + 1)) with 0.001.
  change (rhie_chow_on_off cfg) with 1.
  split; lra.
Qed.

Lemma early_flow_grid_fluxes :
  0 <= PISO_early.F_l cfg s_1 1 /\ 0 <= PISO_early.F_r cfg s_1 1.
Proof.
  destruct early_flow_grid_faces as [Hl Hr].
  destruct early_flow_grid_density as (H1 & H0 & H2).
  unfold PISO_early.F_l, PISO_early.F_r. rewrite Hl, Hr.
  change (1 - 1)%nat with 0%nat. change (1 + 1)%nat with 2%nat.
  destruct (Rge_dec 0.001 0); [|lra]. split; nra.
Qed.

(** The diagonal entry of the interior row is positive. *)
Lemma early_flow_grid_interior_diagonal :
  0 < get (bU (PISO_early.assemble_momentum cfg s)) 1.
Proof.
  destruct (early_assemble_momentum_row cfg s 1 ltac:(simpl; lia))
    as (_ & Hb & _).
  change (fold_left (PISO_early.momentum_cell cfg) (range 1 1)
                    (emit AssembleMomentum s)) with s_1 in Hb.
  rewrite Hb.
  rewrite (early_momentum_cell_diagonal cfg 3 s_1 1)
    by (try lia; repeat split).
  destruct early_flow_grid_fluxes as [Hl Hr].
  destruct early_flow_grid_density as (H1 & H0 & H2).
  rewrite (Rmax_left (PISO_early.F_r cfg s_1 1) 0) by lra.
  rewrite (Rmax_right (- PISO_early.F_l cfg s_1 1) 0) by lra.
  unfold PISO_early.D_l, PISO_early.D_r.
  change (1 - 1)%nat with 0%nat. change (1 + 1)%nat with 2%nat.
  assert (Hmu : 0 < PISO_early.mu_at s_1 1)
    by apply sodium_viscosity_positive.
  set (mu := PISO_early.mu_at s_1 1) in *.
  set (r1 := PISO_early.rho_at s_1 1) in *.
  set (r0 := PISO_early.rho_at s_1 0) in *.
  set (r2 := PISO_early.rho_at s_1 2) in *.
  change (dz cfg) with (1.0 / (3 - 1)). change (dt cfg) with 0.1.
  change (K cfg) with 1e-6. change (CF cfg) with 0.0.
  assert (Hk : 0 < mu / 1e-6 * (1.0 / (3 - 1))).
  { apply Rmult_lt_0_compat; [|lra].
    apply Rdiv_lt_0_compat; lra. }
  assert (Hz : 0.0 * mu * (1.0 / (3 - 1)) / sqrt 1e-6
               * Rabs (get (u s_1) 1) = 0).
  { replace 0.0 with 0 by lra. unfold Rdiv. rewrite !Rmult_0_l.
    reflexivity. }
  rewrite Hz. lra.
Qed.

Lemma early_flow_grid_pivots :
  let s' := PISO_early.assemble_momentum cfg s in
  pivots_nonzero (aU s') (bU s') (cU s') (dU s').
Proof.
  cbv zeta.
  destruct (early_assemble_momentum_bc_rows cfg s ltac:(simpl; lia)
                                            early_flow_grid_sized)
    as [(Hb0 & Hc0 & _) (Ha & Hb & _)].
  pose proof (momentum_sized_same _ _ _
                (early_assemble_momentum_size cfg s)
                early_flow_grid_sized) as (_ & Lb & _ & _).
  destruct early_flow_grid_density as (H1 & H0 & H2).
  assert (Hmu : forall j, 0 < PISO_early.mu_at s j)
    by (intros j; apply sodium_viscosity_positive).
  change (PISO_early.rho_at s_1 0) with (PISO_early.rho_at s 0) in H0.
  change (PISO_early.rho_at s_1 2) with (PISO_early.rho_at s 2) in H2.
  change (N cfg - 1)%nat with 2%nat in Ha, Hb.
  apply pivots_nonzero_three; auto.
  - rewrite Hb0. change (dz cfg) with (1.0 / (3 - 1)).
    change (dt cfg) with 0.1. specialize (Hmu 0%nat).
    assert (0 < PISO_early.mu_at s 0 / (1.0 / (3 - 1)))
      by (apply Rdiv_lt_0_compat; lra).
    lra.
  - pose proof early_flow_grid_interior_diagonal. lra.
  - rewrite Hb. change (dz cfg) with (1.0 / (3 - 1)).
    change (dt cfg) with 0.1. specialize (Hmu 2%nat).
    assert (0 < PISO_early.mu_at s 2 / (1.0 / (3 - 1)))
      by (apply Rdiv_lt_0_compat; lra).
    lra.
Qed.

End EarlyFlowGrid.

(** The momentum system of the four-node grid of the SIMPLEC program at
    its initial values has no zero pivot. *)
Lemma simplec_small_pivots :
  let '(a, b, c, d) :=
    SIMPLEC.momentum_system
      simplec_small_config
      (SIMPLEC.u (SIMPLEC.initial_state simplec_small_config
                                        simplec_small_numerics))
      (SIMPLEC.p (SIMPLEC.initial_state simplec_small_config
                                        simplec_small_numerics))
      (SIMPLEC.T (SIMPLEC.initial_state simplec_small_config
                                        simplec_small_numerics)) in
  pivots_nonzero a b c d.
Proof.
  destruct (SIMPLEC.momentum_system _ _ _ _) as [[[a b] c] d] eqn:E.
  exact (simplec_momentum_pivots simplec_small_config _ _ _ a b c d
           simplec_small_two simplec_small_dt simplec_small_dx_positive
           simplec_small_K simplec_small_CF
           simplec_small_momentum_conditions E).
Qed.

(** * The properties of the specification *)

(** ** C1: the tridiagonal solver *)

(** C1.  For four sequences of equal length [n >= 1] whose pivots are all
    nonzero, [solveTridiagonal] makes one forward pass that fills [c_star]
    and [d_star] by the stated recurrence, then one backward pass, and the
    vector it returns has length [n] and satisfies every row of the
    tridiagonal system (for [n = 1] the single row is [b[0] * x[0] = d[0]]). *)
Theorem C1_solveTridiagonal_solves (a b c d : list R) (n : nat) :
  length a = n -> length b = n -> length c = n -> length d = n ->
  (1 <= n)%nat ->
  pivots_nonzero a b c d ->
  let c_star := fst (forward_sweep a b c d) in
  let d_star := snd (forward_sweep a b c d) in
  let x := solveTridiagonal a b c d in
  (get c_star 0 = get c 0 / get b 0 /\
   get d_star 0 = get d 0 / get b 0 /\
   forall i, (1 <= i < n)%nat ->
     let m := get b i - get a i * get c_star (i - 1) in
     m <> 0 /\
     get c_star i = get c i / m /\
     get d_star i = (get d i - get a i * get d_star (i - 1)) / m) /\
  x = back_substitution n c_star d_star /\
  length x = n /\
  (n = 1%nat -> get b 0 * get x 0 = get d 0) /\
  ((2 <= n)%nat -> get b 0 * get x 0 + get c 0 * get x 1 = get d 0) /\
  (forall i, (0 < i < n - 1)%nat ->
     get a i * get x (i - 1) + get b i * get x i + get c i * get x (i + 1)
     = get d i) /\
  ((2 <= n)%nat ->
     get a (n - 1) * get x (n - 2) + get b (n - 1) * get x (n - 1)
     = get d (n - 1)).
Proof.
  intros La Lb Lc Ld Hn Hp c_star d_star x.
  assert (Hlen : (1 <= length b)%nat) by lia.
  pose proof (solveTridiagonal_rows a b c d Hlen Hp) as Hrows.
  fold x in Hrows. rewrite Lb in Hrows.
  split; [|split; [|split; [|split; [|split; [|split]]]]].
  - destruct (forward_sweep a b c d) as [cs ds] eqn:E.
    destruct (forward_sweep_spec a b c d cs ds Hlen E)
      as (_ & _ & Hc0 & Hd0 & Hfw).
    destruct Hp as [_ Hpiv]. unfold pivot in Hpiv. rewrite E in Hpiv.
    subst c_star d_star; simpl in *.
    split; [exact Hc0|]. split; [exact Hd0|].
    intros i Hi. rewrite <- Lb in Hi.
    split; [apply Hpiv; exact Hi|apply Hfw; exact Hi].
  - unfold x. rewrite solveTridiagonal_passes, Lb. reflexivity.
  - unfold x. rewrite length_solveTridiagonal; lia.
  - intros ->. specialize (Hrows 0%nat ltac:(lia)).
    unfold row_holds in Hrows. rewrite Lb in Hrows. simpl in Hrows. lra.
  - intros H2. specialize (Hrows 0%nat ltac:(lia)).
    unfold row_holds in Hrows. rewrite Lb in Hrows.
    destruct (Nat.eqb_spec 0 (n - 1)) as [E|_]; [lia|].
    simpl in Hrows. lra.
  - intros i Hi. specialize (Hrows i ltac:(lia)).
    unfold row_holds in Hrows. rewrite Lb in Hrows.
    destruct (Nat.eqb_spec i 0) as [E|_]; [lia|].
    destruct (Nat.eqb_spec i (n - 1)) as [E|_]; [lia|]. exact Hrows.
  - intros H2. specialize (Hrows (n - 1)%nat ltac:(lia)).
    unfold row_holds in Hrows. rewrite Lb in Hrows.
    destruct (Nat.eqb_spec (n - 1) 0) as [E|_]; [lia|].
    rewrite Nat.eqb_refl in Hrows.
    replace (n - 1 - 1)%nat with (n - 2)%nat in Hrows by lia. lra.
Qed.

Lemma C1_pivots_example :
  pivots_nonzero [0; 1; 1] [2; 2; 2] [1; 1; 0] [1; 2; 3].
Proof.
  split.
  - unfold get; simpl. lra.
  - intros i Hi. simpl in Hi.
    assert (Hc : i = 1%nat \/ i = 2%nat) by lia.
    destruct Hc as [-> | ->]; unfold pivot, forward_sweep, range, vec;
      cbn [length repeat seq Nat.sub fold_left forward_step upd get nth
           fst snd]; lra.
Qed.

Lemma C1_witness :
  let a := [0; 1; 1] in
  let b := [2; 2; 2] in
  let c := [1; 1; 0] in
  let d := [1; 2; 3] in
  let x := solveTridiagonal a b c d in
  length x = 3%nat /\
  get b 0 * get x 0 + get c 0 * get x 1 = get d 0 /\
  get a 1 * get x 0 + get b 1 * get x 1 + get c 1 * get x 2 = get d 1 /\
  get a 2 * get x 1 + get b 2 * get x 2 = get d 2.
Proof.
  intros a b c d x.
  destruct (C1_solveTridiagonal_solves a b c d 3
              eq_refl eq_refl eq_refl eq_refl ltac:(lia) C1_pivots_example)
    as (_ & _ & Hlen & _ & Hfirst & Hmid & Hlast).
  split; [exact Hlen|]. split; [apply Hfirst; lia|].
  split; [apply (Hmid 1%nat); simpl; lia|apply Hlast; lia].
Defined.

(** ** C2: the stages of one pass of the inner loop and its guard *)

(** C2, as the program has it.  One pass of the inner loop enters the
    momentum assembly and the momentum solve once, then [corr_iter] times
    the round of pressure-correction assembly, pressure-correction solve,
    pressure and ghost-buffer update, velocity correction, and adds one to
    the pass counter.  After it a further pass is started if and only if
    fewer than [tot_iter] passes have run and [maxErr] is strictly greater
    than [tol]; otherwise the loop ends with the state it has. *)
Theorem C2_pass_stages_and_guard (cfg : PISO.Config) (s : PISO.State) :
  PISO.log (PISO.piso_body cfg s)
  = PISO.log s
    ++ [PISO.AssembleMomentum; PISO.SolveMomentum]
    ++ concat (repeat [PISO.AssembleContinuity; PISO.SolveContinuity;
                       PISO.UpdatePressure; PISO.CorrectVelocity]
                      (PISO.corr_iter cfg)) /\
  PISO.iter (PISO.piso_body cfg s) = S (PISO.iter s) /\
  (PISO.piso_guard cfg s = true <->
   (PISO.iter s < PISO.tot_iter cfg)%nat /\ PISO.maxErr s > PISO.tol cfg) /\
  PISO.piso_loop cfg s =
  (if PISO.piso_guard cfg s
   then PISO.piso_loop cfg (PISO.piso_body cfg s)
   else s).
Proof.
  split; [apply log_piso_body|].
  split; [apply iter_piso_body|].
  split; [apply piso_guard_true|apply piso_loop_unfold].
Qed.

(** C2 as stated fails when the residual equals the tolerance: with the
    constants of [main], one pass made and [maxErr = tol], the stated
    condition for a further pass holds, yet the guard is false and the loop
    ends there. *)
Lemma C2_counterexample :
  let cfg := PISO.main_config in
  let s := PISO.set_maxErr (PISO.tol cfg)
             (PISO.set_iter 1 (PISO.initial_state cfg)) in
  (PISO.maxErr s >= PISO.tol cfg /\ (PISO.iter s < PISO.tot_iter cfg)%nat) /\
  PISO.piso_guard cfg s = false /\
  PISO.piso_loop cfg s = s.
Proof.
  intros cfg s.
  assert (G : PISO.piso_guard cfg s = false).
  { apply piso_guard_false. right. unfold s; state_simpl. lra. }
  split; [|split; [exact G|]].
  - split; [unfold s; state_simpl; lra|].
    unfold s, cfg; state_simpl. cbn [PISO.tot_iter PISO.main_config]. lia.
  - rewrite piso_loop_unfold, G. reflexivity.
Qed.

(** ** C4: the loop ends within its budget and the energy equation is solved once *)


(** ** C7: the warning of the property functions *)

(** C7, as the programs have it.  The four property functions of the
    [liquid_sodium] namespace that defines [Tsolid] print the warning if and
    only if [T < 370.87], and then print exactly that one warning; the
    property functions of the SIMPLEC program and of the earlier
    [liquid_sodium] namespace never print one.  All of them return the value
    of their correlation formula. *)
Theorem C7_warning_below_solidification (T : R) :
  ((warns (PISO.liquid_sodium.rho T) <-> T < 370.87) /\
   (warns (PISO.liquid_sodium.k T) <-> T < 370.87) /\
   (warns (PISO.liquid_sodium.cp T) <-> T < 370.87) /\
   (warns (PISO.liquid_sodium.mu T) <-> T < 370.87)) /\
  (forall f, In f [PISO.liquid_sodium.rho; PISO.liquid_sodium.k;
                   PISO.liquid_sodium.cp; PISO.liquid_sodium.mu] ->
     printed (f T) = [BelowSolidification T] \/ printed (f T) = []) /\
  (forall f, In f [SIMPLEC.rho_Na_l; SIMPLEC.k_Na_l; SIMPLEC.Cp_Na_l;
                   SIMPLEC.mu_Na;
                   PISO_early.liquid_sodium.rho; PISO_early.liquid_sodium.k;
                   PISO_early.liquid_sodium.cp; PISO_early.liquid_sodium.mu] ->
     ~ warns (f T)) /\
  (forall rho, In rho [PISO.liquid_sodium.rho; SIMPLEC.rho_Na_l;
                       PISO_early.liquid_sodium.rho] ->
     value (rho T)
     = 219.0 + 275.32 * (1.0 - T / 2509.46)
       + 511.58 * sqrt (1.0 - T / 2509.46)) /\
  (forall k, In k [PISO.liquid_sodium.k; SIMPLEC.k_Na_l;
                   PISO_early.liquid_sodium.k] ->
     value (k T)
     = 124.67 - 0.11381 * T + 5.5226e-5 * T * T - 1.1842e-8 * T * T * T) /\
  (forall cp, In cp [PISO.liquid_sodium.cp; SIMPLEC.Cp_Na_l;
                     PISO_early.liquid_sodium.cp] ->
     value (cp T)
     = 1436.72 - 0.58 * (T - 273.15)
       + 4.627e-4 * (T - 273.15) * (T - 273.15)) /\
  (forall mu, In mu [PISO.liquid_sodium.mu; SIMPLEC.mu_Na;
                     PISO_early.liquid_sodium.mu] ->
     value (mu T) = exp (-6.4406 - 0.3958 * ln T + 556.835 / T)).
Proof.
  assert (W : forall v : R,
             warns (v, if Rlt_dec T PISO.liquid_sodium.Tsolid
                       then [BelowSolidification T] else [])
             <-> T < 370.87).
  { intros v. unfold warns, printed, PISO.liquid_sodium.Tsolid; simpl.
    destruct (Rlt_dec T 370.87); split; intros H; try congruence; tauto. }
  split; [repeat split; apply W|].
  split.
  { intros f Hf. simpl in Hf.
    destruct Hf as [<-|[<-|[<-|[<-|[]]]]]; unfold printed; simpl;
      destruct (Rlt_dec T PISO.liquid_sodium.Tsolid); auto. }
  split.
  { intros f Hf. simpl in Hf. unfold warns, printed.
    destruct Hf as [<-|[<-|[<-|[<-|[<-|[<-|[<-|[<-|[]]]]]]]]]; simpl; tauto. }
  repeat split; intros f Hf; simpl in Hf;
    destruct Hf as [<-|[<-|[<-|[]]]]; reflexivity.
Qed.

(** C7 as stated fails for the earlier [liquid_sodium] namespace: at the
    initial temperature of that program, 200 K, which is below 370.87 K,
    the density function prints nothing. *)
Lemma C7_counterexample :
  PISO_early.T_init < 370.87 /\
  printed (PISO_early.liquid_sodium.rho PISO_early.T_init) = [] /\
  ~ (warns (PISO_early.liquid_sodium.rho PISO_early.T_init)
     <-> PISO_early.T_init < 370.87).
Proof.
  assert (H : PISO_early.T_init < 370.87) by (unfold PISO_early.T_init; lra).
  split; [exact H|]. split; [reflexivity|].
  intros [_ Hw]. apply (Hw H). reflexivity.
Qed.

(** ** C8: what reaches the output file *)

(** C8, at the first timestep of the program.  With the constants of
    [main] and its initial variables, the timestep [it = 0], which is not
    the last one ([t_iter = 10000]), appends the two-line-feed text twice to
    the output file: the file does not stay unchanged. *)
Theorem C8_first_timestep_writes_blank_lines :
  PISO.last_step PISO.main_config 0 = false /\
  PISO.fout (PISO.initial_state PISO.main_config) = [] /\
  PISO.fout (PISO.timestep PISO.main_config
                           (PISO.initial_state PISO.main_config) 0)
  = [PISO.Blank; PISO.Blank].
Proof.
  assert (H : PISO.last_step PISO.main_config 0 = false) by reflexivity.
  split; [exact H|]. split; [reflexivity|].
  rewrite fout_timestep, H. reflexivity.
Qed.

(** What a timestep writes, in general: the two blank-line texts at every
    timestep, and the three profiles, each number followed by [", "], at
    the last timestep only. *)
Lemma output_of_timestep (cfg : PISO.Config) (s : PISO.State) (it : nat) :
  let s' := PISO.temperature_calculator cfg
              (PISO.piso_loop cfg (PISO.begin_timestep s)) in
  PISO.fout (PISO.timestep cfg s it) =
  PISO.fout s ++
  (if PISO.last_step cfg it
   then PISO.profile cfg (PISO.u s') ++ [PISO.Blank]
        ++ PISO.profile cfg (PISO.p s') ++ [PISO.Blank]
        ++ PISO.profile cfg (PISO.T s')
   else [PISO.Blank; PISO.Blank]).
Proof.
  intros s'. rewrite fout_timestep. fold s'.
  destruct (PISO.last_step cfg it); reflexivity.
Qed.

(** ** C5: the ghost-padded pressure buffer *)

(** C5.  After the pressure update, every cell of the pressure field holds
    its old value plus the correction, the buffer cell [i + 1] holds
    [p[i]] for every cell [i], the inlet ghost [p_storage[0]] holds [p[0]],
    and the outlet ghost [p_storage[N + 1]] holds [p_outlet]. *)
Theorem C5_ghost_buffer_after_pressure_update
        (cfg : PISO.Config) (s : PISO.State) :
  (1 <= PISO.N cfg)%nat ->
  length (PISO.p s) = PISO.N cfg ->
  length (PISO.p_storage s) = (PISO.N cfg + 2)%nat ->
  let s' := PISO.pressure_corrector cfg s in
  (forall i, (i < PISO.N cfg)%nat ->
     get (PISO.p s') i = get (PISO.p s) i + get (PISO.p_prime s) i) /\
  (forall i, (i < PISO.N cfg)%nat ->
     get (PISO.p_storage s') (i + 1) = get (PISO.p s') i) /\
  get (PISO.p_storage s') 0 = get (PISO.p s') 0 /\
  get (PISO.p_storage s') (PISO.N cfg + 1) = PISO.p_outlet cfg.
Proof.
  intros HN Lp Ls. cbv zeta. unfold PISO.pressure_corrector.
  set (s0 := PISO.emit PISO.UpdatePressure s).
  pose proof (pressure_cells_inv s0 (PISO.N cfg)) as H. cbv zeta in H.
  change (PISO.p s0) with (PISO.p s) in H.
  change (PISO.p_storage s0) with (PISO.p_storage s) in H.
  change (PISO.p_prime s0) with (PISO.p_prime s) in H.
  destruct (H ltac:(lia) ltac:(lia)) as (Lp1 & Ls1 & _ & _ & Hupd & Hbuf).
  set (s1 := fold_left PISO.pressure_cell (range 0 (PISO.N cfg)) s0) in *.
  state_simpl.
  split; [exact Hupd|]. split; [|split].
  - intros i Hi. rewrite !get_upd_other by lia. apply Hbuf; exact Hi.
  - rewrite get_upd_other by lia. rewrite get_upd_same by lia.
    apply (Hbuf 0%nat); lia.
  - apply get_upd_same. rewrite length_upd. lia.
Qed.

Lemma C5_witness :
  let cfg := small_config in
  let s' := PISO.pressure_corrector cfg (PISO.initial_state cfg) in
  (forall i, (i < 3)%nat ->
     get (PISO.p_storage s') (i + 1) = get (PISO.p s') i) /\
  get (PISO.p_storage s') 0 = get (PISO.p s') 0 /\
  get (PISO.p_storage s') 4 = 50000.0.
Proof.
  intros cfg s'.
  destruct (C5_ghost_buffer_after_pressure_update
              cfg (PISO.initial_state cfg)
              ltac:(simpl; lia) eq_refl eq_refl) as (_ & Hb & H0 & Hn).
  exact (conj Hb (conj H0 Hn)).
Defined.

(** ** C9: the residual tested by the guard *)

(** C9.  With at least one corrector round per pass, the state a pass
    hands to the guard is the output of its last corrector round, and its
    [maxErr] is the largest absolute change that this last round made to an
    interior velocity (zero when the grid has no interior cell): it bounds
    every such change and equals one of them.  The velocity entering the
    last round is the reference; what the momentum solve and the earlier
    rounds changed does not enter. *)
Theorem C9_residual_is_last_round_change
        (cfg : PISO.Config) (s : PISO.State) :
  (1 <= PISO.corr_iter cfg)%nat ->
  let before_last :=
    Nat.iter (PISO.corr_iter cfg - 1) (PISO.corrector_round cfg)
             (PISO.momentum_predictor cfg s) in
  let s' := PISO.piso_body cfg s in
  s' = PISO.set_iter (S (PISO.iter before_last))
                     (PISO.corrector_round cfg before_last) /\
  (forall i, (0 < i < PISO.N cfg - 1)%nat ->
     Rabs (get (PISO.u s') i - get (PISO.u before_last) i)
     <= PISO.maxErr s') /\
  ((3 <= PISO.N cfg)%nat ->
     exists i, (0 < i < PISO.N cfg - 1)%nat /\
       PISO.maxErr s'
       = Rabs (get (PISO.u s') i - get (PISO.u before_last) i)) /\
  ((PISO.N cfg < 3)%nat -> PISO.maxErr s' = 0).
Proof.
  intros Hc before_last s'.
  assert (E : s' = PISO.set_iter (S (PISO.iter before_last))
                     (PISO.corrector_round cfg before_last)).
  { unfold s', before_last, PISO.piso_body. cbv zeta.
    destruct (PISO.corr_iter cfg) as [|k]; [lia|].
    replace (S k - 1)%nat with k by lia.
    rewrite Nat.iter_succ. now rewrite iter_corrector_round. }
  split; [exact E|].
  rewrite E. state_simpl. unfold PISO.corrector_round.
  set (mid := PISO.pressure_corrector cfg
                (PISO.continuity_satisfactor cfg before_last)).
  assert (Hu : PISO.u mid = PISO.u before_last)
    by apply u_before_velocity_corrector.
  rewrite <- Hu. apply velocity_corrector_residual.
Qed.

Lemma C9_witness :
  let cfg := small_config in
  let s := PISO.initial_state cfg in
  let before_last :=
    Nat.iter (PISO.corr_iter cfg - 1) (PISO.corrector_round cfg)
             (PISO.momentum_predictor cfg s) in
  let s' := PISO.piso_body cfg s in
  exists i, (0 < i < PISO.N cfg - 1)%nat /\
    PISO.maxErr s'
    = Rabs (get (PISO.u s') i - get (PISO.u before_last) i).
Proof.
  intros cfg s before_last s'.
  assert (Hc : (1 <= PISO.corr_iter cfg)%nat) by (simpl; lia).
  assert (Hn : (3 <= PISO.N cfg)%nat) by (simpl; lia).
  exact (proj1 (proj2 (proj2
           (C9_residual_is_last_round_change cfg s Hc))) Hn).
Defined.

(** ** C10: the mass source after initialisation *)

(** C10.  On a grid of [n >= 5] cells with both zones at 0.2, let
    [f = floor(0.2 n)].  The initial mass source is [+1] on the [f] cells
    [1 .. f], [-1] on the [f - 1] cells [n - f .. n - 2], and [0] on every
    other cell, so its sum over all cells is [+1]: source and sink do not
    balance. *)
Theorem C10_mass_source_layout (n : nat) :
  (5 <= n)%nat ->
  let f := Z.to_nat (PISO.mass_source_nodes n) in
  let Sm := PISO.init_Sm n in
  f = (n / 5)%nat /\
  PISO.mass_sink_nodes n = PISO.mass_source_nodes n /\
  length Sm = n /\
  (forall i, (1 <= i <= f)%nat -> get Sm i = 1) /\
  (forall i, (n - f <= i <= n - 2)%nat -> get Sm i = -1) /\
  (forall i, (i < n)%nat -> ~ (1 <= i <= f)%nat ->
             ~ (n - f <= i <= n - 2)%nat -> get Sm i = 0) /\
  Sm = [0] ++ repeat 1 f ++ repeat 0 (n - 2 * f - 1)
       ++ repeat (-1) (f - 1) ++ [0] /\
  sum Sm = 1.
Proof.
  intros Hn f Sm.
  assert (Hf : f = (n / 5)%nat) by apply mass_nodes_nat.
  destruct (init_Sm_spec n Hn) as [Hl Hv]. fold Sm in Hl, Hv.
  pose proof (init_Sm_segments n Hn) as Hseg. cbv zeta in Hseg.
  fold Sm in Hseg. rewrite <- Hf in Hseg, Hv.
  pose proof (Nat.div_mod_eq n 5) as Hdiv.
  pose proof (Nat.mod_upper_bound n 5 ltac:(lia)) as Hmod.
  rewrite <- Hf in Hdiv.
  split; [exact Hf|]. clearbody f.
  assert (Hf1 : (1 <= f)%nat) by lia. split; [reflexivity|]. split; [exact Hl|].
  split; [|split; [|split; [|split]]].
  - intros i Hi. rewrite Hv by lia. unfold Sm_value.
    destruct (Nat.leb_spec 1 i); [|lia].
    destruct (Nat.leb_spec i f); [|lia]. reflexivity.
  - intros i Hi. rewrite Hv by lia. unfold Sm_value.
    destruct (Nat.leb_spec i f); [lia|]. rewrite andb_false_r.
    destruct (Nat.leb_spec (n - f) i); [|lia].
    destruct (Nat.leb_spec i (n - 2)); [|lia]. reflexivity.
  - intros i Hi H1 H2. rewrite Hv by lia. unfold Sm_value.
    destruct (Nat.leb_spec 1 i); destruct (Nat.leb_spec i f);
      cbn [andb]; try lia;
      destruct (Nat.leb_spec (n - f) i); destruct (Nat.leb_spec i (n - 2));
      cbn [andb]; try lia; reflexivity.
  - exact Hseg.
  - rewrite Hseg, !sum_app, !sum_repeat.
    rewrite (minus_INR f 1 Hf1). unfold sum; simpl. lra.
Qed.

Lemma C10_witness :
  Z.to_nat (PISO.mass_source_nodes 1000) = 200%nat /\
  length (PISO.Sm PISO.main_config) = 1000%nat /\
  sum (PISO.Sm PISO.main_config) = 1.
Proof.
  destruct (C10_mass_source_layout 1000 ltac:(lia))
    as (_ & _ & Hl & _ & _ & _ & _ & Hs).
  split; [reflexivity|]. exact (conj Hl Hs).
Defined.

(** ** C3: the momentum coefficients of an interior cell *)

(** C3, in the earlier PISO program, at its own initial state.  There the
    temperature is 200 K in every cell, and the momentum assembly gives
    cell 1 the sub-diagonal [- max(F_l, 0) - D_l] with [D_l] the mean of the
    two neighbouring densities over [dz], which differs from the value with
    the mean of the two viscosities. *)
Theorem C3_early_program_conductance_uses_density :
  let cfg := PISO_early.main_config in
  let s := PISO_early.initial_state cfg in
  let s_1 := PISO.emit PISO.AssembleMomentum s in
  let s' := PISO_early.assemble_momentum cfg s in
  let rho := value (PISO_early.liquid_sodium.rho 200) in
  let mu := value (PISO_early.liquid_sodium.mu 200) in
  let F_l := PISO_early.F_l cfg s_1 1 in
  get (PISO.T s) 0 = 200 /\ get (PISO.T s) 1 = 200 /\
  get (PISO.aU s') 1 = - Rmax F_l 0 - 0.5 * (rho + rho) / PISO.dz cfg /\
  get (PISO.aU s') 1 <> - Rmax F_l 0 - 0.5 * (mu + mu) / PISO.dz cfg.
Proof.
  intros cfg s s_1 s' rho mu F_l.
  assert (HT : forall j, (j < 100)%nat -> get (PISO.T s_1) j = 200).
  { intros j Hj. apply get_vec. exact Hj. }
  assert (Hsz : momentum_sized 100 s_1).
  { repeat split; apply length_vec. }
  assert (Hi : (0 < 1 < PISO.N cfg - 1)%nat) by (simpl; lia).
  destruct (early_assemble_momentum_row cfg s 1 Hi) as (Ha & _).
  change (fold_left (PISO_early.momentum_cell cfg) (range 1 1)
                    (PISO.emit PISO.AssembleMomentum s)) with s_1 in Ha.
  fold s' in Ha.
  destruct (early_momentum_cell_written cfg 100 s_1 1 Hsz ltac:(lia))
    as (Wa & _).
  assert (E : get (PISO.aU s') 1
              = - Rmax F_l 0 - 0.5 * (rho + rho) / PISO.dz cfg).
  { rewrite Ha, Wa. unfold PISO_early.D_l, PISO_early.rho_at.
    change (1 - 1)%nat with 0%nat. rewrite !HT by lia. reflexivity. }
  split; [apply (HT 0%nat); lia|]. split; [apply (HT 1%nat); lia|].
  split; [exact E|].
  rewrite E.
  assert (Hrho : 219 <= rho).
  { unfold rho, PISO_early.liquid_sodium.rho, PISO_early.liquid_sodium.Tcrit,
      value; simpl fst.
    apply sodium_density_positive. lra. }
  assert (Hmu : mu < 1).
  { unfold mu, PISO_early.liquid_sodium.mu, value; simpl fst.
    apply sodium_viscosity_small. lra. }
  change (PISO.dz cfg) with (1.0 / (100 - 1)).
  intros H. lra.
Qed.

(** ** C6: the boundary velocities after the momentum solve *)

(** C6, in exact arithmetic.  On a grid of at least two cells, when no
    pivot of the assembled momentum system is zero: after the momentum
    predictor of either PISO program [u[0]] is [u_inlet] and [u[N - 1]] is
    [u_outlet]; after the momentum predictor of the SIMPLEC program, whose
    last row is the zero-gradient row, [u[0]] is [u_inlet] and [u[Nx - 1]]
    is [u[Nx - 2]]. *)
Theorem C6_boundary_velocities_after_momentum_solve :
  (forall (cfg : PISO.Config) (s : PISO.State),
     (2 <= PISO.N cfg)%nat ->
     momentum_sized (PISO.N cfg) s ->
     (let s' := PISO.assemble_momentum cfg s in
      pivots_nonzero (PISO.aU s') (PISO.bU s') (PISO.cU s') (PISO.dU s')) ->
     get (PISO.u (PISO.momentum_predictor cfg s)) 0 = PISO.u_inlet cfg /\
     get (PISO.u (PISO.momentum_predictor cfg s)) (PISO.N cfg - 1)
     = PISO.u_outlet cfg) /\
  (forall (cfg : PISO.Config) (s : PISO.State),
     (2 <= PISO.N cfg)%nat ->
     momentum_sized (PISO.N cfg) s ->
     (let s' := PISO_early.assemble_momentum cfg s in
      pivots_nonzero (PISO.aU s') (PISO.bU s') (PISO.cU s') (PISO.dU s')) ->
     get (PISO.u (PISO_early.momentum_predictor cfg s)) 0
     = PISO.u_inlet cfg /\
     get (PISO.u (PISO_early.momentum_predictor cfg s)) (PISO.N cfg - 1)
     = PISO.u_outlet cfg) /\
  (forall (cfg : SIMPLEC.Config) (u p T : list R),
     (2 <= SIMPLEC.Nx cfg)%nat ->
     (let '(a, b, c, d) := SIMPLEC.momentum_system cfg u p T in
      pivots_nonzero a b c d) ->
     get (SIMPLEC.momentum_predictor cfg u p T) 0 = SIMPLEC.u_inlet cfg /\
     get (SIMPLEC.momentum_predictor cfg u p T) (SIMPLEC.Nx cfg - 1)
     = get (SIMPLEC.momentum_predictor cfg u p T) (SIMPLEC.Nx cfg - 2)).
Proof.
  split; [|split].
  - intros cfg s HN Hsz Hp. cbv zeta in Hp.
    destruct (assemble_momentum_bc_rows cfg s HN Hsz)
      as [(Hb0 & Hc0 & Hd0) (Ha & Hb & Hd)].
    pose proof (momentum_sized_same _ _ _ (assemble_momentum_size cfg s) Hsz)
      as (_ & Lb & _ & _).
    unfold PISO.momentum_predictor. rewrite u_solve_momentum.
    split.
    + exact (dirichlet_first _ _ _ _ _ _ _ HN Lb Hp Hb0 Hc0 Hd0).
    + exact (dirichlet_last _ _ _ _ _ _ _ HN Lb Hp Ha Hb Hd).
  - intros cfg s HN Hsz Hp. cbv zeta in Hp.
    destruct (early_assemble_momentum_bc_rows cfg s HN Hsz)
      as [(Hb0 & Hc0 & Hd0) (Ha & Hb & Hd)].
    pose proof (momentum_sized_same _ _ _
                  (early_assemble_momentum_size cfg s) Hsz)
      as (_ & Lb & _ & _).
    unfold PISO_early.momentum_predictor. rewrite u_early_solve_momentum.
    split.
    + exact (dirichlet_first _ _ _ _ _ _ _ HN Lb Hp Hb0 Hc0 Hd0).
    + exact (dirichlet_last _ _ _ _ _ _ _ HN Lb Hp Ha Hb Hd).
  - intros cfg u p T HN Hp. unfold SIMPLEC.momentum_predictor.
    destruct (SIMPLEC.momentum_system cfg u p T) as [[[a b] c] d] eqn:E.
    destruct (simplec_momentum_system_rows cfg u p T a b c d HN E)
      as ((_ & Lb & _ & _) & (Hb0 & Hc0 & Hd0) & (Ha & Hb & Hd)).
    split.
    + apply (dirichlet_first a b c d (SIMPLEC.Nx cfg) 1 (SIMPLEC.u_inlet cfg));
        auto.
      rewrite Hd0. lra.
    + apply (zero_gradient_end a b c d (SIMPLEC.Nx cfg)); auto.
Qed.

Lemma C6_witness :
  (get (PISO.u (PISO.momentum_predictor
                  flow_config (PISO.initial_state flow_config))) 0
   = PISO.u_inlet flow_config /\
   get (PISO.u (PISO.momentum_predictor
                  flow_config (PISO.initial_state flow_config)))
       (PISO.N flow_config - 1)
   = PISO.u_outlet flow_config) /\
  (get (PISO.u (PISO_early.momentum_predictor
                  flow_config (PISO_early.initial_state flow_config))) 0
   = PISO.u_inlet flow_config /\
   get (PISO.u (PISO_early.momentum_predictor
                  flow_config (PISO_early.initial_state flow_config)))
       (PISO.N flow_config - 1)
   = PISO.u_outlet flow_config) /\
  (get (SIMPLEC.momentum_predictor
          simplec_small_config
          (SIMPLEC.u (SIMPLEC.initial_state simplec_small_config
                                            simplec_small_numerics))
          (SIMPLEC.p (SIMPLEC.initial_state simplec_small_config
                                            simplec_small_numerics))
          (SIMPLEC.T (SIMPLEC.initial_state simplec_small_config
                                            simplec_small_numerics))) 0
   = SIMPLEC.u_inlet simplec_small_config /\
   get (SIMPLEC.momentum_predictor
          simplec_small_config
          (SIMPLEC.u (SIMPLEC.initial_state simplec_small_config
                                            simplec_small_numerics))
          (SIMPLEC.p (SIMPLEC.initial_state simplec_small_config
                                            simplec_small_numerics))
          (SIMPLEC.T (SIMPLEC.initial_state simplec_small_config
                                            simplec_small_numerics)))
       (SIMPLEC.Nx simplec_small_config - 1)
   = get (SIMPLEC.momentum_predictor
            simplec_small_config
            (SIMPLEC.u (SIMPLEC.initial_state simplec_small_config
                                              simplec_small_numerics))
            (SIMPLEC.p (SIMPLEC.initial_state simplec_small_config
                                              simplec_small_numerics))
            (SIMPLEC.T (SIMPLEC.initial_state simplec_small_config
                                              simplec_small_numerics)))
         (SIMPLEC.Nx simplec_small_config - 2)).
Proof.
  exact (conj
           (proj1 C6_boundary_velocities_after_momentum_solve
                  flow_config (PISO.initial_state flow_config)
                  flow_grid_two flow_grid_sized flow_grid_pivots)
           (conj
              (proj1 (proj2 C6_boundary_velocities_after_momentum_solve)
                     flow_config (PISO_early.initial_state flow_config)
                     flow_grid_two early_flow_grid_sized
                     early_flow_grid_pivots)
              (proj2 (proj2 C6_boundary_velocities_after_momentum_solve)
                     simplec_small_config _ _ _
                     simplec_small_two simplec_small_pivots))).
Defined.

(** C6 as stated fails in the arithmetic the program runs in.  The
    boundary rows are rows of the system that is solved; the boundary
    values are not assigned after the solve.  On the grid of four nodes,
    with the other constants and the initial values of [main], the first
    momentum solve in binary64 returns [u[0]] equal to [u_inlet], and
    [u[2]] and [u[3]] one unit in the last place apart: [u[Nx - 1]] is the
    quotient [d_star[Nx - 1]] and [u[Nx - 2]] is
    [d_star[Nx - 2] - c_star[Nx - 2] * u[Nx - 1]], which are the same real
    number and two different doubles.  The last line says that they stay
    different for every value of the two correlations at 300 K within
    eight units in the last place of the value the C library returns. *)
Section C6Binary64.

Import PrimFloat.

Lemma C6_counterexample :
  let u := SIMPLEC_binary64.first_solve SIMPLEC_binary64.rho_Na_l_300
                                        SIMPLEC_binary64.mu_Na_300 in
  PrimFloat.eqb (SIMPLEC_binary64.get u 0) 0.01%float = true /\
  PrimFloat.eqb (SIMPLEC_binary64.get u 2) 0x1.25636191d2cfcp-40%float
  = true /\
  PrimFloat.eqb (SIMPLEC_binary64.get u 3) 0x1.25636191d2cfdp-40%float
  = true /\
  PrimFloat.eqb (SIMPLEC_binary64.get u 3) (SIMPLEC_binary64.get u 2)
  = false /\
  forallb
    (fun rho =>
       forallb
         (fun mu =>
            negb (PrimFloat.eqb
                    (SIMPLEC_binary64.get
                       (SIMPLEC_binary64.first_solve rho mu) 3)
                    (SIMPLEC_binary64.get
                       (SIMPLEC_binary64.first_solve rho mu) 2)))
         (SIMPLEC_binary64.neighbours 8 SIMPLEC_binary64.mu_Na_300))
    (SIMPLEC_binary64.neighbours 8 SIMPLEC_binary64.rho_Na_l_300)
  = true.
Proof. vm_compute. repeat split. Qed.

End C6Binary64.

(** * Further properties of the programs *)

(** ** The tridiagonal solver *)

(** The solver has no use for [a[0]] and [c[n - 1]], the two entries that
    lie outside the matrix: for four vectors of the same size and nonzero
    pivots, writing any two values there leaves the pivots nonzero and the
    returned vector as it was. *)
Theorem X1_solveTridiagonal_ignores_corner_entries
        (a b c d : list R) (v w : R) :
  (1 <= length b)%nat ->
  length a = length b -> length c = length b -> length d = length b ->
  pivots_nonzero a b c d ->
  pivots_nonzero (upd a 0 v) b (upd c (length b - 1) w) d /\
  solveTridiagonal (upd a 0 v) b (upd c (length b - 1) w) d
  = solveTridiagonal a b c d.
Proof.
  intros Hn _ _ _ Hp.
  destruct (solveTridiagonal_corner a b c d v w Hn) as [Hpiv Heq].
  split; [exact (Hpiv Hp)|exact Heq].
Qed.

Lemma X1_witness :
  solveTridiagonal (upd [0; 1; 1] 0 7) [2; 2; 2]
                   (upd [1; 1; 0] (length [2; 2; 2] - 1) 9) [1; 2; 3]
  = solveTridiagonal [0; 1; 1] [2; 2; 2] [1; 1; 0] [1; 2; 3].
Proof.
  exact (proj2 (X1_solveTridiagonal_ignores_corner_entries
                  [0; 1; 1] [2; 2; 2] [1; 1; 0] [1; 2; 3] 7 9
                  ltac:(simpl; lia) eq_refl eq_refl eq_refl
                  C1_pivots_example)).
Defined.

(** With nonzero pivots the system has no other solution: a vector of the
    size of the system that satisfies every row is the vector the solver
    returns. *)
Theorem X2_solveTridiagonal_unique (a b c d y : list R) :
  (1 <= length b)%nat ->
  pivots_nonzero a b c d ->
  length y = length b ->
  (forall i, (i < length b)%nat -> row_holds a b c d y i) ->
  y = solveTridiagonal a b c d.
Proof.
  intros Hn Hp Ly Hrows.
  apply (nth_ext _ _ 0 0).
  - rewrite length_solveTridiagonal by exact Hn. exact Ly.
  - intros i Hi. rewrite Ly in Hi.
    apply (solveTridiagonal_unique_cells a b c d y Hn Hp Hrows i Hi).
Qed.

Lemma X2_rows_example :
  forall i, (i < 3)%nat ->
    row_holds [0; 1; 1] [2; 2; 2] [1; 1; 0] [1; 2; 3] [1 / 2; 0; 3 / 2] i.
Proof.
  intros i Hi.
  assert (Hc : i = 0%nat \/ i = 1%nat \/ i = 2%nat) by lia.
  destruct Hc as [-> | [-> | ->]]; unfold row_holds, get; simpl; lra.
Qed.

Lemma X2_witness :
  [1 / 2; 0; 3 / 2] = solveTridiagonal [0; 1; 1] [2; 2; 2] [1; 1; 0] [1; 2; 3].
Proof.
  exact (X2_solveTridiagonal_unique
           [0; 1; 1] [2; 2; 2] [1; 1; 0] [1; 2; 3] [1 / 2; 0; 3 / 2]
           ltac:(simpl; lia) C1_pivots_example eq_refl X2_rows_example).
Defined.

(** Strict diagonal dominance of every row is enough for the solver: no
    pivot is zero, every [c_star] stays below one in absolute value, and
    the returned vector satisfies every row. *)
Theorem X3_diagonal_dominance_suffices (a b c d : list R) :
  (1 <= length b)%nat ->
  diagonally_dominant a b c ->
  pivots_nonzero a b c d /\
  (forall i, (i < length b)%nat ->
     Rabs (get (fst (forward_sweep a b c d)) i) < 1) /\
  (forall i, (i < length b)%nat ->
     row_holds a b c d (solveTridiagonal a b c d) i).
Proof.
  intros Hn Hdom.
  pose proof (dominance_pivots a b c d Hn Hdom) as Hp.
  split; [exact Hp|]. split.
  - intros i Hi. destruct (forward_sweep a b c d) as [cs ds] eqn:E.
    apply (dominance_bounds a b c d cs ds Hn Hdom E i Hi).
  - apply solveTridiagonal_rows; assumption.
Qed.

Lemma X3_dominance_example :
  diagonally_dominant [0; 1; -1] [4; -4; 4] [1; 2; 0].
Proof.
  intros i Hi. simpl in Hi.
  assert (Hc : i = 0%nat \/ i = 1%nat \/ i = 2%nat) by lia.
  destruct Hc as [-> | [-> | ->]]; unfold get; simpl;
    unfold Rabs; repeat destruct Rcase_abs; lra.
Qed.

Lemma X3_witness :
  pivots_nonzero [0; 1; -1] [4; -4; 4] [1; 2; 0] [1; 2; 3] /\
  (forall i, (i < 3)%nat ->
     row_holds [0; 1; -1] [4; -4; 4] [1; 2; 0] [1; 2; 3]
       (solveTridiagonal [0; 1; -1] [4; -4; 4] [1; 2; 0] [1; 2; 3]) i).
Proof.
  destruct (X3_diagonal_dominance_suffices
              [0; 1; -1] [4; -4; 4] [1; 2; 0] [1; 2; 3]
              ltac:(simpl; lia) X3_dominance_example) as (Hp & _ & Hr).
  exact (conj Hp Hr).
Defined.

(** ** The PISO program: sizes *)

(** On a grid with at least one cell, a state whose vectors all have the
    size of the grid (the pressure buffer two more) keeps that through a
    whole timestep and through the whole time loop; the initial variables
    of [main] are such a state. *)
Theorem X4_vector_sizes_are_kept (cfg : PISO.Config) (s : PISO.State) :
  (1 <= PISO.N cfg)%nat ->
  state_sized cfg s ->
  (forall it, state_sized cfg (PISO.timestep cfg s it)) /\
  state_sized cfg (PISO.time_loop cfg s) /\
  state_sized cfg (PISO.time_loop cfg (PISO.initial_state cfg)).
Proof.
  intros HN Hs. split; [|split].
  - intros it. apply timestep_sized; assumption.
  - apply timesteps_sized; assumption.
  - apply timesteps_sized; [assumption|apply initial_state_sized].
Qed.

Lemma X4_witness :
  state_sized small_config
    (PISO.time_loop small_config (PISO.initial_state small_config)).
Proof.
  exact (proj1 (proj2 (X4_vector_sizes_are_kept
                         small_config (PISO.initial_state small_config)
                         ltac:(simpl; lia) small_grid_state_sized))).
Defined.

(** ** The PISO program: the pressure correction *)

(** On a grid of at least two cells, when no pivot of the
    pressure-correction system is zero, the correction the continuity stage
    stores is zero at the outlet cell and the same in the first two
    cells. *)
Theorem X5_pressure_correction_ends (cfg : PISO.Config) (s : PISO.State) :
  (2 <= PISO.N cfg)%nat ->
  system_pivots_nonzero (PISO.continuity_system cfg s) ->
  get (PISO.p_prime (PISO.continuity_satisfactor cfg s)) (PISO.N cfg - 1) = 0 /\
  get (PISO.p_prime (PISO.continuity_satisfactor cfg s)) 0
  = get (PISO.p_prime (PISO.continuity_satisfactor cfg s)) 1.
Proof.
  intros HN Hp. rewrite p_prime_continuity_satisfactor.
  apply continuity_solution_ends; assumption.
Qed.

Lemma X5_witness :
  get (PISO.p_prime (PISO.continuity_satisfactor
                       small_config (PISO.initial_state small_config)))
      (PISO.N small_config - 1) = 0 /\
  get (PISO.p_prime (PISO.continuity_satisfactor
                       small_config (PISO.initial_state small_config))) 0
  = get (PISO.p_prime (PISO.continuity_satisfactor
                         small_config (PISO.initial_state small_config))) 1.
Proof.
  exact (X5_pressure_correction_ends
           small_config (PISO.initial_state small_config)
           small_grid_two small_grid_continuity_pivots).
Defined.

(** Under the same conditions and with vectors of the right sizes, a
    corrector round leaves the pressure of the outlet cell as it was and
    moves the pressures of the first two cells by the same amount. *)
Theorem X6_outlet_pressure_is_kept (cfg : PISO.Config) (s : PISO.State) :
  (2 <= PISO.N cfg)%nat ->
  length (PISO.p s) = PISO.N cfg ->
  length (PISO.p_storage s) = (PISO.N cfg + 2)%nat ->
  system_pivots_nonzero (PISO.continuity_system cfg s) ->
  get (PISO.p (PISO.corrector_round cfg s)) (PISO.N cfg - 1)
  = get (PISO.p s) (PISO.N cfg - 1) /\
  get (PISO.p (PISO.corrector_round cfg s)) 0 - get (PISO.p s) 0
  = get (PISO.p (PISO.corrector_round cfg s)) 1 - get (PISO.p s) 1.
Proof.
  intros HN Lp Ls Hp.
  destruct (continuity_solution_ends cfg s HN Hp) as [Hlast Hfirst].
  rewrite !(p_corrector_round_cells cfg s) by (try assumption; lia).
  rewrite Hlast, Hfirst. split; lra.
Qed.

Lemma X6_witness :
  get (PISO.p (PISO.corrector_round
                 small_config (PISO.initial_state small_config)))
      (PISO.N small_config - 1)
  = get (PISO.p (PISO.initial_state small_config)) (PISO.N small_config - 1).
Proof.
  exact (proj1 (X6_outlet_pressure_is_kept
                  small_config (PISO.initial_state small_config)
                  small_grid_two eq_refl eq_refl
                  small_grid_continuity_pivots)).
Defined.

(** The interior rows of the pressure-correction system sum to zero, and
    the matrix is symmetric there: the super-diagonal entry of an interior
    row is the sub-diagonal entry of the next interior row. *)
Theorem X7_pressure_correction_matrix
        (cfg : PISO.Config) (s : PISO.State) (i : nat) :
  (0 < i < PISO.N cfg - 1)%nat ->
  let sys := PISO.continuity_system cfg s in
  get (sub_diagonal sys) i + get (main_diagonal sys) i
  + get (super_diagonal sys) i = 0 /\
  ((i + 1 < PISO.N cfg - 1)%nat ->
   get (super_diagonal sys) i = get (sub_diagonal sys) (i + 1)).
Proof.
  intros Hi sys. unfold sys.
  pose proof (continuity_interior_entries cfg s i Hi) as H1.
  cbv zeta in H1. split.
  - destruct (PISO.continuity_system cfg s) as [[[aP bP] cP] dP].
    destruct H1 as (Ha & Hc & Hb).
    unfold sub_diagonal, main_diagonal, super_diagonal. rewrite Ha, Hb, Hc.
    lra.
  - intros Hi2.
    pose proof (continuity_interior_entries cfg s (i + 1) ltac:(lia)) as H2.
    cbv zeta in H2.
    destruct (PISO.continuity_system cfg s) as [[[aP bP] cP] dP].
    destruct H1 as (_ & Hc & _). destruct H2 as (Ha & _ & _).
    unfold sub_diagonal, super_diagonal. rewrite Hc, Ha.
    replace (i + 1 - 1)%nat with i by lia. reflexivity.
Qed.

Lemma X7_witness :
  get (super_diagonal (PISO.continuity_system
                         PISO.main_config
                         (PISO.initial_state PISO.main_config))) 1
  = get (sub_diagonal (PISO.continuity_system
                         PISO.main_config
                         (PISO.initial_state PISO.main_config))) (1 + 1).
Proof.
  exact (proj2 (X7_pressure_correction_matrix
                  PISO.main_config (PISO.initial_state PISO.main_config) 1
                  ltac:(simpl; lia)) ltac:(simpl; lia)).
Defined.

(** ** The PISO program: the velocity *)

(** The velocity corrector leaves the two boundary velocities as they
    were and corrects every interior velocity by the central difference of
    the pressure correction over [2 * dz * bU[i]]. *)
Theorem X8_velocity_corrector_cells
        (cfg : PISO.Config) (s : PISO.State) (j : nat) :
  length (PISO.u s) = PISO.N cfg ->
  (j < PISO.N cfg)%nat ->
  get (PISO.u (PISO.velocity_corrector cfg s)) j
  = if ((0 <? j) && (j <? PISO.N cfg - 1))%nat
    then get (PISO.u s) j
         - (get (PISO.p_prime s) (j + 1) - get (PISO.p_prime s) (j - 1))
           / (2.0 * PISO.dz cfg * get (PISO.bU s) j)
    else get (PISO.u s) j.
Proof.
  intros Lu Hj.
  destruct (velocity_corrector_values cfg s) as [Hout Hin].
  destruct (Nat.ltb_spec 0 j); destruct (Nat.ltb_spec j (PISO.N cfg - 1));
    cbn [andb].
  - apply Hin; lia.
  - apply Hout; lia.
  - apply Hout; lia.
  - apply Hout; lia.
Qed.

Lemma X8_witness :
  get (PISO.u (PISO.velocity_corrector
                 small_config (PISO.initial_state small_config))) 0
  = get (PISO.u (PISO.initial_state small_config)) 0.
Proof.
  exact (X8_velocity_corrector_cells
           small_config (PISO.initial_state small_config) 0
           eq_refl ltac:(simpl; lia)).
Defined.

(** A whole pass of the inner loop keeps the boundary velocities that the
    momentum solve set: on a grid of at least two cells and with nonzero
    pivots in the momentum system, [u[0]] is [u_inlet] and [u[N - 1]] is
    [u_outlet] after the pass, whatever the number of corrector rounds. *)
Theorem X9_pass_keeps_boundary_velocities
        (cfg : PISO.Config) (s : PISO.State) :
  (2 <= PISO.N cfg)%nat ->
  momentum_sized (PISO.N cfg) s ->
  (let s' := PISO.assemble_momentum cfg s in
   pivots_nonzero (PISO.aU s') (PISO.bU s') (PISO.cU s') (PISO.dU s')) ->
  get (PISO.u (PISO.piso_body cfg s)) 0 = PISO.u_inlet cfg /\
  get (PISO.u (PISO.piso_body cfg s)) (PISO.N cfg - 1) = PISO.u_outlet cfg.
Proof.
  intros HN Hsz Hp. cbv zeta in Hp.
  destruct (momentum_predictor_ends cfg s HN Hsz Hp) as [H0 Hn].
  rewrite u_piso_body.
  rewrite !corrector_rounds_ends by lia.
  exact (conj H0 Hn).
Qed.

Lemma X9_witness :
  get (PISO.u (PISO.piso_body
                 small_config (PISO.initial_state small_config))) 0
  = PISO.u_inlet small_config /\
  get (PISO.u (PISO.piso_body
                 small_config (PISO.initial_state small_config)))
      (PISO.N small_config - 1)
  = PISO.u_outlet small_config.
Proof.
  exact (X9_pass_keeps_boundary_velocities
           small_config (PISO.initial_state small_config)
           small_grid_two small_grid_sized small_grid_pivots).
Defined.

(** ** The PISO program: the temperature *)

(** The temperature rows at both ends are zero-gradient rows: on a grid of
    at least two cells and with nonzero pivots in the temperature system,
    the temperature calculator leaves [T[0] = T[1]] and
    [T[N - 1] = T[N - 2]]. *)
Theorem X10_temperature_ends (cfg : PISO.Config) (s : PISO.State) :
  (2 <= PISO.N cfg)%nat ->
  system_pivots_nonzero (PISO.temperature_system cfg s) ->
  get (PISO.T (PISO.temperature_calculator cfg s)) 0
  = get (PISO.T (PISO.temperature_calculator cfg s)) 1 /\
  get (PISO.T (PISO.temperature_calculator cfg s)) (PISO.N cfg - 1)
  = get (PISO.T (PISO.temperature_calculator cfg s)) (PISO.N cfg - 2).
Proof.
  intros HN Hp. rewrite T_temperature_calculator.
  apply temperature_solution_ends; assumption.
Qed.

Lemma X10_witness :
  get (PISO.T (PISO.temperature_calculator
                 small_config (PISO.initial_state small_config))) 0
  = get (PISO.T (PISO.temperature_calculator
                   small_config (PISO.initial_state small_config))) 1 /\
  get (PISO.T (PISO.temperature_calculator
                 small_config (PISO.initial_state small_config)))
      (PISO.N small_config - 1)
  = get (PISO.T (PISO.temperature_calculator
                   small_config (PISO.initial_state small_config)))
        (PISO.N small_config - 2).
Proof.
  exact (X10_temperature_ends
           small_config (PISO.initial_state small_config)
           small_grid_two small_grid_temperature_pivots).
Defined.

(** ** The PISO program: the loops *)

(** Every timestep starts the inner loop with [maxErr = 1.0] and
    [iter = 0]: the loop makes no pass at all exactly when the budget is
    zero or the tolerance is at least one, and then leaves the state as it
    was; otherwise it makes at least one pass. *)
Theorem X11_first_pass_of_a_timestep (cfg : PISO.Config) (s : PISO.State) :
  (PISO.iter (PISO.piso_loop cfg (PISO.begin_timestep s)) = 0%nat <->
   PISO.tot_iter cfg = 0%nat \/ 1 <= PISO.tol cfg) /\
  (PISO.tot_iter cfg = 0%nat \/ 1 <= PISO.tol cfg ->
   PISO.piso_loop cfg (PISO.begin_timestep s) = PISO.begin_timestep s).
Proof.
  split; [split|].
  - intros H0.
    destruct (Nat.eq_dec (PISO.tot_iter cfg) 0) as [Ht|Ht]; [now left|].
    destruct (Rle_dec 1 (PISO.tol cfg)) as [Hl|Hl]; [now right|].
    destruct (piso_loop_first_pass cfg s ltac:(lia) ltac:(lra)) as [_ H1].
    lia.
  - intros H. now rewrite piso_loop_no_pass.
  - apply piso_loop_no_pass.
Qed.

Lemma X11_witness :
  PISO.piso_loop no_round_config
    (PISO.begin_timestep (PISO.initial_state no_round_config))
  <> PISO.begin_timestep (PISO.initial_state no_round_config).
Proof.
  intros H.
  assert (H0 : PISO.iter (PISO.piso_loop no_round_config
                 (PISO.begin_timestep (PISO.initial_state no_round_config)))
               = 0%nat) by (rewrite H; reflexivity).
  apply (proj1 (X11_first_pass_of_a_timestep
                  no_round_config (PISO.initial_state no_round_config)))
    in H0.
  destruct H0 as [H0|H0]; [discriminate H0|].
  change (PISO.tol no_round_config) with 1e-8 in H0. lra.
Defined.

(** With no corrector round in a pass the residual is never recomputed:
    when the tolerance is below one, every timestep uses the whole budget
    and leaves the loop with [maxErr] still at 1.0. *)
Theorem X12_no_round_uses_whole_budget (cfg : PISO.Config) (s : PISO.State) :
  PISO.corr_iter cfg = 0%nat ->
  PISO.tol cfg < 1 ->
  PISO.iter (PISO.piso_loop cfg (PISO.begin_timestep s)) = PISO.tot_iter cfg /\
  PISO.maxErr (PISO.piso_loop cfg (PISO.begin_timestep s)) = 1.0.
Proof.
  intros Hc Ht. unfold PISO.piso_loop.
  destruct (piso_while_full_budget cfg Hc
              (PISO.tot_iter cfg - PISO.iter (PISO.begin_timestep s))%nat
              (PISO.begin_timestep s)) as [H1 H2].
  - change (PISO.maxErr (PISO.begin_timestep s)) with 1.0. lra.
  - change (PISO.iter (PISO.begin_timestep s)) with 0%nat. lia.
  - reflexivity.
  - split; [exact H1|]. rewrite H2. reflexivity.
Qed.

Lemma X12_tolerance_example : PISO.tol no_round_config < 1.
Proof. change (PISO.tol no_round_config) with 1e-8. lra. Qed.

Lemma X12_witness :
  PISO.iter (PISO.piso_loop no_round_config
               (PISO.begin_timestep (PISO.initial_state no_round_config)))
  = PISO.tot_iter no_round_config /\
  PISO.maxErr (PISO.piso_loop no_round_config
                 (PISO.begin_timestep (PISO.initial_state no_round_config)))
  = 1.0.
Proof.
  exact (X12_no_round_uses_whole_budget
           no_round_config (PISO.initial_state no_round_config)
           eq_refl X12_tolerance_example).
Defined.

(** Over a whole run the energy system is assembled and solved [t_iter]
    times; the momentum system is solved at most [t_iter * tot_iter] times,
    and the pressure-correction system [corr_iter] times as often as the
    momentum system. *)
Theorem X13_solves_of_a_run (cfg : PISO.Config) (s : PISO.State) :
  entered PISO.SolveEnergy (PISO.log (PISO.time_loop cfg s))
  = (entered PISO.SolveEnergy (PISO.log s) + PISO.t_iter cfg)%nat /\
  entered PISO.AssembleEnergy (PISO.log (PISO.time_loop cfg s))
  = (entered PISO.AssembleEnergy (PISO.log s) + PISO.t_iter cfg)%nat /\
  exists passes,
    (passes <= PISO.t_iter cfg * PISO.tot_iter cfg)%nat /\
    entered PISO.SolveMomentum (PISO.log (PISO.time_loop cfg s))
    = (entered PISO.SolveMomentum (PISO.log s) + passes)%nat /\
    entered PISO.SolveContinuity (PISO.log (PISO.time_loop cfg s))
    = (entered PISO.SolveContinuity (PISO.log s)
       + PISO.corr_iter cfg * passes)%nat.
Proof.
  unfold PISO.time_loop.
  pose proof (log_timesteps cfg (range 0 (PISO.t_iter cfg)) s) as H.
  rewrite !length_range, Nat.sub_0_r in H. exact H.
Qed.

(** ** The PISO program: the output file *)

(** What a run of [t_iter >= 1] timesteps adds to the output file: two
    blank-line texts for every timestep but the last, then the final
    velocities, a blank-line text, the final pressures, a blank-line text
    and the final temperatures, each number followed by [", "]. *)
Theorem X14_output_file_of_a_run
        (cfg : PISO.Config) (s : PISO.State) (m : nat) :
  PISO.t_iter cfg = S m ->
  let fin := PISO.time_loop cfg s in
  PISO.fout fin
  = PISO.fout s
    ++ concat (repeat [PISO.Blank; PISO.Blank] m)
    ++ PISO.profile cfg (PISO.u fin) ++ [PISO.Blank]
    ++ PISO.profile cfg (PISO.p fin) ++ [PISO.Blank]
    ++ PISO.profile cfg (PISO.T fin).
Proof.
  intros Ht fin. unfold fin. rewrite (time_loop_last cfg m s Ht).
  set (s_m := fold_left (PISO.timestep cfg) (range 0 m) s).
  assert (Hlast : PISO.last_step cfg m = true)
    by (apply last_step_spec; lia).
  assert (Hpre : PISO.fout s_m
                 = PISO.fout s ++ concat (repeat [PISO.Blank; PISO.Blank] m)).
  { unfold s_m. rewrite fout_timesteps_before_last.
    - now rewrite length_range, Nat.sub_0_r.
    - intros it Hin. apply in_range in Hin.
      destruct (PISO.last_step cfg it) eqn:E; [|reflexivity].
      apply last_step_spec in E. lia. }
  rewrite fout_timestep, Hlast, Hpre. cbv zeta.
  unfold PISO.timestep.
  set (s' := PISO.temperature_calculator cfg
               (PISO.piso_loop cfg (PISO.begin_timestep s_m))).
  destruct (output_keeps cfg m s') as (Eu & Ep & ET & _).
  rewrite Eu, Ep, ET. now rewrite <- !app_assoc.
Qed.

Lemma X14_witness :
  PISO.fout (PISO.time_loop small_config (PISO.initial_state small_config))
  = PISO.fout (PISO.initial_state small_config)
    ++ concat (repeat [PISO.Blank; PISO.Blank] 1)
    ++ PISO.profile small_config
         (PISO.u (PISO.time_loop small_config
                    (PISO.initial_state small_config)))
    ++ [PISO.Blank]
    ++ PISO.profile small_config
         (PISO.p (PISO.time_loop small_config
                    (PISO.initial_state small_config)))
    ++ [PISO.Blank]
    ++ PISO.profile small_config
         (PISO.T (PISO.time_loop small_config
                    (PISO.initial_state small_config))).
Proof.
  exact (X14_output_file_of_a_run
           small_config (PISO.initial_state small_config) 1 eq_refl).
Defined.

(** ** The property functions *)

(** The correlations of all three programs: up to the critical temperature
    the density is at least 219 and does not increase with the
    temperature; at every positive temperature the viscosity is positive,
    and it is strictly decreasing over the positive temperatures; the
    specific heat is at least 1250 at every temperature. *)
Theorem X15_property_ranges (T1 T2 : R) :
  (forall rho, In rho [PISO.liquid_sodium.rho; SIMPLEC.rho_Na_l;
                       PISO_early.liquid_sodium.rho] ->
     T1 <= T2 -> T2 <= 2509.46 ->
     219 <= value (rho T2) /\ value (rho T2) <= value (rho T1)) /\
  (forall mu, In mu [PISO.liquid_sodium.mu; SIMPLEC.mu_Na;
                     PISO_early.liquid_sodium.mu] ->
     0 < T1 ->
     0 < value (mu T1) /\
     (T1 < T2 -> value (mu T2) < value (mu T1))) /\
  (forall cp, In cp [PISO.liquid_sodium.cp; SIMPLEC.Cp_Na_l;
                     PISO_early.liquid_sodium.cp] ->
     1250 <= value (cp T1)).
Proof.
  split; [|split].
  - intros rho Hin H12 H2. simpl in Hin.
    destruct Hin as [<-|[<-|[<-|[]]]];
      apply (density_bounds T1 T2 H12 H2).
  - intros mu Hin H1. simpl in Hin.
    destruct Hin as [<-|[<-|[<-|[]]]];
      (split; [apply exp_pos|apply viscosity_decreasing; exact H1]).
  - intros cp Hin. simpl in Hin.
    destruct Hin as [<-|[<-|[<-|[]]]]; apply specific_heat_bound.
Qed.

Lemma X15_witness :
  219 <= value (PISO.liquid_sodium.rho 600) /\
  value (PISO.liquid_sodium.rho 600) <= value (PISO.liquid_sodium.rho 371) /\
  value (PISO.liquid_sodium.mu 600) < value (PISO.liquid_sodium.mu 371).
Proof.
  destruct (X15_property_ranges 371 600) as (Hrho & Hmu & _).
  destruct (Hrho PISO.liquid_sodium.rho (or_introl eq_refl)
              ltac:(lra) ltac:(lra)) as [H1 H2].
  destruct (Hmu PISO.liquid_sodium.mu (or_introl eq_refl) ltac:(lra))
    as [_ H3].
  exact (conj H1 (conj H2 (H3 ltac:(lra)))).
Defined.

(** ** The source vectors *)

(** The energy source of the PISO program is the mass source scaled by
    1000000 (so, from five cells on, its sum is 1000000), and the energy
    source of the earlier program is the mass source itself. *)
Theorem X16_energy_source_layout (n : nat) :
  (5 <= n)%nat ->
  length (PISO.init_St n) = n /\
  (forall i, get (PISO.init_St n) i = 1000000 * get (PISO.init_Sm n) i) /\
  sum (PISO.init_St n) = 1000000 /\
  PISO_early.init_St n = PISO.init_Sm n.
Proof.
  intros Hn. rewrite init_St_scaled.
  destruct (init_Sm_spec n Hn) as [Hl _].
  split; [now rewrite length_map|]. split; [|split].
  - intros i. unfold get.
    replace 0 with (1000000 * 0) at 1 by lra. rewrite map_nth. reflexivity.
  - rewrite sum_scaled, sum_init_Sm by exact Hn. lra.
  - apply early_St_cells_same.
Qed.

Lemma X16_witness :
  sum (PISO.St PISO.main_config) = 1000000.
Proof.
  exact (proj1 (proj2 (proj2 (X16_energy_source_layout 1000 ltac:(lia))))).
Defined.

(** The thermal conductivity correlation of all three programs falls with
    the temperature and is positive up to 2500 K. *)
Theorem X17_conductivity_range (T1 T2 : R) :
  forall k, In k [PISO.liquid_sodium.k; SIMPLEC.k_Na_l;
                  PISO_early.liquid_sodium.k] ->
    (T1 < T2 -> value (k T2) < value (k T1)) /\
    (T1 <= 2500 -> 0 < value (k T1)).
Proof.
  intros k Hin. simpl in Hin.
  destruct Hin as [<-|[<-|[<-|[]]]];
    (split; [apply conductivity_decreasing|apply conductivity_positive]).
Qed.

Lemma X17_witness :
  value (SIMPLEC.k_Na_l 1000) < value (SIMPLEC.k_Na_l 300) /\
  0 < value (SIMPLEC.k_Na_l 300).
Proof.
  destruct (X17_conductivity_range 300 1000 SIMPLEC.k_Na_l
              (or_intror (or_introl eq_refl))) as [H1 H2].
  exact (conj (H1 ltac:(lra)) (H2 ltac:(lra))).
Defined.

(** ** The SIMPLEC program: the pressure correction *)



(** ** The SIMPLEC program: a pass of the SIMPLE loop *)

(** A pass on a state whose vectors have [Nx] cells keeps the sizes; it
    moves every pressure by [p_relax] times the correction; it leaves the
    first predicted velocity, corrects every interior velocity by
    [v_relax / (b - (c + a))] times the central difference of the
    correction, and copies the last interior velocity into the last cell;
    [maxErr] is the largest absolute correction of an interior velocity;
    the temperature and the output file are left alone and [iter] grows by
    one. *)
Theorem X19_simplec_pass
        (cfg : SIMPLEC.Config) (num : SIMPLEC.Numerics) (s : SIMPLEC.State) :
  (4 <= SIMPLEC.Nx cfg)%nat -> SIMPLEC.dx cfg <> 0 ->
  simplec_sized cfg s ->
  let s' := SIMPLEC.SIMPLE_pass cfg num s in
  let u_star := simplec_u_star cfg s in
  let sys := SIMPLEC.momentum_system cfg (SIMPLEC.u s) (SIMPLEC.p s)
                                     (SIMPLEC.T s) in
  simplec_sized cfg s' /\
  (forall i, (i < SIMPLEC.Nx cfg)%nat ->
     get (SIMPLEC.p s') i
     = get (SIMPLEC.p s) i
       + SIMPLEC.p_relax num * get (SIMPLEC.p_prime s') i) /\
  get (SIMPLEC.u s') 0 = get u_star 0 /\
  get (SIMPLEC.u s') (SIMPLEC.Nx cfg - 1)
  = get (SIMPLEC.u s') (SIMPLEC.Nx cfg - 2) /\
  (forall j, (1 <= j < SIMPLEC.Nx cfg - 1)%nat ->
     get (SIMPLEC.u s') j
     = get u_star j
       - SIMPLEC.v_relax num
         / (get (main_diagonal sys) j
            - (get (super_diagonal sys) j + get (sub_diagonal sys) j))
         * (get (SIMPLEC.p_prime s') (j + 1)
            - get (SIMPLEC.p_prime s') (j - 1))
         / (2 * SIMPLEC.dx cfg)) /\
  (forall j, (1 <= j < SIMPLEC.Nx cfg - 1)%nat ->
     Rabs (get (SIMPLEC.u s') j - get u_star j) <= SIMPLEC.maxErr s') /\
  (exists j, (1 <= j < SIMPLEC.Nx cfg - 1)%nat /\
     SIMPLEC.maxErr s' = Rabs (get (SIMPLEC.u s') j - get u_star j)) /\
  SIMPLEC.T s' = SIMPLEC.T s /\
  SIMPLEC.fout s' = SIMPLEC.fout s /\
  SIMPLEC.iter s' = S (SIMPLEC.iter s).
Proof.
  intros HN Hdx Hs. cbv zeta.
  destruct (SIMPLE_pass_velocity cfg num HN s) as (H0 & Hl & Hin & Hle & Hmax).
  split; [apply SIMPLE_pass_sized; assumption|].
  split.
  { intros i Hi. apply SIMPLE_pass_pressure; [apply Hs|exact Hi]. }
  split; [exact H0|]. split; [exact Hl|].
  split.
  { intros j Hj. rewrite (Hin j Hj).
    pose proof (b_SIMPLEC_interior cfg s j ltac:(lia) Hj) as Hb.
    cbv zeta in Hb. rewrite Hb. reflexivity. }
  split; [exact Hle|]. split; [exact Hmax|].
  apply SIMPLE_pass_keeps.
Qed.

Lemma X19_witness :
  get (SIMPLEC.u (SIMPLEC.SIMPLE_pass
                    simplec_small_config simplec_small_numerics
                    (SIMPLEC.initial_state simplec_small_config
                                           simplec_small_numerics)))
      (SIMPLEC.Nx simplec_small_config - 1)
  = get (SIMPLEC.u (SIMPLEC.SIMPLE_pass
                      simplec_small_config simplec_small_numerics
                      (SIMPLEC.initial_state simplec_small_config
                                             simplec_small_numerics)))
        (SIMPLEC.Nx simplec_small_config - 2).
Proof.
  exact (proj1 (proj2 (proj2 (proj2
           (X19_simplec_pass
              simplec_small_config simplec_small_numerics
              (SIMPLEC.initial_state simplec_small_config
                                     simplec_small_numerics)
              simplec_small_four simplec_small_dx simplec_small_sized))))).
Defined.

(** ** The SIMPLEC program: the boundary values over a run *)



(** ** The SIMPLEC program: the energy equation *)

(** With a positive timestep and spacing, interior velocities that are not
    negative and interior temperatures up to 2500 K, the energy system is
    strictly diagonally dominant, so its solve meets no zero pivot.  The
    new temperature is [T_inlet] at the first node and [T_outlet] at the
    last, and at every node between them it balances the implicit time
    derivative and the upwind convection with the diffusion. *)
Theorem X21_simplec_energy_equation
        (cfg : SIMPLEC.Config) (num : SIMPLEC.Numerics) (s : SIMPLEC.State) :
  (2 <= SIMPLEC.Nx cfg)%nat -> 0 < SIMPLEC.dt cfg -> 0 < SIMPLEC.dx cfg ->
  (forall i, (1 <= i < SIMPLEC.Nx cfg - 1)%nat ->
     0 <= get (SIMPLEC.u s) i /\ get (SIMPLEC.T s) i <= 2500) ->
  let sys := SIMPLEC.temperature_system cfg num (SIMPLEC.u s)
                                        (SIMPLEC.T s) in
  let T' := SIMPLEC.T (SIMPLEC.temperature_loop cfg num s) in
  diagonally_dominant (sub_diagonal sys) (main_diagonal sys)
                      (super_diagonal sys) /\
  get T' 0 = SIMPLEC.T_inlet num /\
  get T' (SIMPLEC.Nx cfg - 1) = SIMPLEC.T_outlet num /\
  (forall i, (1 <= i < SIMPLEC.Nx cfg - 1)%nat ->
     (get T' i - get (SIMPLEC.T s) i) / SIMPLEC.dt cfg
     + get (SIMPLEC.u s) i * (get T' i - get T' (i - 1)) / SIMPLEC.dx cfg
     = simplec_alpha (SIMPLEC.T s) i
       * (get T' (i + 1) - 2 * get T' i + get T' (i - 1))
       / (SIMPLEC.dx cfg * SIMPLEC.dx cfg)).
Proof.
  intros HN Hdt Hdx Hst. cbv zeta.
  destruct (temperature_loop_keeps cfg num s) as (_ & _ & _ & ->).
  pose proof (simplec_temperature_solution cfg num (SIMPLEC.u s)
                (SIMPLEC.T s) HN Hdt Hdx Hst) as H.
  cbv zeta in H. destruct H as (_ & H0 & H1 & Hin).
  split; [|split; [exact H0|split; [exact H1|exact Hin]]].
  destruct (SIMPLEC.temperature_system cfg num (SIMPLEC.u s) (SIMPLEC.T s))
    as [[[aT bT] cT] dT] eqn:E.
  cbn [sub_diagonal main_diagonal super_diagonal].
  apply (simplec_temperature_dominant cfg num _ _ _ _ _ _ HN Hdt Hdx Hst E).
Qed.

Lemma X21_witness :
  get (SIMPLEC.T (SIMPLEC.temperature_loop
                    simplec_small_config simplec_small_numerics
                    (SIMPLEC.initial_state simplec_small_config
                                           simplec_small_numerics))) 0
  = SIMPLEC.T_inlet simplec_small_numerics.
Proof.
  exact (proj1 (proj2
           (X21_simplec_energy_equation
              simplec_small_config simplec_small_numerics
              (SIMPLEC.initial_state simplec_small_config
                                     simplec_small_numerics)
              simplec_small_two simplec_small_dt simplec_small_dx_positive
              simplec_small_forward))).
Defined.

(** ** The SIMPLEC program: the output file *)

(** A run of [t_iter >= 1] timesteps writes nothing before its last
    timestep and then the final pressures, each followed by [", "], and
    one line end. *)
Theorem X22_simplec_output_file
        (cfg : SIMPLEC.Config) (num : SIMPLEC.Numerics) (s : SIMPLEC.State)
        (m : nat) :
  SIMPLEC.t_iter num = S m ->
  let fin := SIMPLEC.time_loop cfg num s in
  SIMPLEC.fout (fold_left (SIMPLEC.timestep cfg num) (range 0 m) s)
  = SIMPLEC.fout s /\
  SIMPLEC.fout fin
  = SIMPLEC.fout s ++ SIMPLEC.profile cfg (SIMPLEC.p fin)
    ++ [SIMPLEC.Newline].
Proof.
  intros Ht fin.
  assert (Hpre : SIMPLEC.fout (fold_left (SIMPLEC.timestep cfg num)
                                         (range 0 m) s)
                 = SIMPLEC.fout s).
  { apply fout_simplec_timesteps_before_last.
    intros it Hin. apply in_range in Hin.
    destruct (SIMPLEC.last_step num it) eqn:E; [|reflexivity].
    apply simplec_last_step_spec in E. lia. }
  split; [exact Hpre|].
  unfold fin, SIMPLEC.time_loop. rewrite Ht.
  rewrite range_snoc, fold_left_app by lia. cbn [fold_left].
  rewrite fout_simplec_timestep.
  assert (Hlast : SIMPLEC.last_step num m = true)
    by (apply simplec_last_step_spec; lia).
  rewrite Hlast, Hpre. reflexivity.
Qed.

Lemma X22_witness :
  SIMPLEC.fout (SIMPLEC.time_loop
                  simplec_small_config simplec_small_numerics
                  (SIMPLEC.initial_state simplec_small_config
                                         simplec_small_numerics))
  = SIMPLEC.fout (SIMPLEC.initial_state simplec_small_config
                                        simplec_small_numerics)
    ++ SIMPLEC.profile simplec_small_config
         (SIMPLEC.p (SIMPLEC.time_loop
                       simplec_small_config simplec_small_numerics
                       (SIMPLEC.initial_state simplec_small_config
                                              simplec_small_numerics)))
    ++ [SIMPLEC.Newline].
Proof.
  exact (proj2 (X22_simplec_output_file
                  simplec_small_config simplec_small_numerics
                  (SIMPLEC.initial_state simplec_small_config
                                         simplec_small_numerics)
                  1 eq_refl)).
Defined.

(** ** The SIMPLEC program: the SIMPLE loop of a timestep *)

(** The loop of a timestep ends with [iter] within the budget and either
    the budget used up or [maxErr] not above the tolerance; it ends
    without a pass exactly when the budget is zero or the tolerance is at
    least one. *)
Theorem X23_simplec_loop_exit
        (cfg : SIMPLEC.Config) (num : SIMPLEC.Numerics) (s : SIMPLEC.State) :
  let s' := simplec_loop_end cfg num s in
  (SIMPLEC.iter s' <= SIMPLEC.SIMPLE_iter num)%nat /\
  (SIMPLEC.iter s' = SIMPLEC.SIMPLE_iter num
   \/ SIMPLEC.maxErr s' <= SIMPLEC.tol num) /\
  (SIMPLEC.iter s' = 0%nat <->
   SIMPLEC.SIMPLE_iter num = 0%nat \/ 1 <= SIMPLEC.tol num).
Proof.
  cbv zeta. unfold simplec_loop_end, SIMPLEC.SIMPLE_loop.
  set (s0 := SIMPLEC.begin_timestep s).
  change (SIMPLEC.iter s0) with 0%nat. rewrite Nat.sub_0_r.
  pose proof (SIMPLE_while_exit cfg num (SIMPLEC.SIMPLE_iter num) s0
                ltac:(cbn; lia) ltac:(cbn; lia)) as H.
  cbv zeta in H. destruct H as [Hb Hg].
  apply SIMPLE_guard_false in Hg.
  split; [lia|]. split.
  { destruct Hg as [Hg|Hg]; [left; lia|right; exact Hg]. }
  destruct (SIMPLEC.SIMPLE_iter num) as [|f] eqn:Ef.
  { cbn [SIMPLEC.SIMPLE_while]. split; [intros _; now left|reflexivity]. }
  cbn [SIMPLEC.SIMPLE_while].
  destruct (SIMPLEC.SIMPLE_guard num s0) eqn:G.
  - assert (Ht : SIMPLEC.tol num < 1).
    { unfold SIMPLEC.SIMPLE_guard in G. apply andb_prop in G.
      destruct G as [_ G].
      change (SIMPLEC.maxErr s0) with 1.0 in G.
      destruct (Rgt_dec 1.0 (SIMPLEC.tol num)); [lra|discriminate]. }
    destruct (SIMPLE_pass_keeps cfg num s0) as (_ & _ & Hi).
    pose proof (SIMPLE_while_exit cfg num f (SIMPLEC.SIMPLE_pass cfg num s0))
      as H.
    rewrite Hi, Ef in H. change (SIMPLEC.iter s0) with 0%nat in H.
    specialize (H ltac:(lia) ltac:(lia)). cbv zeta in H.
    split; [intros E0; lia|intros [E0|E0]; [discriminate|lra]].
  - split; [|reflexivity]. intros _. right.
    apply SIMPLE_guard_false in G. rewrite Ef in G.
    change (SIMPLEC.iter s0) with 0%nat in G.
    change (SIMPLEC.maxErr s0) with 1.0 in G.
    destruct G as [G|G]; [lia|lra].
Qed.

(** ** The PISO program: when the pressure correction can be solved *)

(** On a grid of at least two cells with a spacing that is not zero, a
    momentum diagonal that is positive in every cell and temperatures up to
    the critical one, no pivot of the pressure-correction system is zero:
    the pivot of an interior row is the face coefficient on its right, the
    negated super-diagonal entry.  The stored correction is then zero at
    the outlet cell and the same in the first two cells. *)
Theorem X24_pressure_correction_is_solvable
        (cfg : PISO.Config) (s : PISO.State) :
  (2 <= PISO.N cfg)%nat -> PISO.dz cfg <> 0 ->
  positive_coefficients cfg s ->
  let sys := PISO.continuity_system cfg s in
  let p' := PISO.p_prime (PISO.continuity_satisfactor cfg s) in
  system_pivots_nonzero sys /\
  (forall i, (0 < i < PISO.N cfg - 1)%nat ->
     pivot (sub_diagonal sys) (main_diagonal sys) (super_diagonal sys)
           (right_side sys) i
     = - get (super_diagonal sys) i) /\
  get p' (PISO.N cfg - 1) = 0 /\
  get p' 0 = get p' 1.
Proof.
  intros HN Hdz Hpos. cbv zeta.
  pose proof (continuity_system_pivots cfg s HN Hdz Hpos) as Hp.
  split; [exact Hp|]. split.
  - pose proof (continuity_row_zero_sum cfg s HN Hdz Hpos) as Hz.
    destruct (PISO.continuity_system cfg s) as [[[aP bP] cP] dP] eqn:E.
    destruct (continuity_system_rows cfg s aP bP cP dP HN E)
      as ((_ & Lb & _ & _) & (Hb0 & Hc0 & _) & (Ha & Hb & _)).
    cbn [sub_diagonal main_diagonal super_diagonal right_side].
    unfold system_row in Hz.
    intros i Hi.
    apply (zero_sum_rows_pivots aP bP cP dP (PISO.N cfg)); assumption.
  - rewrite p_prime_continuity_satisfactor.
    apply continuity_solution_ends; assumption.
Qed.

Lemma X24_witness :
  system_pivots_nonzero
    (PISO.continuity_system small_config (PISO.initial_state small_config)).
Proof.
  exact (proj1 (X24_pressure_correction_is_solvable
                  small_config (PISO.initial_state small_config)
                  small_grid_two small_grid_dz
                  small_grid_positive_coefficients)).
Defined.

(** ** The earlier PISO program: the pressure correction *)

(** The earlier program assembles every interior row of the
    pressure-correction system as the row of the later program divided by
    [dz].  Under the conditions above both systems can be solved, and the
    two programs store the same correction in every cell. *)
Theorem X25_earlier_pressure_correction_is_the_same
        (cfg : PISO.Config) (s : PISO.State) :
  (2 <= PISO.N cfg)%nat -> PISO.dz cfg <> 0 ->
  positive_coefficients cfg s ->
  (forall i, (0 < i < PISO.N cfg - 1)%nat ->
     system_row (PISO_early.pressure_corrector_system cfg s) i
     = (let '(a, b, c, d) := system_row (PISO.continuity_system cfg s) i in
        (a / PISO.dz cfg, b / PISO.dz cfg, c / PISO.dz cfg,
         d / PISO.dz cfg))) /\
  system_pivots_nonzero (PISO_early.pressure_corrector_system cfg s) /\
  (forall j, (j < PISO.N cfg)%nat ->
     get (PISO.p_prime (PISO_early.pressure_corrector cfg s)) j
     = get (PISO.p_prime (PISO.continuity_satisfactor cfg s)) j).
Proof.
  intros HN Hdz Hpos. split; [|split].
  - intros i Hi. apply early_pressure_row_scaled; assumption.
  - apply early_pressure_system_pivots; assumption.
  - intros j Hj.
    rewrite p_prime_early_pressure_corrector, p_prime_continuity_satisfactor.
    apply early_pressure_solution_same; assumption.
Qed.

Lemma X25_witness :
  system_pivots_nonzero
    (PISO_early.pressure_corrector_system
       small_config (PISO.initial_state small_config)).
Proof.
  exact (proj1 (proj2 (X25_earlier_pressure_correction_is_the_same
                         small_config (PISO.initial_state small_config)
                         small_grid_two small_grid_dz
                         small_grid_positive_coefficients))).
Defined.

(** ** The earlier PISO program: the energy equation *)



(** ** The Rhie and Chow terms *)

(** In the PISO program the two Rhie and Chow terms of a cell are third
    differences of the padded pressure: at a cell whose five padded
    neighbours exist, where the padded pressure is a polynomial of degree
    two at most in the cell index, both are zero and the face velocities
    are plain averages of the neighbouring velocities. *)
Theorem X27_rhie_chow_is_a_third_difference
        (cfg : PISO.Config) (s : PISO.State) (i : nat) (a0 a1 a2 : R) :
  (0 < i)%nat -> (i + 3 < length (PISO.p_storage s))%nat ->
  (forall k, (Z.of_nat i - 2 <= k <= Z.of_nat i + 2)%Z ->
     PISO.p_padded s k = a0 + a1 * IZR k + a2 * IZR k * IZR k) ->
  PISO.rhie_chow_l cfg s i = 0 /\
  PISO.rhie_chow_r cfg s i = 0 /\
  PISO.u_l_face cfg s i = 0.5 * (get (PISO.u s) (i - 1) + get (PISO.u s) i) /\
  PISO.u_r_face cfg s i = 0.5 * (get (PISO.u s) i + get (PISO.u s) (i + 1)).
Proof.
  intros _ _ H.
  assert (Hl : PISO.rhie_chow_l cfg s i = 0).
  { unfold PISO.rhie_chow_l. cbv zeta.
    pose proof (third_difference_quadratic (PISO.p_padded s) (Z.of_nat i)
                  a0 a1 a2 ltac:(intros k Hk; apply H; lia)) as E.
    rewrite E. ring. }
  assert (Hr : PISO.rhie_chow_r cfg s i = 0).
  { unfold PISO.rhie_chow_r. cbv zeta.
    pose proof (third_difference_quadratic (PISO.p_padded s)
                  (Z.of_nat i + 1) a0 a1 a2
                  ltac:(intros k Hk; apply H; lia)) as E.
    replace (Z.of_nat i + 1 - 2)%Z with (Z.of_nat i - 1)%Z in E by lia.
    replace (Z.of_nat i + 1 - 1)%Z with (Z.of_nat i) in E by lia.
    replace (Z.of_nat i + 1 + 1)%Z with (Z.of_nat i + 2)%Z in E by lia.
    rewrite E. ring. }
  split; [exact Hl|]. split; [exact Hr|].
  unfold PISO.u_l_face, PISO.u_r_face. rewrite Hl, Hr. split; ring.
Qed.

Lemma X27_witness :
  PISO.rhie_chow_l small_config (PISO.initial_state small_config) 1 = 0.
Proof.
  refine (proj1 (X27_rhie_chow_is_a_third_difference
                   small_config (PISO.initial_state small_config) 1
                   50000 0 0 ltac:(lia) ltac:(simpl; lia) _)).
  intros k Hk. unfold PISO.p_padded.
  change (PISO.p_storage (PISO.initial_state small_config))
    with (vec 5 50000.0).
  rewrite get_vec by lia. lra.
Defined.

(** In the SIMPLEC program the Rhie and Chow term of the loop is a fourth
    difference of the pressure: at a node with two neighbours on each
    side, where the pressure is a polynomial of degree three at most in
    the node index, it is zero. *)
Theorem X28_simplec_rhie_chow_is_a_fourth_difference
        (cfg : SIMPLEC.Config) (b p : list R) (ix : nat)
        (a0 a1 a2 a3 : R) :
  (2 <= ix)%nat -> (ix + 2 < length p)%nat ->
  (forall k, (ix - 2 <= k <= ix + 2)%nat ->
     get p k = a0 + a1 * INR k + a2 * INR k * INR k
               + a3 * INR k * INR k * INR k) ->
  SIMPLEC.rhiechow cfg b p ix = 0.
Proof.
  intros Hix _ H. unfold SIMPLEC.rhiechow.
  rewrite (fourth_difference_cubic p ix a0 a1 a2 a3 Hix H). ring.
Qed.

Lemma X28_witness :
  SIMPLEC.rhiechow simplec_small_config [1; 1; 1; 1; 1] [1; 2; 3; 4; 5] 2
  = 0.
Proof.
  refine (X28_simplec_rhie_chow_is_a_fourth_difference
            simplec_small_config [1; 1; 1; 1; 1] [1; 2; 3; 4; 5] 2
            1 1 0 0 ltac:(lia) ltac:(simpl; lia) _).
  intros k Hk.
  assert (Hc : k = 0%nat \/ k = 1%nat \/ k = 2%nat \/ k = 3%nat
               \/ k = 4%nat) by lia.
  destruct Hc as [-> | [-> | [-> | [-> | ->]]]]; unfold get; simpl; lra.
Defined.

(** ** The SIMPLEC program: when the momentum predictor can be solved *)

(** With positive steps and permeability, a Forchheimer coefficient that
    is not negative, interior temperatures between zero and the critical
    one, and a velocity that falls by less than [dx / dt] from each node to
    the next, every row of the momentum system but the last is strictly
    diagonally dominant and no pivot is zero; the predicted velocity is
    then [u_inlet] at the first node and the same at the last two
    nodes. *)
Theorem X29_simplec_momentum_is_solvable
        (cfg : SIMPLEC.Config) (u p T : list R) :
  (2 <= SIMPLEC.Nx cfg)%nat ->
  0 < SIMPLEC.dt cfg -> 0 < SIMPLEC.dx cfg -> 0 < SIMPLEC.K cfg ->
  0 <= SIMPLEC.CF cfg ->
  (forall ix, (1 <= ix < SIMPLEC.Nx cfg - 1)%nat ->
     0 < get T ix <= 2509.46 /\
     (get u (ix - 1) - get u ix) * SIMPLEC.dt cfg < SIMPLEC.dx cfg) ->
  system_pivots_nonzero (SIMPLEC.momentum_system cfg u p T) /\
  get (SIMPLEC.momentum_predictor cfg u p T) 0 = SIMPLEC.u_inlet cfg /\
  get (SIMPLEC.momentum_predictor cfg u p T) (SIMPLEC.Nx cfg - 1)
  = get (SIMPLEC.momentum_predictor cfg u p T) (SIMPLEC.Nx cfg - 2).
Proof.
  intros HN Hdt Hdx HK HCF Hst. unfold SIMPLEC.momentum_predictor.
  destruct (SIMPLEC.momentum_system cfg u p T) as [[[a b] c] d] eqn:E.
  pose proof (simplec_momentum_pivots cfg u p T a b c d
                HN Hdt Hdx HK HCF Hst E) as Hp.
  destruct (simplec_momentum_system_rows cfg u p T a b c d HN E)
    as ((_ & Lb & _ & _) & (Hb0 & Hc0 & Hd0) & (Ha1 & Hb1 & Hd1)).
  cbn [system_pivots_nonzero].
  split; [exact Hp|]. split.
  - apply (dirichlet_first a b c d (SIMPLEC.Nx cfg) 1 (SIMPLEC.u_inlet cfg));
      auto.
    rewrite Hd0. lra.
  - apply (zero_gradient_end a b c d (SIMPLEC.Nx cfg)); auto.
Qed.

Lemma X29_witness :
  system_pivots_nonzero
    (SIMPLEC.momentum_system
       simplec_small_config
       (SIMPLEC.u (SIMPLEC.initial_state simplec_small_config
                                         simplec_small_numerics))
       (SIMPLEC.p (SIMPLEC.initial_state simplec_small_config
                                         simplec_small_numerics))
       (SIMPLEC.T (SIMPLEC.initial_state simplec_small_config
                                         simplec_small_numerics))).
Proof.
  exact (proj1 (X29_simplec_momentum_is_solvable
                  simplec_small_config _ _ _
                  simplec_small_two simplec_small_dt
                  simplec_small_dx_positive simplec_small_K
                  simplec_small_CF simplec_small_momentum_conditions)).
Defined.
